(** * opusglobe: the multiplayer session server (server.js)

    A shallow embedding of the WebSocket part of [server.js]: the
    [players] registry, the [worldChanges] delta store, the identity
    generator, the two broadcast functions and the four per-connection
    handlers, followed by the properties of the session protocol proved
    about them.

    How the JavaScript is read:

    - A socket [ws] is a handle (a natural number); the n-th accepted
      connection gets handle n, so a new socket is distinct from every
      earlier one, as a new object is.
    - The transport (the [ws] library) is not part of the program.  Its
      contract is written out in [step]: it puts a socket in [wss.clients]
      when it accepts it, changes its [readyState], takes it out of
      [wss.clients] when it emits ['close'], and emits ['close'] once per
      socket.
    - [ws.send(JSON.stringify(m))] is recorded as the pair [(ws, m)] at the
      end of the server's [sent] list; serialisation itself is not modelled.
    - The message handler receives what [JSON.parse] makes of the raw
      message: a value, or the failure to parse.
    - [Math.random()] is an input of the connection event: the i-th call
      made while the handler runs returns [random i].
    - Numbers in messages.  An integer of magnitude at most 2^53 (each of
      them is a double, and prints with all its digits) is [NInt z]; any
      other number that is not NaN (a fraction, an integer-valued double
      beyond that range, an infinity) is [NOther s], [s] being the string
      [Number::toString] gives for it, which determines it.  The server
      copies such numbers, tests their truthiness and prints them, nothing
      else.  -0 is identified with 0, which none of these operations tells
      apart.
    - Numbers the server computes with (the random draws, the colour
      channels) are doubles, carried as rationals and combined with
      binary64 rounding written out. *)

From Stdlib Require Import ZArith QArith Qround Qabs Qpower Lqa.
From Stdlib Require Import List String Ascii Bool Lia Permutation.
From Stdlib Require Import DecimalString HexadecimalString.
From Stdlib Require DecimalPos DecimalZ.
Import ListNotations.

Close Scope Q_scope.
Local Open Scope string_scope.
Local Open Scope list_scope.

(** ** JavaScript values *)

(** A number of a message.  [NInt z] is the integer [z], for [z] of
    magnitude at most 2^53; an [NInt z] beyond that range is the number of
    no message (a double beyond 2^53 is an [NOther], by the digits
    JavaScript prints for it), and the statements that read the digits of
    an integer bound it so. *)
Inductive Num : Type :=
| NInt (z : Z)
| NNaN
| NOther (repr : string).

#[warnings="-register-all"]
Inductive JSValue : Type :=
| VUndefined
| VNull
| VBool (b : bool)
| VNum (n : Num)
| VStr (s : string)
| VArr (elems : list JSValue)
| VObj (props : list (string * JSValue)).

(** Exceptions a handler can meet; both are caught by the [try] of the
    message handler. *)
Inductive JSError : Type :=
| SyntaxError
| TypeError.

Inductive Result (A : Type) : Type :=
| Ok (a : A)
| Throw (e : JSError).

Arguments Ok {A} a.
Arguments Throw {A} e.

Definition bind {A B : Type} (r : Result A) (k : A -> Result B) : Result B :=
  match r with
  | Ok a => k a
  | Throw e => Throw e
  end.

Notation "x <- r ;; k" := (bind r (fun x => k))
  (at level 61, r at next level, right associativity).

(** [Number::toString] in radix 10.  For an integer of magnitude at most
    2^53 these are all its digits, as JavaScript prints them. *)
Definition Number_toString (n : Num) : string :=
  match n with
  | NInt z => DecimalString.NilZero.string_of_int (Z.to_int z)
  | NNaN => "NaN"
  | NOther repr => repr
  end.

(** Own property lookup; the properties of an object are listed in
    creation order. *)
Fixpoint own (name : string) (props : list (string * JSValue)) : option JSValue :=
  match props with
  | [] => None
  | (k, v) :: rest => if String.eqb k name then Some v else own name rest
  end.

(** [ToString], as a template literal applies it.  An array prints its
    elements joined by commas, [undefined] and [null] elements as the empty
    string.  An object without an own [toString] property prints through
    [Object.prototype.toString]; with one (a value that came from JSON is
    never callable) [OrdinaryToPrimitive] finds no usable method and
    throws. *)
Fixpoint ToString (v : JSValue) : Result string :=
  match v with
  | VUndefined => Ok "undefined"
  | VNull => Ok "null"
  | VBool true => Ok "true"
  | VBool false => Ok "false"
  | VNum n => Ok (Number_toString n)
  | VStr s => Ok s
  | VArr elems =>
      let element (x : JSValue) : Result string :=
        match x with
        | VUndefined | VNull => Ok EmptyString
        | _ => ToString x
        end in
      (fix join (l : list JSValue) : Result string :=
         match l with
         | [] => Ok EmptyString
         | [x] => element x
         | x :: rest =>
             s <- element x;;
             r <- join rest;;
             Ok (s ++ "," ++ r)%string
         end) elems
  | VObj props =>
      match own "toString" props with
      | Some _ => Throw TypeError
      | None => Ok "[object Object]"
      end
  end.

(** [ToBoolean], the test behind [||]. *)
Definition ToBoolean (v : JSValue) : bool :=
  match v with
  | VUndefined | VNull => false
  | VBool b => b
  | VNum (NInt z) => negb (z =? 0)%Z
  | VNum NNaN => false
  | VNum (NOther _) => true
  | VStr s => negb (String.eqb s EmptyString)
  | VArr _ | VObj _ => true
  end.

(** [a || b] *)
Definition or_else (a b : JSValue) : JSValue :=
  if ToBoolean a then a else b.

(** The value of property [name] of an object with own properties [props]:
    [undefined] when there is none. *)
Definition property (props : list (string * JSValue)) (name : string) : JSValue :=
  match own name props with
  | Some v => v
  | None => VUndefined
  end.

(** [data.name], for the property names the server reads ([type], [face],
    [layer], [block], [position], [forward], [pitch]): none of them lives
    on a prototype, so a primitive or an array gives [undefined], and
    [null] and [undefined] throw. *)
Definition Get (data : JSValue) (name : string) : Result JSValue :=
  match data with
  | VUndefined | VNull => Throw TypeError
  | VObj props => Ok (property props name)
  | _ => Ok VUndefined
  end.

(** [v === s] for a string literal [s]. *)
Definition strict_eq_string (v : JSValue) (s : string) : bool :=
  match v with
  | VStr t => String.eqb t s
  | _ => false
  end.

(** [key.split('_')] *)
Fixpoint split (sep : ascii) (s : string) : list string :=
  match s with
  | EmptyString => [EmptyString]
  | String c rest =>
      if Ascii.eqb c sep then EmptyString :: split sep rest
      else match split sep rest with
           | part :: parts => String c part :: parts
           | [] => [String c EmptyString]
           end
  end.

(** The result of [Number(s)].  On a decimal integer literal whose value a
    double holds exactly, it is that integer; on any other string the
    result is kept as the application itself: [NumberOf s] is whatever
    number JavaScript reads from [s], which can be the number of an
    [Exactly z] (the empty string reads as 0, 2e0 as 2).  Two results being
    different terms therefore says nothing of the numbers, and no statement
    rests on it. *)
Inductive Numeric : Type :=
| Exactly (z : Z)
| NumberOf (s : string).

Definition Number (s : string) : Numeric :=
  match DecimalString.NilZero.int_of_string s with
  | Some d =>
      let z := Z.of_int d in
      if (Z.abs z <=? 2 ^ 53)%Z then Exactly z else NumberOf s
  | None => NumberOf s
  end.

(** ** Records, messages and the server state *)

Definition Handle := nat.

(** [ws.readyState]: 0, 1, 2, 3. *)
Inductive ReadyState : Type :=
| CONNECTING
| OPEN
| CLOSING
| CLOSED.

Definition is_open (s : ReadyState) : bool :=
  match s with
  | OPEN => true
  | _ => false
  end.

Record Color : Type := { r : Q; g : Q; b : Q }.

Record PlayerData : Type := {
  id : string;
  color : Color;
  position : JSValue;
  forward : JSValue;
  pitch : JSValue
}.

(** One element of the [changes] array of a [worldState] message; a
    component is [None] where the destructuring finds no element. *)
Record Change : Type := {
  face : option Numeric;
  layer : option Numeric;
  block : JSValue
}.

(** The objects handed to [JSON.stringify], by their [type] field. *)
Inductive Msg : Type :=
| init (id : string) (color : Color)
| playerJoin (id : string) (color : Color) (position forward pitch : JSValue)
| worldState (changes : list Change)
| blockChange (face layer block : JSValue)
| playerMove (id : string) (position forward pitch : JSValue)
| playerLeave (id : string).

(** Lines written by [console.log] and [console.error]. *)
Inductive LogLine : Type :=
| PlayerConnected (playerId : string)
| PlayerDisconnected (playerId : string)
| ErrorParsingMessage (e : JSError)
| WebSocketError (playerId : string) (error : string).

(** A socket with the variables its handlers close over.  [playerData] is
    the object built in the connection handler: the [players] Map stores a
    reference to this same object, so the record under a key [ws] of
    [players] is [playerData] of socket [ws]. *)
Record Socket : Type := {
  readyState : ReadyState;
  playerId : string;
  playerData : PlayerData
}.

Record Server : Type := {
  sockets : list Socket;                  (* every accepted socket, by handle *)
  clients : list Handle;                  (* wss.clients, in insertion order *)
  players : list Handle;                  (* keys of players, in insertion order *)
  worldChanges : list (string * JSValue); (* entries of worldChanges, in insertion order *)
  sent : list (Handle * Msg);             (* every ws.send, oldest first *)
  console : list LogLine
}.

Definition initial : Server :=
  {| sockets := []; clients := []; players := []; worldChanges := [];
     sent := []; console := [] |}.

Definition socket (st : Server) (ws : Handle) : option Socket :=
  nth_error (sockets st) ws.

(** ** Map and Set operations *)

Definition has (ws : Handle) (l : list Handle) : bool :=
  existsb (Nat.eqb ws) l.

(** [Set.add] and, for [players], [Map.set]: an existing key keeps its place. *)
Definition add (ws : Handle) (l : list Handle) : list Handle :=
  if has ws l then l else l ++ [ws].

(** [delete] *)
Definition delete (ws : Handle) (l : list Handle) : list Handle :=
  filter (fun h => negb (Nat.eqb ws h)) l.

(** [players.get(client)] *)
Definition players_get (st : Server) (client : Handle) : option PlayerData :=
  if has client (players st) then option_map playerData (socket st client)
  else None.

(** [worldChanges.set(key, block)] *)
Fixpoint Map_set (key : string) (value : JSValue)
    (m : list (string * JSValue)) : list (string * JSValue) :=
  match m with
  | [] => [(key, value)]
  | (k, v) :: rest =>
      if String.eqb k key then (k, value) :: rest
      else (k, v) :: Map_set key value rest
  end.

Fixpoint Map_get (key : string) (m : list (string * JSValue)) : option JSValue :=
  match m with
  | [] => None
  | (k, v) :: rest => if String.eqb k key then Some v else Map_get key rest
  end.

(** ** State updates *)

Definition with_sent (l : list (Handle * Msg)) (st : Server) : Server :=
  {| sockets := sockets st; clients := clients st; players := players st;
     worldChanges := worldChanges st;
     sent := l; console := console st |}.

(** [ws.send(JSON.stringify(message))] *)
Definition send (ws : Handle) (message : Msg) (st : Server) : Server :=
  with_sent (sent st ++ [(ws, message)]) st.

Definition log (line : LogLine) (st : Server) : Server :=
  {| sockets := sockets st; clients := clients st; players := players st;
     worldChanges := worldChanges st;
     sent := sent st; console := console st ++ [line] |}.

Definition with_sockets (l : list Socket) (st : Server) : Server :=
  {| sockets := l; clients := clients st; players := players st;
     worldChanges := worldChanges st;
     sent := sent st; console := console st |}.

Definition with_clients (l : list Handle) (st : Server) : Server :=
  {| sockets := sockets st; clients := l; players := players st;
     worldChanges := worldChanges st;
     sent := sent st; console := console st |}.

Definition with_players (l : list Handle) (st : Server) : Server :=
  {| sockets := sockets st; clients := clients st; players := l;
     worldChanges := worldChanges st;
     sent := sent st; console := console st |}.

Definition with_worldChanges (m : list (string * JSValue)) (st : Server) : Server :=
  {| sockets := sockets st; clients := clients st; players := players st;
     worldChanges := m;
     sent := sent st; console := console st |}.

(** Replace element [n] of a list; out of range, nothing changes. *)
Fixpoint replace_nth {A : Type} (n : nat) (x : A) (l : list A) : list A :=
  match l, n with
  | [], _ => []
  | _ :: rest, O => x :: rest
  | y :: rest, S m => y :: replace_nth m x rest
  end.

Definition set_readyState (ws : Handle) (s : ReadyState) (st : Server) : Server :=
  match socket st ws with
  | Some sock =>
      with_sockets
        (replace_nth ws {| readyState := s; playerId := playerId sock;
                           playerData := playerData sock |} (sockets st)) st
  | None => st
  end.

Definition set_playerData (ws : Handle) (d : PlayerData) (st : Server) : Server :=
  match socket st ws with
  | Some sock =>
      with_sockets
        (replace_nth ws {| readyState := readyState sock; playerId := playerId sock;
                           playerData := d |} (sockets st)) st
  | None => st
  end.

(** ** binary64 arithmetic

    A double is carried as the rational it denotes.  Every operation
    rounds its exact result to the nearest double, ties to the even
    significand: 53 significant bits, and the fixed spacing 2^-1074 of the
    subnormals at the bottom.  Overflow to Infinity is not modelled; the
    numbers the server computes stay below 16. *)

Definition pow2 (e : Z) : Q := ((2 # 1) ^ e)%Q.

(** The integer [e] with [2^e <= q < 2^(e+1)], for [q > 0]. *)
Definition Qlog2 (q : Q) : Z :=
  let e0 := (Z.log2 (Qnum q) - Z.log2 (Zpos (Qden q)))%Z in
  if Qle_bool (pow2 e0) q then e0 else (e0 - 1)%Z.

(** The nearest integer, halves to the even one. *)
Definition round_half_even (t : Q) : Z :=
  let f := Qfloor t in
  match (t - inject_Z f ?= 1 # 2)%Q with
  | Lt => f
  | Gt => (f + 1)%Z
  | Eq => if Z.even f then f else (f + 1)%Z
  end.

(** The exponent of the spacing of the doubles around [q]. *)
Definition ulp_exponent (q : Q) : Z :=
  Z.max (Qlog2 (Qabs q) - 52) (-1074).

(** Round to nearest, ties to even. *)
Definition RN (q : Q) : Q :=
  if Qeq_bool q 0 then 0%Q
  else let u := ulp_exponent q in
       (inject_Z (round_half_even (q / pow2 u)) * pow2 u)%Q.

(** A decimal literal, [x * y] and [x + y]. *)
Definition double (literal : Q) : Q := RN literal.
Definition fmul (x y : Q) : Q := RN (x * y)%Q.
Definition fadd (x y : Q) : Q := RN (x + y)%Q.

(** [q] is a double: rounding leaves it as it is. *)
Definition is_double (q : Q) : bool := Qeq_bool (RN q) q.

(** [x * 0.7 + 0.3] *)
Definition channel (x : Q) : Q := fadd (fmul x (double 0.7%Q)) (double 0.3%Q).

(** ** Identity generator *)

(** [x | 0]: [ToInt32], truncation followed by wrap-around to 32 signed bits. *)
Definition ToInt32 (x : Q) : Z :=
  let t := Z.quot (Qnum x) (Zpos (Qden x)) in
  let m := (t mod 2 ^ 32)%Z in
  if (2 ^ 31 <=? m)%Z then (m - 2 ^ 32)%Z else m.

(** [v.toString(16)] for an integer [v]. *)
Definition toString16 (v : Z) : string :=
  HexadecimalString.NilZero.string_of_int (Z.to_hex_int v).

(** [s.replace(/[xy]/g, function(c) {...})] with the callback of
    [generateUUID]; [calls] counts the draws already made. *)
Fixpoint replace_xy (s : string) (random : nat -> Q) (calls : nat) : string :=
  match s with
  | EmptyString => EmptyString
  | String c rest =>
      if (Ascii.eqb c "x" || Ascii.eqb c "y")%bool then
        let r := ToInt32 (fmul (random calls) (double 16%Q)) in
        let v := if Ascii.eqb c "x" then r else Z.lor (Z.land r 3) 8 in
        (toString16 v ++ replace_xy rest random (S calls))%string
      else String c (replace_xy rest random calls)
  end.

Definition template : string := "xxxxxxxx-xxxx-4xxx-yxxx-xxxxxxxxxxxx".

Definition generateUUID (random : nat -> Q) : string :=
  replace_xy template random 0.

Arguments generateUUID : simpl never.

(** The number of matches of [/[xy]/g] in [s]. *)
Fixpoint matches_xy (s : string) : nat :=
  match s with
  | EmptyString => 0
  | String c rest =>
      if (Ascii.eqb c "x" || Ascii.eqb c "y")%bool then S (matches_xy rest)
      else matches_xy rest
  end.

(** The number of draws [generateUUID] makes, one for each match: 31. *)
Definition uuid_draws : nat := Eval cbv in matches_xy template.

Definition generateColor (random : nat -> Q) (calls : nat) : Color :=
  {| r := channel (random calls);
     g := channel (random (calls + 1));
     b := channel (random (calls + 2)) |}.

(** ** Broadcast engine *)

Definition forEach {A : Type} (l : list A) (f : A -> Server -> Server)
    (st : Server) : Server :=
  fold_left (fun s a => f a s) l st.

(** [playerData.id !== excludeId]; [None] is the default [null]. *)
Definition id_differs (playerData : PlayerData) (excludeId : option string) : bool :=
  match excludeId with
  | None => true
  | Some e => negb (String.eqb (id playerData) e)
  end.

Definition client_open (st : Server) (client : Handle) : bool :=
  match socket st client with
  | Some sock => is_open (readyState sock)
  | None => false
  end.

Definition broadcast (message : Msg) (excludeId : option string) (st : Server) : Server :=
  forEach (clients st) (fun client s =>
    if client_open s client then
      match players_get s client with
      | Some playerData =>
          if id_differs playerData excludeId then send client message s else s
      | None => s
      end
    else s) st.

Definition broadcastAll (message : Msg) (st : Server) : Server :=
  forEach (clients st) (fun client s =>
    if client_open s client then send client message s else s) st.

(** ** Handlers *)

Definition num (z : Z) : JSValue := VNum (NInt z).

(** What the transport hands to the message handler, by what
    [JSON.parse] makes of it. *)
Inductive Payload : Type :=
| Unparsable
| Parsed (data : JSValue).

Definition JSON_parse (message : Payload) : Result JSValue :=
  match message with
  | Unparsable => Throw SyntaxError
  | Parsed data => Ok data
  end.

(** [const [face, layer] = key.split('_').map(Number)] with the entry's block. *)
Definition decode (entry : string * JSValue) : Change :=
  let parts := map Number (split "_" (fst entry)) in
  {| face := nth_error parts 0; layer := nth_error parts 1; block := snd entry |}.

Definition changes (m : list (string * JSValue)) : list Change :=
  map decode m.

Definition joinOf (data : PlayerData) : Msg :=
  playerJoin (id data) (color data) (position data) (forward data)
    (or_else (pitch data) (num 0)).

(** [wss.on('connection', (ws) => ...)].  [ws] is the socket the transport
    has just accepted: a new handle, open and in [wss.clients].  Its entry
    in [sockets] holds the two variables the handlers of [ws] close over. *)
Definition on_connection (random : nat -> Q) (st : Server) : Server :=
  let ws : Handle := List.length (sockets st) in
  let playerId := generateUUID random in
  let playerColor := generateColor random uuid_draws in
  let playerData :=
    {| id := playerId; color := playerColor;
       position := VArr [num 0; num 102; num 0];
       forward := VArr [num 0; num 0; num (-1)];
       pitch := num 0 |} in
  (* the accepted socket and its closure *)
  let st := with_clients (add ws (clients st))
              (with_sockets
                 (sockets st ++ [{| readyState := OPEN; playerId := playerId;
                                    playerData := playerData |}]) st) in
  (* players.set(ws, playerData) *)
  let st := with_players (add ws (players st)) st in
  let st := log (PlayerConnected playerId) st in
  let st := send ws (init playerId playerColor) st in
  (* players.forEach((data, client) => ...) *)
  let st :=
    forEach (players st) (fun client s =>
      if negb (Nat.eqb client ws) then
        match players_get s client with
        | Some data => send ws (joinOf data) s
        | None => s
        end
      else s) st in
  (* if (worldChanges.size > 0) *)
  let st :=
    match worldChanges st with
    | [] => st
    | _ :: _ => send ws (worldState (changes (worldChanges st))) st
    end in
  broadcast
    (playerJoin playerId playerColor (position playerData) (forward playerData)
       (pitch playerData))
    (Some playerId) st.

(** The template literal [`${face}_${layer}`]. *)
Definition key_of (face layer : JSValue) : Result string :=
  f <- ToString face;;
  l <- ToString layer;;
  Ok (f ++ "_" ++ l)%string.

(** [ws.on('message', (message) => ...)] of socket [ws].  Whatever the
    [try] block throws is caught and logged; nothing has been changed by
    then, since every statement that can throw comes before the first
    update. *)
Definition on_message (ws : Handle) (message : Payload) (st : Server) : Server :=
  match socket st ws with
  | None => st
  | Some sock =>
      let playerId := playerId sock in
      let attempt : Result Server :=
        data <- JSON_parse message;;
        type <- Get data "type";;
        if strict_eq_string type "blockChange" then
          face <- Get data "face";;
          layer <- Get data "layer";;
          key <- key_of face layer;;
          block <- Get data "block";;
          let st := with_worldChanges (Map_set key block (worldChanges st)) st in
          Ok (broadcast (blockChange face layer block) (Some playerId) st)
        else if strict_eq_string type "position" then
          position <- Get data "position";;
          forward <- Get data "forward";;
          pitch <- Get data "pitch";;
          (* playerData.position = ...; .forward = ...; .pitch = ... *)
          let st :=
            set_playerData ws
              {| id := id (playerData sock); color := color (playerData sock);
                 position := position; forward := forward;
                 pitch := or_else pitch (num 0) |} st in
          Ok (broadcast
                (playerMove playerId position forward (or_else pitch (num 0)))
                (Some playerId) st)
        else Ok st in
      match attempt with
      | Ok st' => st'
      | Throw e => log (ErrorParsingMessage e) st
      end
  end.

(** [ws.on('close', () => ...)] *)
Definition on_close (ws : Handle) (st : Server) : Server :=
  match socket st ws with
  | None => st
  | Some sock =>
      let st := log (PlayerDisconnected (playerId sock)) st in
      let st := with_players (delete ws (players st)) st in
      broadcast (playerLeave (playerId sock)) None st
  end.

(** [ws.on('error', (error) => ...)] *)
Definition on_error (ws : Handle) (error : string) (st : Server) : Server :=
  match socket st ws with
  | None => st
  | Some sock => log (WebSocketError (playerId sock) error) st
  end.

(** ** Events *)

Inductive Event : Type :=
| Connection (random : nat -> Q)
| Message (ws : Handle) (message : Payload)
| Closing (ws : Handle)
| Close (ws : Handle)
| Error (ws : Handle) (error : string).

(** One event.  [Closing] is the start of the closing handshake, which no
    handler sees.  On [Close] the transport marks the socket closed and
    drops it from [wss.clients] before the program's handler runs; it emits
    the event once per socket. *)
Definition step (st : Server) (e : Event) : Server :=
  match e with
  | Connection random => on_connection random st
  | Message ws message => on_message ws message st
  | Closing ws =>
      if client_open st ws then set_readyState ws CLOSING st else st
  | Close ws =>
      match socket st ws with
      | Some sock =>
          match readyState sock with
          | CLOSED => st
          | _ =>
              on_close ws
                (with_clients (delete ws (clients st))
                   (set_readyState ws CLOSED st))
          end
      | None => st
      end
  | Error ws error => on_error ws error st
  end.

Definition run (events : list Event) (st : Server) : Server :=
  fold_left step events st.

(** The messages sent to one socket, oldest first. *)
Definition received (ws : Handle) (st : Server) : list Msg :=
  map snd (filter (fun p => Nat.eqb (fst p) ws) (sent st)).

(** ** Definitions for the statements and their proofs *)

(** Who a [broadcast] reaches: the open sockets of [wss.clients] that have a
    record whose id is not the excluded one. *)
Definition reached (st : Server) (excludeId : option string) (client : Handle) : bool :=
  client_open st client &&
  match players_get st client with
  | Some playerData => id_differs playerData excludeId
  | None => false
  end.

(** One [send] of [message] to each socket of [l]. *)
Definition to_all (l : list Handle) (message : Msg) : list (Handle * Msg) :=
  map (fun client => (client, message)) l.

(** The record and the socket entry the connection handler creates. *)
Definition new_record (random : nat -> Q) : PlayerData :=
  {| id := generateUUID random; color := generateColor random uuid_draws;
     position := VArr [num 0; num 102; num 0];
     forward := VArr [num 0; num 0; num (-1)];
     pitch := num 0 |}.

Definition new_socket (random : nat -> Q) : Socket :=
  {| readyState := OPEN; playerId := generateUUID random;
     playerData := new_record random |}.

(** The records of [l] other than the one of [ws], in order. *)
Definition others (st : Server) (ws : Handle) (l : list Handle) : list PlayerData :=
  flat_map (fun client =>
    if negb (Nat.eqb client ws) then
      match players_get st client with
      | Some data => [data]
      | None => []
      end
    else []) l.

(** The state in which the handler starts sending: socket, registry entry
    and log line are in place. *)
Definition registered (random : nat -> Q) (st : Server) : Server :=
  let ws := List.length (sockets st) in
  log (PlayerConnected (generateUUID random))
    (with_players (add ws (players st))
       (with_clients (add ws (clients st))
          (with_sockets (sockets st ++ [new_socket random]) st))).

(** The [worldState] message of the handshake, if any. *)
Definition world_replay (st : Server) : list Msg :=
  match worldChanges st with
  | [] => []
  | _ :: _ => [worldState (changes (worldChanges st))]
  end.

(** The [playerJoin] broadcast for a new player. *)
Definition announcement (random : nat -> Q) : Msg :=
  playerJoin (generateUUID random) (generateColor random uuid_draws)
    (VArr [num 0; num 102; num 0]) (VArr [num 0; num 0; num (-1)]) (num 0).

(** The record of [sock] after a position message. *)
Definition moved (sock : Socket) (position forward pitch : JSValue) : PlayerData :=
  {| id := id (playerData sock); color := color (playerData sock);
     position := position; forward := forward;
     pitch := or_else pitch (num 0) |}.

(** The four things the message handler can do. *)
Inductive message_outcome (ws : Handle) (st : Server) : Server -> Prop :=
| ignored : message_outcome ws st st
| logged e : message_outcome ws st (log (ErrorParsingMessage e) st)
| block_changed sock key face layer block :
    socket st ws = Some sock ->
    message_outcome ws st
      (broadcast (blockChange face layer block) (Some (playerId sock))
         (with_worldChanges (Map_set key block (worldChanges st)) st))
| player_moved sock position forward pitch :
    socket st ws = Some sock ->
    message_outcome ws st
      (broadcast
         (playerMove (playerId sock) position forward (or_else pitch (num 0)))
         (Some (playerId sock))
         (set_playerData ws (moved sock position forward pitch) st)).

(** What holds in every state the events can lead to. *)
Record Inv (st : Server) : Prop := {
  inv_clients : clients st = players st;
  inv_nodup : NoDup (players st);
  inv_live : forall h,
    In h (players st) <->
    exists sock, socket st h = Some sock /\ readyState sock <> CLOSED;
  inv_id : forall h sock,
    socket st h = Some sock -> id (playerData sock) = playerId sock;
  inv_pitch : forall h sock,
    socket st h = Some sock ->
    or_else (pitch (playerData sock)) (num 0) = pitch (playerData sock);
  inv_sent : forall h m, In (h, m) (sent st) -> h < List.length (sockets st);
  inv_keys : NoDup (map fst (worldChanges st))
}.

(** The state the close handler starts in: the transport has marked the
    socket closed and dropped it from [wss.clients]. *)
Definition closed_by_transport (ws : Handle) (st : Server) : Server :=
  with_clients (delete ws (clients st)) (set_readyState ws CLOSED st).

(** [snapshot]: the records of the registry, in the order of [players.forEach]. *)
Definition snapshot (st : Server) : list PlayerData :=
  flat_map (fun client =>
    match players_get st client with
    | Some data => [data]
    | None => []
    end) (players st).

(** The sockets accepted and not yet closed, read off the events alone:
    [next] is the handle the next connection gets, [open] the sockets
    between their ['connection'] and their ['close']. *)
Fixpoint live (events : list Event) (next : Handle) (open : list Handle) : list Handle :=
  match events with
  | [] => open
  | Connection _ :: rest => live rest (S next) (open ++ [next])
  | Close ws :: rest => live rest next (filter (fun h => negb (Nat.eqb h ws)) open)
  | _ :: rest => live rest next open
  end.

(** [s === WebSocket.CLOSED] *)
Definition is_closed (s : ReadyState) : bool :=
  match s with
  | CLOSED => true
  | _ => false
  end.

(** The handles of the sockets whose [readyState] is not CLOSED. *)
Definition not_closed (st : Server) : list Handle :=
  filter (fun h =>
    match socket st h with
    | Some sock => negb (is_closed (readyState sock))
    | None => false
    end) (seq 0 (List.length (sockets st))).

(** Who gets the leave notice of [ws]: the open sockets left in [wss.clients]. *)
Definition remaining (ws : Handle) (st : Server) : list Handle :=
  filter (client_open st) (delete ws (clients st)).

(** [c] occurs in [s]. *)
Fixpoint contains (c : ascii) (s : string) : bool :=
  match s with
  | EmptyString => false
  | String a rest => Ascii.eqb a c || contains c rest
  end.

(** A block change message as a client writes it. *)
Definition blockChangeMessage (face layer block : JSValue) : Payload :=
  Parsed (VObj [("type", VStr "blockChange"); ("face", face);
                ("layer", layer); ("block", block)]).

(** ** Definitions for the further properties *)

(** A value [Math.random] can return: a double in [0, 1). *)
Definition unit_draw (x : Q) : Prop :=
  is_double x = true /\ (0 <= x)%Q /\ (x < 1)%Q.

(** The hexadecimal digit for [v], 0 <= v < 16. *)
Definition hex_digit (v : Z) : ascii :=
  match v with
  | 0%Z => "0" | 1%Z => "1" | 2%Z => "2" | 3%Z => "3"
  | 4%Z => "4" | 5%Z => "5" | 6%Z => "6" | 7%Z => "7"
  | 8%Z => "8" | 9%Z => "9" | 10%Z => "a" | 11%Z => "b"
  | 12%Z => "c" | 13%Z => "d" | 14%Z => "e" | _ => "f"
  end%char.

(** The values [v] the callback of [generateUUID] prints, one for each match
    of [/[xy]/g] in [s], in order. *)
Fixpoint uuid_digits (s : string) (random : nat -> Q) (calls : nat) : list Z :=
  match s with
  | EmptyString => []
  | String c rest =>
      if (Ascii.eqb c "x" || Ascii.eqb c "y")%bool then
        let r := ToInt32 (fmul (random calls) (double 16%Q)) in
        let v := if Ascii.eqb c "x" then r else Z.lor (Z.land r 3) 8 in
        v :: uuid_digits rest random (S calls)
      else uuid_digits rest random calls
  end.

(** [message.type === 'init'] *)
Definition is_init (m : Msg) : bool :=
  match m with
  | init _ _ => true
  | _ => false
  end.

(** The event is a message of socket [h]; the ['close'] of socket [h]. *)
Definition is_message_of (h : Handle) (e : Event) : bool :=
  match e with
  | Message ws _ => Nat.eqb ws h
  | _ => false
  end.

Definition is_close_of (h : Handle) (e : Event) : bool :=
  match e with
  | Close ws => Nat.eqb ws h
  | _ => false
  end.

(** The lines of the console that report a connection; a disconnection. *)
Definition is_connected_line (line : LogLine) : bool :=
  match line with
  | PlayerConnected _ => true
  | _ => false
  end.

Definition is_disconnected_line (line : LogLine) : bool :=
  match line with
  | PlayerDisconnected _ => true
  | _ => false
  end.

(** The sockets that are open, whether registered or not, and whose record
    does not carry the excluded id. *)
Definition open_and_differs (st : Server) (excludeId : option string)
    (client : Handle) : bool :=
  match socket st client with
  | Some sock =>
      is_open (readyState sock) && id_differs (playerData sock) excludeId
  | None => false
  end.

(** The draws of the connections among the events, in order. *)
Fixpoint draws (events : list Event) : list (nat -> Q) :=
  match events with
  | [] => []
  | Connection random :: rest => random :: draws rest
  | _ :: rest => draws rest
  end.

(** The events that end in a line of the console and nothing else: the
    ['error'] of a socket and a message that [JSON.parse] rejects. *)
Definition is_noise (e : Event) : bool :=
  match e with
  | Error _ _ => true
  | Message _ Unparsable => true
  | _ => false
  end.

Definition with_console (l : list LogLine) (st : Server) : Server :=
  {| sockets := sockets st; clients := clients st; players := players st;
     worldChanges := worldChanges st;
     sent := sent st; console := l |}.

(** Two states that differ in the console at most. *)
Definition same_session (st st' : Server) : Prop :=
  sockets st = sockets st' /\ clients st = clients st' /\
  players st = players st' /\ worldChanges st = worldChanges st' /\
  sent st = sent st'.

(** The keys of [m] are all keys of integer faces and layers that a double
    holds exactly, written as numbers. *)
Definition integer_keys (m : list (string * JSValue)) : Prop :=
  forall key, In key (map fst m) ->
    exists z1 z2,
      (Z.abs z1 <= 2 ^ 53)%Z /\ (Z.abs z2 <= 2 ^ 53)%Z /\
      key_of (num z1) (num z2) = Ok key.

(** The pair of an entry of the replay. *)
Definition pair_of (c : Change) : option Numeric * option Numeric :=
  (face c, layer c).


(** * Properties *)

(** ** The broadcast loop *)

Lemma with_sent_same st : with_sent (sent st) st = st.
Proof. destruct st; reflexivity. Qed.

Lemma reached_with_sent st l excludeId client :
  reached (with_sent l st) excludeId client = reached st excludeId client.
Proof. reflexivity. Qed.

Lemma broadcast_loop message excludeId (l : list Handle) : forall st,
  forEach l (fun client s =>
    if client_open s client then
      match players_get s client with
      | Some playerData =>
          if id_differs playerData excludeId then send client message s else s
      | None => s
      end
    else s) st
  = with_sent (sent st ++ to_all (filter (reached st excludeId) l) message) st.
Proof.
  induction l as [|c l IH]; intros st; simpl.
  - rewrite app_nil_r. symmetry. apply with_sent_same.
  - unfold forEach in *. simpl. unfold reached at 1.
    destruct (client_open st c); simpl.
    + destruct (players_get st c) as [d|].
      * destruct (id_differs d excludeId).
        -- rewrite IH. unfold send. simpl. rewrite <- app_assoc. reflexivity.
        -- apply IH.
      * apply IH.
    + apply IH.
Qed.

Lemma broadcast_sent message excludeId st :
  broadcast message excludeId st
  = with_sent (sent st ++ to_all (filter (reached st excludeId) (clients st)) message) st.
Proof. apply broadcast_loop. Qed.

Lemma broadcastAll_sent message st :
  broadcastAll message st
  = with_sent (sent st ++ to_all (filter (client_open st) (clients st)) message) st.
Proof.
  unfold broadcastAll. generalize (clients st) as l. intros l. revert st.
  induction l as [|c l IH]; intros st; simpl.
  - rewrite app_nil_r. symmetry. apply with_sent_same.
  - unfold forEach in *. simpl. destruct (client_open st c) eqn:E.
    + rewrite IH. unfold send. simpl. rewrite <- app_assoc.
      replace (filter (client_open (with_sent (sent st ++ [(c, message)]) st)) l)
        with (filter (client_open st) l) by reflexivity.
      reflexivity.
    + apply IH.
Qed.

(** ** The connection handler, field by field *)

Lemma join_loop ws (l : list Handle) : forall st,
  forEach l (fun client s =>
    if negb (Nat.eqb client ws) then
      match players_get s client with
      | Some data => send ws (joinOf data) s
      | None => s
      end
    else s) st
  = with_sent (sent st ++ map (fun data => (ws, joinOf data)) (others st ws l)) st.
Proof.
  induction l as [|c l IH]; intros st; simpl.
  - rewrite app_nil_r. symmetry. apply with_sent_same.
  - unfold forEach in *. simpl.
    destruct (negb (Nat.eqb c ws)); simpl.
    + destruct (players_get st c) as [d|]; simpl.
      * rewrite IH. unfold send. simpl. rewrite <- app_assoc. reflexivity.
      * apply IH.
    + apply IH.
Qed.

Lemma on_connection_eq random st :
  let ws := List.length (sockets st) in
  let st1 := registered random st in
  on_connection random st
  = with_sent
      (sent st
       ++ (ws, init (generateUUID random) (generateColor random uuid_draws))
          :: map (fun data => (ws, joinOf data)) (others st1 ws (players st1))
       ++ map (fun m => (ws, m)) (world_replay st)
       ++ to_all (filter (reached st1 (Some (generateUUID random))) (clients st1))
            (announcement random))
      st1.
Proof.
  intros ws st1. unfold on_connection.
  fold ws. change (position _) with (VArr [num 0; num 102; num 0]).
  change (forward _) with (VArr [num 0; num 0; num (-1)]).
  change (pitch _) with (num 0).
  fold (announcement random).
  rewrite broadcast_sent.
  match goal with |- context [forEach ?l ?f ?s] =>
    change (forEach l f s) with
      (forEach (players st1) f
         (send ws (init (generateUUID random) (generateColor random uuid_draws)) st1))
  end.
  rewrite join_loop.
  unfold world_replay.
  change (worldChanges (with_sent _ _)) with (worldChanges st).
  destruct (worldChanges st) as [|e m]; simpl.
  - rewrite <- ?app_assoc. reflexivity.
  - rewrite <- ?app_assoc. reflexivity.
Qed.

(** ** Sets, maps and arrays *)

Lemma has_In ws l : has ws l = true <-> In ws l.
Proof.
  unfold has. rewrite existsb_exists. split.
  - intros [x [Hx E]]. apply Nat.eqb_eq in E. now subst.
  - intros H. exists ws. split; [assumption | apply Nat.eqb_refl].
Qed.

Lemma has_not_In ws l : has ws l = false <-> ~ In ws l.
Proof.
  rewrite <- has_In. destruct (has ws l); split; congruence.
Qed.

Lemma add_In h ws l : In h (add ws l) <-> h = ws \/ In h l.
Proof.
  unfold add. destruct (has ws l) eqn:E.
  - apply has_In in E. split; [auto | intros [->|]; assumption].
  - rewrite in_app_iff. simpl. intuition auto.
Qed.

Lemma add_fresh ws l : ~ In ws l -> add ws l = l ++ [ws].
Proof.
  intros H. unfold add. apply has_not_In in H. now rewrite H.
Qed.

Lemma add_NoDup ws l : NoDup l -> NoDup (add ws l).
Proof.
  intros H. unfold add. destruct (has ws l) eqn:E; [assumption|].
  apply has_not_In in E. apply NoDup_app; [assumption | repeat constructor; auto |].
  intros x Hx [<-|[]]. contradiction.
Qed.

Lemma delete_In h ws l : In h (delete ws l) <-> In h l /\ h <> ws.
Proof.
  unfold delete. rewrite filter_In, negb_true_iff, Nat.eqb_neq.
  intuition auto.
Qed.

Lemma delete_NoDup ws l : NoDup l -> NoDup (delete ws l).
Proof. apply NoDup_filter. Qed.

Lemma delete_absent ws l : ~ In ws l -> delete ws l = l.
Proof.
  intros H. unfold delete. induction l as [|x l IH]; simpl; [reflexivity|].
  destruct (Nat.eqb_spec ws x) as [->|Hne]; simpl.
  - exfalso. apply H. now left.
  - f_equal. apply IH. intros Hin. apply H. now right.
Qed.

Lemma delete_length ws l :
  NoDup l -> In ws l -> S (List.length (delete ws l)) = List.length l.
Proof.
  induction 1 as [|x l Hx Hnd IH]; intros Hin; [destruct Hin|].
  unfold delete in *. simpl. destruct (Nat.eqb_spec ws x) as [->|Hne]; simpl.
  - f_equal. fold (delete x l). now rewrite delete_absent.
  - f_equal. apply IH. destruct Hin as [->|]; [congruence | assumption].
Qed.

Lemma replace_nth_length {A} n (x : A) l :
  List.length (replace_nth n x l) = List.length l.
Proof.
  revert n. induction l as [|y l IH]; intros [|n]; simpl; auto.
Qed.

Lemma nth_error_replace_nth_eq {A} n (x : A) l :
  n < List.length l -> nth_error (replace_nth n x l) n = Some x.
Proof.
  revert n. induction l as [|y l IH]; intros [|n] H; simpl in *; try lia; auto.
  apply IH. lia.
Qed.

Lemma nth_error_replace_nth_ne {A} n m (x : A) l :
  n <> m -> nth_error (replace_nth n x l) m = nth_error l m.
Proof.
  revert n m. induction l as [|y l IH]; intros [|n] [|m] H; simpl; auto.
  congruence.
Qed.

Lemma Map_set_keys key value m :
  map fst (Map_set key value m)
  = if in_dec string_dec key (map fst m) then map fst m else map fst m ++ [key].
Proof.
  induction m as [|[k v] m IH]; simpl; [reflexivity|].
  destruct (String.eqb_spec k key) as [->|Hne]; simpl.
  - destruct (string_dec key key); [reflexivity | congruence].
  - rewrite IH. destruct (string_dec k key); [congruence|].
    destruct (in_dec string_dec key (map fst m)); reflexivity.
Qed.

Lemma Map_set_NoDup key value m :
  NoDup (map fst m) -> NoDup (map fst (Map_set key value m)).
Proof.
  intros H. rewrite Map_set_keys.
  destruct (in_dec string_dec key (map fst m)) as [|Hn]; [assumption|].
  apply NoDup_app; [assumption | repeat constructor; auto |].
  intros x Hx [<-|[]]. contradiction.
Qed.

Lemma Map_set_keeps key value m k :
  In k (map fst m) -> In k (map fst (Map_set key value m)).
Proof.
  intros H. rewrite Map_set_keys.
  destruct (in_dec string_dec key (map fst m)); [assumption|].
  apply in_app_iff. now left.
Qed.

Lemma Map_set_has key value m : In key (map fst (Map_set key value m)).
Proof.
  rewrite Map_set_keys.
  destruct (in_dec string_dec key (map fst m)); [assumption|].
  apply in_app_iff. right. now left.
Qed.

Lemma Map_get_set key value m : Map_get key (Map_set key value m) = Some value.
Proof.
  induction m as [|[k v] m IH]; simpl.
  - now rewrite String.eqb_refl.
  - destruct (String.eqb k key) eqn:E; simpl; rewrite E; auto.
Qed.

Lemma Map_get_set_other key value m k :
  k <> key -> Map_get k (Map_set key value m) = Map_get k m.
Proof.
  intros Hne. induction m as [|[k' v] m IH]; simpl.
  - destruct (String.eqb_spec key k); congruence.
  - destruct (String.eqb_spec k' key) as [->|Hk]; simpl.
    + destruct (String.eqb_spec key k); congruence.
    + destruct (String.eqb_spec k' k); auto.
Qed.

(** ** The message handler, by cases *)

Lemma on_message_outcome ws message st :
  message_outcome ws st (on_message ws message st).
Proof.
  unfold on_message. destruct (socket st ws) as [sock|] eqn:Hs; [|constructor].
  destruct message as [|data]; simpl; [constructor|].
  destruct (Get data "type") as [type|e] eqn:Ht; simpl; [|constructor].
  destruct (strict_eq_string type "blockChange").
  - destruct (Get data "face") as [face|]; simpl; [|constructor].
    destruct (Get data "layer") as [layer|]; simpl; [|constructor].
    destruct (key_of face layer) as [key|]; simpl; [|constructor].
    destruct (Get data "block") as [block|]; simpl; [|constructor].
    now apply block_changed.
  - destruct (strict_eq_string type "position"); [|constructor].
    destruct (Get data "position") as [position|]; simpl; [|constructor].
    destruct (Get data "forward") as [forward|]; simpl; [|constructor].
    destruct (Get data "pitch") as [pitch|]; simpl; [|constructor].
    now apply player_moved.
Qed.

Lemma socket_set_playerData ws d st h :
  socket (set_playerData ws d st) h
  = if Nat.eqb h ws
    then option_map (fun sock =>
           {| readyState := readyState sock; playerId := playerId sock;
              playerData := d |}) (socket st ws)
    else socket st h.
Proof.
  unfold set_playerData. destruct (socket st ws) as [sock|] eqn:Hs.
  - unfold socket in *. simpl. destruct (Nat.eqb_spec h ws) as [->|Hne].
    + apply nth_error_replace_nth_eq. apply nth_error_Some. congruence.
    + apply nth_error_replace_nth_ne. congruence.
  - destruct (Nat.eqb_spec h ws) as [->|Hne]; [simpl; assumption | reflexivity].
Qed.

Lemma socket_set_readyState ws s st h :
  socket (set_readyState ws s st) h
  = if Nat.eqb h ws
    then option_map (fun sock =>
           {| readyState := s; playerId := playerId sock;
              playerData := playerData sock |}) (socket st ws)
    else socket st h.
Proof.
  unfold set_readyState. destruct (socket st ws) as [sock|] eqn:Hs.
  - unfold socket in *. simpl. destruct (Nat.eqb_spec h ws) as [->|Hne].
    + apply nth_error_replace_nth_eq. apply nth_error_Some. congruence.
    + apply nth_error_replace_nth_ne. congruence.
  - destruct (Nat.eqb_spec h ws) as [->|Hne]; [simpl; assumption | reflexivity].
Qed.

Lemma sockets_length_set_playerData ws d st :
  List.length (sockets (set_playerData ws d st)) = List.length (sockets st).
Proof.
  unfold set_playerData. destruct (socket st ws); [|reflexivity].
  simpl. apply replace_nth_length.
Qed.

Lemma sockets_length_set_readyState ws s st :
  List.length (sockets (set_readyState ws s st)) = List.length (sockets st).
Proof.
  unfold set_readyState. destruct (socket st ws); [|reflexivity].
  simpl. apply replace_nth_length.
Qed.

Lemma set_playerData_rest ws d st :
  clients (set_playerData ws d st) = clients st /\
  players (set_playerData ws d st) = players st /\
  worldChanges (set_playerData ws d st) = worldChanges st /\
  sent (set_playerData ws d st) = sent st /\
  console (set_playerData ws d st) = console st.
Proof. unfold set_playerData. destruct (socket st ws); repeat split. Qed.

Lemma set_readyState_rest ws s st :
  clients (set_readyState ws s st) = clients st /\
  players (set_readyState ws s st) = players st /\
  worldChanges (set_readyState ws s st) = worldChanges st /\
  sent (set_readyState ws s st) = sent st /\
  console (set_readyState ws s st) = console st.
Proof. unfold set_readyState. destruct (socket st ws); repeat split. Qed.

Lemma socket_registered random st h :
  socket (registered random st) h
  = if Nat.eqb h (List.length (sockets st)) then Some (new_socket random)
    else socket st h.
Proof.
  unfold socket, registered. simpl.
  destruct (Nat.eqb_spec h (List.length (sockets st))) as [->|Hne].
  - rewrite nth_error_app2 by lia. now rewrite Nat.sub_diag.
  - destruct (Nat.lt_ge_cases h (List.length (sockets st))) as [Hlt|Hge].
    + now rewrite nth_error_app1.
    + rewrite (proj2 (nth_error_None _ _)) by (rewrite length_app; simpl; lia).
      symmetry. now apply nth_error_None.
Qed.

Lemma or_else_idem p :
  or_else (or_else p (num 0)) (num 0) = or_else p (num 0).
Proof.
  unfold or_else. destruct (ToBoolean p) eqn:E.
  - now rewrite E.
  - reflexivity.
Qed.

(** ** The invariant of the reachable states *)

Lemma socket_bound st h sock :
  socket st h = Some sock -> h < List.length (sockets st).
Proof. intros H. apply nth_error_Some. unfold socket in H. congruence. Qed.

Lemma Inv_player_bound st h :
  Inv st -> In h (players st) -> h < List.length (sockets st).
Proof.
  intros I Hin. apply (inv_live st I) in Hin. destruct Hin as [sock [Hs _]].
  eapply socket_bound; eassumption.
Qed.

Lemma Inv_new_handle st : Inv st -> ~ In (List.length (sockets st)) (players st).
Proof.
  intros I Hin. apply (Inv_player_bound st _ I) in Hin. lia.
Qed.

Lemma Inv_initial : Inv initial.
Proof.
  constructor; simpl; try constructor; try tauto.
  - intros [sock [H _]]. destruct h; discriminate.
  - intros h sock H. destruct h; discriminate.
  - intros h sock H. destruct h; discriminate.
Qed.

Lemma Inv_log line st : Inv st -> Inv (log line st).
Proof. intros [? ? ? ? ? ? ?]. constructor; assumption. Qed.

Lemma Inv_with_sent l st :
  Inv st ->
  (forall h m, In (h, m) l -> In h (clients st)) ->
  Inv (with_sent (sent st ++ l) st).
Proof.
  intros I Hl. destruct I as [Hc Hn Hlive Hid Hp Hs Hk].
  constructor; try assumption.
  intros h m Hin. simpl in Hin. apply in_app_iff in Hin.
  destruct Hin as [Hin|Hin].
  - eapply Hs; eassumption.
  - apply Hl in Hin. rewrite Hc in Hin. apply Hlive in Hin.
    destruct Hin as [sock [Hsock _]]. eapply socket_bound; eassumption.
Qed.

Lemma to_all_In h m l message : In (h, m) (to_all l message) -> In h l.
Proof.
  unfold to_all. rewrite in_map_iff. intros [c [E Hc]]. now inversion E; subst.
Qed.

Lemma Inv_broadcast message excludeId st :
  Inv st -> Inv (broadcast message excludeId st).
Proof.
  intros I. rewrite broadcast_sent. apply Inv_with_sent; [assumption|].
  intros h m Hin. apply to_all_In in Hin. apply filter_In in Hin. tauto.
Qed.

Lemma Inv_with_worldChanges key value st :
  Inv st -> Inv (with_worldChanges (Map_set key value (worldChanges st)) st).
Proof.
  intros [? ? ? ? ? ? ?]. constructor; try assumption.
  simpl. now apply Map_set_NoDup.
Qed.

Lemma Inv_moved ws sock position forward pitch st :
  Inv st -> socket st ws = Some sock ->
  Inv (set_playerData ws (moved sock position forward pitch) st).
Proof.
  intros I Hsock. destruct I as [Hc Hn Hlive Hid Hp Hs Hk].
  destruct (set_playerData_rest ws (moved sock position forward pitch) st)
    as [Ec [Ep [Ew [Es _]]]].
  constructor.
  - congruence.
  - now rewrite Ep.
  - intros h. rewrite Ep, Hlive, socket_set_playerData.
    destruct (Nat.eqb_spec h ws) as [->|Hne]; [|reflexivity].
    rewrite Hsock. simpl. split; intros [s [E Hr]]; inversion E; subst;
      eexists; (split; [reflexivity | assumption]).
  - intros h s. rewrite socket_set_playerData.
    destruct (Nat.eqb_spec h ws) as [->|Hne]; [|apply Hid].
    rewrite Hsock. simpl. intros E. inversion E; subst. simpl.
    eapply Hid; eassumption.
  - intros h s. rewrite socket_set_playerData.
    destruct (Nat.eqb_spec h ws) as [->|Hne]; [|apply Hp].
    rewrite Hsock. simpl. intros E. inversion E; subst. simpl.
    apply or_else_idem.
  - intros h m. rewrite Es, sockets_length_set_playerData. apply Hs.
  - now rewrite Ew.
Qed.

Lemma Inv_on_message ws message st : Inv st -> Inv (on_message ws message st).
Proof.
  intros I. destruct (on_message_outcome ws message st).
  - assumption.
  - now apply Inv_log.
  - apply Inv_broadcast. now apply Inv_with_worldChanges.
  - apply Inv_broadcast. now apply Inv_moved.
Qed.

Lemma Inv_on_error ws error st : Inv st -> Inv (on_error ws error st).
Proof.
  intros I. unfold on_error. destruct (socket st ws); [now apply Inv_log | assumption].
Qed.

Lemma Inv_closing ws st :
  Inv st -> client_open st ws = true -> Inv (set_readyState ws CLOSING st).
Proof.
  intros I Hopen. destruct I as [Hc Hn Hlive Hid Hp Hs Hk].
  destruct (set_readyState_rest ws CLOSING st) as [Ec [Ep [Ew [Es _]]]].
  unfold client_open in Hopen.
  destruct (socket st ws) as [sock|] eqn:Hsock; [|discriminate].
  constructor.
  - congruence.
  - now rewrite Ep.
  - intros h. rewrite Ep, socket_set_readyState.
    destruct (Nat.eqb_spec h ws) as [->|Hne]; [|apply Hlive].
    rewrite Hsock. simpl. rewrite Hlive, Hsock. split.
    + intros _. eexists. split; [reflexivity | simpl; discriminate].
    + intros _. exists sock. split; [reflexivity|].
      destruct (readyState sock); discriminate.
  - intros h s. rewrite socket_set_readyState.
    destruct (Nat.eqb_spec h ws) as [->|Hne]; [|apply Hid].
    rewrite Hsock. simpl. intros E. inversion E; subst. simpl.
    eapply Hid; eassumption.
  - intros h s. rewrite socket_set_readyState.
    destruct (Nat.eqb_spec h ws) as [->|Hne]; [|apply Hp].
    rewrite Hsock. simpl. intros E. inversion E; subst. simpl.
    eapply Hp; eassumption.
  - intros h m. rewrite Es, sockets_length_set_readyState. apply Hs.
  - now rewrite Ew.
Qed.

Lemma on_close_eq ws st sock :
  socket st ws = Some sock ->
  let st1 :=
    with_players (delete ws (players st))
      (log (PlayerDisconnected (playerId sock)) (closed_by_transport ws st)) in
  on_close ws (closed_by_transport ws st)
  = with_sent
      (sent st ++ to_all (filter (reached st1 None) (clients st1))
                    (playerLeave (playerId sock)))
      st1.
Proof.
  intros Hsock st1. unfold on_close.
  replace (socket (closed_by_transport ws st) ws)
    with (Some {| readyState := CLOSED; playerId := playerId sock;
                  playerData := playerData sock |}).
  2:{ unfold closed_by_transport.
      change (socket (with_clients _ ?s) ws) with (socket s ws).
      rewrite socket_set_readyState, Nat.eqb_refl, Hsock. reflexivity. }
  simpl playerId. rewrite broadcast_sent. subst st1.
  destruct (set_readyState_rest ws CLOSED st) as [Ec [Ep [_ [Es _]]]].
  simpl. rewrite ?Es, ?Ep, ?Ec. reflexivity.
Qed.

Lemma Inv_close ws st sock :
  Inv st -> socket st ws = Some sock ->
  Inv (on_close ws (closed_by_transport ws st)).
Proof.
  intros I Hsock. rewrite (on_close_eq ws st sock Hsock).
  destruct I as [Hc Hn Hlive Hid Hp Hs Hk].
  destruct (set_readyState_rest ws CLOSED st) as [Ec [Ep [Ew [Es Eo]]]].
  constructor; simpl.
  - rewrite ?Ec, ?Ep. congruence.
  - rewrite ?Ep. now apply delete_NoDup.
  - intros h.
    change (socket _ h) with (socket (set_readyState ws CLOSED st) h).
    rewrite delete_In, Hlive, socket_set_readyState.
    destruct (Nat.eqb_spec h ws) as [->|Hne].
    + rewrite Hsock. simpl. split.
      * intros [_ Hne]. congruence.
      * intros [s [E Hr]]. inversion E; subst. simpl in Hr. congruence.
    + tauto.
  - intros h s.
    change (socket _ h) with (socket (set_readyState ws CLOSED st) h).
    rewrite socket_set_readyState.
    destruct (Nat.eqb_spec h ws) as [->|Hne]; [|apply Hid].
    rewrite Hsock. simpl. intros E. inversion E; subst. simpl.
    eapply Hid; eassumption.
  - intros h s.
    change (socket _ h) with (socket (set_readyState ws CLOSED st) h).
    rewrite socket_set_readyState.
    destruct (Nat.eqb_spec h ws) as [->|Hne]; [|apply Hp].
    rewrite Hsock. simpl. intros E. inversion E; subst. simpl.
    eapply Hp; eassumption.
  - intros h m Hin. rewrite sockets_length_set_readyState.
    apply in_app_iff in Hin. destruct Hin as [Hin|Hin].
    + eapply Hs; eassumption.
    + apply to_all_In in Hin. apply filter_In in Hin. destruct Hin as [Hin _].
      rewrite ?Ec in Hin. apply delete_In in Hin. destruct Hin as [Hin _].
      rewrite Hc in Hin. apply Hlive in Hin. destruct Hin as [s [Hsk _]].
      eapply socket_bound; eassumption.
  - now rewrite ?Ew.
Qed.

Lemma Inv_on_connection random st : Inv st -> Inv (on_connection random st).
Proof.
  intros I. pose proof (Inv_new_handle st I) as Hnew.
  rewrite on_connection_eq.
  destruct I as [Hc Hn Hlive Hid Hp Hs Hk].
  constructor; simpl.
  - now rewrite Hc.
  - now apply add_NoDup.
  - intros h.
    change (socket _ h) with (socket (registered random st) h).
    rewrite add_In, Hlive, socket_registered.
    destruct (Nat.eqb_spec h (List.length (sockets st))) as [->|Hne].
    + split.
      * intros _. eexists. split; [reflexivity | simpl; discriminate].
      * intros _. now left.
    + tauto.
  - intros h s.
    change (socket _ h) with (socket (registered random st) h).
    rewrite socket_registered.
    destruct (Nat.eqb_spec h (List.length (sockets st))) as [->|Hne]; [|apply Hid].
    intros E. inversion E; subst. simpl. reflexivity.
  - intros h s.
    change (socket _ h) with (socket (registered random st) h).
    rewrite socket_registered.
    destruct (Nat.eqb_spec h (List.length (sockets st))) as [->|Hne]; [|apply Hp].
    intros E. inversion E; subst. simpl. reflexivity.
  - intros h m Hin. rewrite length_app. simpl.
    apply in_app_iff in Hin. destruct Hin as [Hin|Hin].
    { apply Hs in Hin. lia. }
    destruct Hin as [E|Hin]; [inversion E; lia|].
    apply in_app_iff in Hin. destruct Hin as [Hin|Hin].
    { apply in_map_iff in Hin. destruct Hin as [d [E _]]. inversion E. lia. }
    apply in_app_iff in Hin. destruct Hin as [Hin|Hin].
    { apply in_map_iff in Hin. destruct Hin as [d [E _]]. inversion E. lia. }
    apply to_all_In in Hin. apply filter_In in Hin. destruct Hin as [Hin _].
    apply add_In in Hin. destruct Hin as [->|Hin]; [lia|].
    rewrite Hc in Hin. apply Hlive in Hin. destruct Hin as [s [Hsk _]].
    apply socket_bound in Hsk. lia.
  - assumption.
Qed.

Lemma Inv_step st e : Inv st -> Inv (step st e).
Proof.
  intros I. destruct e as [random|ws message|ws|ws|ws error]; simpl.
  - now apply Inv_on_connection.
  - now apply Inv_on_message.
  - destruct (client_open st ws) eqn:E; [now apply Inv_closing | assumption].
  - destruct (socket st ws) as [sock|] eqn:Hsock; [|assumption].
    destruct (readyState sock); try assumption;
      apply (Inv_close ws st sock); assumption.
  - now apply Inv_on_error.
Qed.

Lemma Inv_run events : forall st, Inv st -> Inv (run events st).
Proof.
  induction events as [|e events IH]; intros st I; simpl; [assumption|].
  apply IH. now apply Inv_step.
Qed.

Lemma Inv_reachable events : Inv (run events initial).
Proof. apply Inv_run, Inv_initial. Qed.

(** ** Registration *)

(** [generateUUID] reads the first [uuid_draws] draws and no other, so the
    id and the colour of a connection come from separate draws. *)
Lemma replace_xy_draws s random random' : forall calls,
  (forall i, calls <= i < calls + matches_xy s -> random i = random' i) ->
  replace_xy s random calls = replace_xy s random' calls.
Proof.
  induction s as [|c s IH]; intros calls H; simpl; [reflexivity|].
  simpl in H. destruct (Ascii.eqb c "x" || Ascii.eqb c "y")%bool.
  - rewrite (H calls) by lia. f_equal. apply IH. intros i Hi. apply H. lia.
  - f_equal. apply IH. intros i Hi. apply H. lia.
Qed.

Lemma generateUUID_draws random random' :
  (forall i, i < uuid_draws -> random i = random' i) ->
  generateUUID random = generateUUID random'.
Proof.
  intros H. unfold generateUUID. apply replace_xy_draws.
  intros i Hi. apply H. change (matches_xy template) with uuid_draws in Hi. lia.
Qed.

Lemma has_add_other h ws l : h <> ws -> has h (add ws l) = has h l.
Proof.
  intros Hne. destruct (has h l) eqn:E.
  - apply has_In. apply add_In. right. now apply has_In.
  - apply has_not_In. rewrite add_In. apply has_not_In in E. tauto.
Qed.

Lemma on_connection_fields random st :
  sockets (on_connection random st) = sockets st ++ [new_socket random] /\
  clients (on_connection random st) = add (List.length (sockets st)) (clients st) /\
  players (on_connection random st) = add (List.length (sockets st)) (players st) /\
  worldChanges (on_connection random st) = worldChanges st.
Proof. rewrite on_connection_eq. repeat split. Qed.

Lemma socket_on_connection random st h :
  socket (on_connection random st) h
  = if Nat.eqb h (List.length (sockets st)) then Some (new_socket random)
    else socket st h.
Proof.
  rewrite on_connection_eq. change (socket (with_sent _ ?s) h) with (socket s h).
  apply socket_registered.
Qed.

Lemma players_get_on_connection random st :
  players_get (on_connection random st) (List.length (sockets st))
  = Some (new_record random).
Proof.
  unfold players_get. rewrite socket_on_connection, Nat.eqb_refl.
  destruct (on_connection_fields random st) as [_ [_ [Hp _]]]. rewrite Hp.
  replace (has (List.length (sockets st)) (add (List.length (sockets st)) (players st)))
    with true; [reflexivity|].
  symmetry. apply has_In. apply add_In. now left.
Qed.

(** ** Position updates *)

Lemma reached_moved ws sock position forward pitch st excludeId client :
  socket st ws = Some sock ->
  reached (set_playerData ws (moved sock position forward pitch) st) excludeId client
  = reached st excludeId client.
Proof.
  intros Hsock. unfold reached, client_open, players_get.
  destruct (set_playerData_rest ws (moved sock position forward pitch) st)
    as [_ [Ep _]].
  rewrite Ep, socket_set_playerData.
  destruct (Nat.eqb_spec client ws) as [->|Hne]; [|reflexivity].
  rewrite Hsock. simpl. destruct (has ws (players st)); reflexivity.
Qed.

Lemma Get_property props name : Get (VObj props) name = Ok (property props name).
Proof. reflexivity. Qed.

Lemma on_message_position_object ws st sock props :
  socket st ws = Some sock ->
  own "type" props = Some (VStr "position") ->
  on_message ws (Parsed (VObj props)) st
  = with_sent
      (sent st ++
       to_all (filter (reached st (Some (playerId sock))) (clients st))
         (playerMove (playerId sock) (property props "position")
            (property props "forward")
            (or_else (property props "pitch") (num 0))))
      (set_playerData ws
         (moved sock (property props "position") (property props "forward")
            (property props "pitch")) st).
Proof.
  intros Hsock Htype.
  unfold on_message. rewrite Hsock. simpl JSON_parse. unfold bind at 1.
  rewrite !Get_property. unfold bind.
  replace (property props "type") with (VStr "position")
    by (unfold property; now rewrite Htype).
  change (strict_eq_string (VStr "position") "blockChange") with false.
  change (strict_eq_string (VStr "position") "position") with true.
  cbv iota. rewrite broadcast_sent.
  match goal with
  | |- context [set_playerData ws ?d st] =>
      change d with (moved sock (property props "position")
                       (property props "forward") (property props "pitch"))
  end.
  destruct (set_playerData_rest ws
              (moved sock (property props "position") (property props "forward")
                 (property props "pitch")) st) as [Ec [_ [_ [Es _]]]].
  rewrite Ec, Es. f_equal. f_equal. f_equal.
  apply filter_ext. intros c. now apply reached_moved.
Qed.

Lemma on_message_position ws st sock data :
  socket st ws = Some sock ->
  Get data "type" = Ok (VStr "position") ->
  exists position forward pitch,
    Get data "position" = Ok position /\
    Get data "forward" = Ok forward /\
    Get data "pitch" = Ok pitch /\
    on_message ws (Parsed data) st
    = with_sent
        (sent st ++
         to_all (filter (reached st (Some (playerId sock))) (clients st))
           (playerMove (playerId sock) position forward (or_else pitch (num 0))))
        (set_playerData ws (moved sock position forward pitch) st).
Proof.
  intros Hsock Htype.
  destruct data as [| |?|?|?|?|props]; simpl in Htype; try discriminate.
  exists (property props "position"), (property props "forward"),
         (property props "pitch").
  rewrite !Get_property. repeat split.
  apply on_message_position_object; [assumption|].
  unfold property in Htype. destruct (own "type" props); congruence.
Qed.

(** C7: a position message without a [pitch] property stores pitch 0 in the
    sender's record and broadcasts a [playerMove] with pitch 0; position and
    forward, stored and broadcast, are the message's own. *)
Theorem C7_absent_pitch_is_zero (ws : Handle) (st : Server) (sock : Socket)
    (props : list (string * JSValue)) :
  socket st ws = Some sock ->
  own "type" props = Some (VStr "position") ->
  own "pitch" props = None ->
  let st' := on_message ws (Parsed (VObj props)) st in
  let stored :=
    {| id := id (playerData sock); color := color (playerData sock);
       position := property props "position";
       forward := property props "forward";
       pitch := num 0 |} in
  option_map playerData (socket st' ws) = Some stored /\
  (In ws (players st) -> players_get st' ws = Some stored) /\
  exists recipients,
    sent st' = sent st ++
      to_all recipients
        (playerMove (playerId sock) (property props "position")
           (property props "forward") (num 0)).
Proof.
  intros Hsock Htype Hpitch st' stored.
  assert (Hp : property props "pitch" = VUndefined).
  { unfold property. now rewrite Hpitch. }
  assert (E : st' =
    with_sent
      (sent st ++
       to_all (filter (reached st (Some (playerId sock))) (clients st))
         (playerMove (playerId sock) (property props "position")
            (property props "forward") (num 0)))
      (set_playerData ws stored st)).
  { unfold st'. rewrite (on_message_position_object ws st sock props Hsock Htype).
    unfold moved. rewrite Hp. reflexivity. }
  assert (Hstored : option_map playerData (socket st' ws) = Some stored).
  { rewrite E. change (socket (with_sent _ ?s) ws) with (socket s ws).
    rewrite socket_set_playerData, Nat.eqb_refl, Hsock. reflexivity. }
  split; [assumption|]. split.
  - intros Hin. unfold players_get. rewrite Hstored.
    replace (players st') with (players st).
    + apply has_In in Hin. now rewrite Hin.
    + rewrite E. simpl. symmetry. apply set_playerData_rest.
  - eexists. rewrite E. reflexivity.
Qed.

Lemma C7_absent_pitch_is_zero_witness :
  let st := run [Connection (fun _ => 0.25%Q); Connection (fun _ => 0.75%Q)] initial in
  let props := [("type", VStr "position");
                ("position", VArr [num 1; num 2; num 3]);
                ("forward", VArr [num 0; num 0; num 1])] in
  let sock := new_socket (fun _ => 0.25%Q) in
  received 1 (on_message 0 (Parsed (VObj props)) st)
  = received 1 st ++
    [playerMove (generateUUID (fun _ => 0.25%Q)) (VArr [num 1; num 2; num 3])
       (VArr [num 0; num 0; num 1]) (num 0)]
  /\ exists recipients,
    sent (on_message 0 (Parsed (VObj props)) st) = sent st ++
      to_all recipients
        (playerMove (playerId sock) (property props "position")
           (property props "forward") (num 0)).
Proof.
  intros st props sock. split; [vm_compute; reflexivity|].
  assert (H1 : socket st 0 = Some sock) by (vm_compute; reflexivity).
  assert (H2 : own "type" props = Some (VStr "position")) by reflexivity.
  assert (H3 : own "pitch" props = None) by reflexivity.
  exact (proj2 (proj2 (C7_absent_pitch_is_zero 0 st sock props H1 H2 H3))).
Defined.

Lemma filter_NoDup_handles (f : Handle -> bool) l : NoDup l -> NoDup (filter f l).
Proof. apply NoDup_filter. Qed.

Lemma Inv_players_get st h :
  Inv st -> In h (players st) ->
  exists sock, socket st h = Some sock /\ players_get st h = Some (playerData sock).
Proof.
  intros I Hin. pose proof Hin as Hlive. apply (inv_live st I) in Hlive.
  destruct Hlive as [sock [Hs _]]. exists sock. split; [assumption|].
  unfold players_get. rewrite Hs. apply has_In in Hin. now rewrite Hin.
Qed.

(** C3 (as the code has it): a position message from socket [ws] is sent on
    as one [playerMove] to each socket of [wss.clients] that is open and
    registered with an id other than the sender's, once each, and never to
    [ws] itself.  [broadcast] leaves out by id, not by socket: when no other
    registered socket carries the sender's id, the recipients are all the
    other open sockets, and a socket that carries the sender's id is sent
    nothing. *)
Theorem C3_position_reaches_the_others (events : list Event) (ws : Handle)
    (sock : Socket) (data : JSValue) :
  let st := run events initial in
  socket st ws = Some sock ->
  Get data "type" = Ok (VStr "position") ->
  let st' := on_message ws (Parsed data) st in
  exists position forward pitch recipients,
    Get data "position" = Ok position /\
    Get data "forward" = Ok forward /\
    (exists p, Get data "pitch" = Ok p /\ pitch = or_else p (num 0)) /\
    sent st' = sent st ++
      to_all recipients (playerMove (playerId sock) position forward pitch) /\
    NoDup recipients /\
    ~ In ws recipients /\
    (forall c, In c recipients <->
       In c (clients st) /\ client_open st c = true /\
       exists d, players_get st c = Some d /\ id d <> playerId sock) /\
    ((forall c d, c <> ws -> players_get st c = Some d -> id d <> playerId sock) ->
     forall c, c <> ws -> In c (clients st) -> client_open st c = true ->
       In c recipients) /\
    (forall c d, players_get st c = Some d -> id d = playerId sock ->
       ~ In c recipients).
Proof.
  intros st Hsock Htype st'.
  pose proof (Inv_reachable events) as I. fold st in I.
  destruct (on_message_position ws st sock data Hsock Htype)
    as [position [forward [pitch [Gp [Gf [Gpi E]]]]]].
  exists position, forward, (or_else pitch (num 0)),
         (filter (reached st (Some (playerId sock))) (clients st)).
  split; [assumption|]. split; [assumption|].
  split; [exists pitch; split; [assumption | reflexivity]|].
  assert (Hchar : forall c,
    In c (filter (reached st (Some (playerId sock))) (clients st)) <->
    In c (clients st) /\ client_open st c = true /\
    exists d, players_get st c = Some d /\ id d <> playerId sock).
  { intros c. rewrite filter_In. unfold reached. rewrite andb_true_iff.
    split.
    - intros [Hin [Ho Hd]]. split; [assumption|]. split; [assumption|].
      destruct (players_get st c) as [d|]; [|discriminate].
      exists d. split; [reflexivity|]. simpl in Hd.
      apply negb_true_iff in Hd. now apply String.eqb_neq.
    - intros [Hin [Ho [d [Hd Hne]]]]. split; [assumption|]. split; [assumption|].
      rewrite Hd. simpl. apply negb_true_iff. now apply String.eqb_neq. }
  split; [unfold st'; rewrite E; reflexivity|].
  split.
  { apply filter_NoDup_handles. rewrite (inv_clients st I). apply (inv_nodup st I). }
  split.
  { intros Hin. apply Hchar in Hin. destruct Hin as [_ [_ [d [Hd Hne]]]].
    unfold players_get in Hd. rewrite Hsock in Hd.
    destruct (has ws (players st)); [|discriminate].
    simpl in Hd. inversion Hd; subst. apply Hne.
    eapply (inv_id st I); eassumption. }
  split; [assumption|].
  split.
  { intros Hunique c Hne Hin Ho. apply Hchar.
    split; [assumption|]. split; [assumption|].
    rewrite (inv_clients st I) in Hin.
    destruct (Inv_players_get st c I Hin) as [s [_ Hget]].
    exists (playerData s). split; [assumption|]. eapply Hunique; eassumption. }
  intros c d Hd Eid Hin. apply Hchar in Hin.
  destruct Hin as [_ [_ [d' [Hd' Hne]]]].
  rewrite Hd in Hd'. inversion Hd'; subst d'. contradiction.
Qed.

Lemma C3_position_reaches_the_others_witness :
  let events := [Connection (fun _ => 0.25%Q); Connection (fun _ => 0.5%Q);
                 Connection (fun _ => 0.75%Q)] in
  let st := run events initial in
  let sock := new_socket (fun _ => 0.25%Q) in
  let data := VObj [("type", VStr "position");
                    ("position", VArr [num 1; num 2; num 3]);
                    ("forward", VArr [num 0; num 0; num 1]);
                    ("pitch", num 7)] in
  let st' := on_message 0 (Parsed data) st in
  let notice := playerMove (playerId sock) (VArr [num 1; num 2; num 3])
                  (VArr [num 0; num 0; num 1]) (num 7) in
  (received 0 st' = received 0 st /\
   received 1 st' = received 1 st ++ [notice] /\
   received 2 st' = received 2 st ++ [notice]) /\
  exists position forward pitch recipients,
    sent st' = sent st ++
      to_all recipients (playerMove (playerId sock) position forward pitch) /\
    ~ In 0 recipients.
Proof.
  intros events st sock data st' notice.
  split; [vm_compute; repeat split|].
  assert (H1 : socket st 0 = Some sock) by (vm_compute; reflexivity).
  assert (H2 : Get data "type" = Ok (VStr "position")) by reflexivity.
  destruct (C3_position_reaches_the_others events 0 sock data H1 H2)
    as [position [forward [pitch [recipients [_ [_ [_ [Hs [_ [Hn _]]]]]]]]]].
  exists position, forward, pitch, recipients. split; assumption.
Defined.

(** Against C3 as stated: two open, registered sockets whose draws gave the
    same digits have one id, and a position message of socket 0 is then sent
    to nobody: socket 1, open and registered, receives nothing. *)
Lemma C3_same_id_gets_no_move :
  let random := fun _ : nat => (3 # 4)%Q in
  let random' := fun i : nat => (if Nat.eqb i 15 then 1 # 4 else 49 # 64)%Q in
  let st := run [Connection random; Connection random'] initial in
  let message :=
    Parsed (VObj [("type", VStr "position");
                  ("position", VArr [num 1; num 2; num 3]);
                  ("forward", VArr [num 0; num 0; num 1]);
                  ("pitch", num 7)]) in
  ((forall i, unit_draw (random i)) /\ (forall i, unit_draw (random' i))) /\
  players st = [0; 1] /\
  client_open st 0 = true /\ client_open st 1 = true /\
  sent (on_message 0 message st) = sent st /\
  received 1 (on_message 0 message st) = received 1 st.
Proof.
  intros random random' st message. split.
  - split; intros i; unfold random'; try destruct (Nat.eqb i 15);
      repeat split; vm_compute; congruence.
  - vm_compute. repeat split.
Qed.

(** ** The handshake *)

Lemma received_app ws st l :
  map snd (filter (fun p : Handle * Msg => Nat.eqb (fst p) ws) (sent st ++ l))
  = received ws st ++ map snd (filter (fun p : Handle * Msg => Nat.eqb (fst p) ws) l).
Proof. unfold received. now rewrite filter_app, map_app. Qed.

Lemma filter_none {A} (f : A -> bool) l :
  (forall x, In x l -> f x = false) -> filter f l = [].
Proof.
  induction l as [|x l IH]; intros H; simpl; [reflexivity|].
  rewrite (H x (or_introl eq_refl)). apply IH. intros y Hy. apply H. now right.
Qed.

Lemma received_fresh st ws :
  Inv st -> List.length (sockets st) <= ws -> received ws st = [].
Proof.
  intros I Hle. unfold received. rewrite filter_none; [reflexivity|].
  intros [h m] Hin. simpl.
  apply (inv_sent st I) in Hin. apply Nat.eqb_neq. lia.
Qed.

Lemma filter_to_ws ws (l : list Msg) :
  map snd (filter (fun p : Handle * Msg => Nat.eqb (fst p) ws) (map (fun m => (ws, m)) l)) = l.
Proof.
  induction l as [|m l IH]; simpl; [reflexivity|].
  rewrite Nat.eqb_refl. simpl. now rewrite IH.
Qed.

Lemma filter_not_to_ws ws (l : list Handle) message :
  ~ In ws l ->
  filter (fun p : Handle * Msg => Nat.eqb (fst p) ws) (to_all l message) = [].
Proof.
  intros Hn. induction l as [|c l IH]; simpl; [reflexivity|].
  destruct (Nat.eqb_spec c ws) as [->|Hne].
  - exfalso. apply Hn. now left.
  - apply IH. intros Hin. apply Hn. now right.
Qed.

Lemma players_get_registered random st h :
  h <> List.length (sockets st) ->
  players_get (registered random st) h = players_get st h.
Proof.
  intros Hne. unfold players_get. rewrite socket_registered.
  change (players (registered random st))
    with (add (List.length (sockets st)) (players st)).
  rewrite has_add_other by assumption.
  destruct (Nat.eqb_spec h (List.length (sockets st))); [contradiction | reflexivity].
Qed.

Lemma flat_map_agree {A B} (f f' : A -> list B) l :
  (forall x, In x l -> f x = f' x) -> flat_map f l = flat_map f' l.
Proof.
  induction l as [|x l IH]; intros H; simpl; [reflexivity|].
  rewrite (H x (or_introl eq_refl)). f_equal. apply IH.
  intros y Hy. apply H. now right.
Qed.

Lemma others_registered random st :
  Inv st ->
  others (registered random st) (List.length (sockets st))
    (players (registered random st))
  = snapshot st.
Proof.
  intros I. pose proof (Inv_new_handle st I) as Hnew.
  change (players (registered random st))
    with (add (List.length (sockets st)) (players st)).
  rewrite add_fresh by assumption.
  unfold others, snapshot. rewrite flat_map_app. simpl.
  rewrite Nat.eqb_refl. simpl. rewrite app_nil_r.
  apply flat_map_agree. intros h Hin.
  assert (Hne : h <> List.length (sockets st)).
  { intros ->. contradiction. }
  rewrite players_get_registered by assumption.
  destruct (Nat.eqb_spec h (List.length (sockets st))); [contradiction | reflexivity].
Qed.

Lemma snapshot_length st : Inv st -> List.length (snapshot st) = List.length (players st).
Proof.
  intros I. unfold snapshot.
  assert (H : forall l, (forall h, In h l -> In h (players st)) ->
            List.length (flat_map (fun client =>
              match players_get st client with
              | Some data => [data]
              | None => []
              end) l) = List.length l).
  { induction l as [|h l IH]; intros Hl; simpl; [reflexivity|].
    destruct (Inv_players_get st h I (Hl h (or_introl eq_refl))) as [s [_ Hg]].
    rewrite Hg. simpl. f_equal. apply IH. intros x Hx. apply Hl. now right. }
  apply H. auto.
Qed.

Lemma snapshot_pitch st d :
  Inv st -> In d (snapshot st) -> or_else (pitch d) (num 0) = pitch d.
Proof.
  intros I Hin. unfold snapshot in Hin. apply in_flat_map in Hin.
  destruct Hin as [h [Hh Hd]].
  destruct (Inv_players_get st h I Hh) as [s [Hs Hg]].
  rewrite Hg in Hd. destruct Hd as [<-|[]]. eapply (inv_pitch st I); eassumption.
Qed.

Lemma new_socket_not_reached random st :
  reached (registered random st) (Some (generateUUID random))
    (List.length (sockets st)) = false.
Proof.
  unfold reached, client_open, players_get. rewrite socket_registered.
  rewrite Nat.eqb_refl. simpl.
  destruct (has _ _); [|reflexivity].
  simpl. now rewrite String.eqb_refl.
Qed.

(** Nothing is ever taken back from [sent]. *)
Lemma sent_step st e : exists l, sent (step st e) = sent st ++ l.
Proof.
  destruct e as [random|ws message|ws|ws|ws error]; simpl.
  - rewrite on_connection_eq. simpl. eexists. reflexivity.
  - destruct (on_message_outcome ws message st)
      as [|e|sock key fa la bl Hs|sock po fo pi Hs].
    + exists []. now rewrite app_nil_r.
    + exists []. simpl. now rewrite app_nil_r.
    + rewrite broadcast_sent. simpl. eexists. reflexivity.
    + rewrite broadcast_sent. simpl.
      destruct (set_playerData_rest ws (moved sock po fo pi) st)
        as [_ [_ [_ [Es _]]]].
      rewrite Es. eexists. reflexivity.
  - destruct (client_open st ws).
    + destruct (set_readyState_rest ws CLOSING st) as [_ [_ [_ [Es _]]]].
      rewrite Es. exists []. now rewrite app_nil_r.
    + exists []. now rewrite app_nil_r.
  - destruct (socket st ws) as [sock|] eqn:Hsock.
    + destruct (readyState sock);
        try (fold (closed_by_transport ws st);
             rewrite (on_close_eq ws st sock Hsock); simpl; eexists; reflexivity).
      exists []. now rewrite app_nil_r.
    + exists []. now rewrite app_nil_r.
  - unfold on_error. destruct (socket st ws); exists []; simpl; now rewrite app_nil_r.
Qed.

Lemma sent_run events : forall st, exists l, sent (run events st) = sent st ++ l.
Proof.
  induction events as [|e events IH]; intros st; simpl.
  - exists []. now rewrite app_nil_r.
  - destruct (sent_step st e) as [l1 H1]. destruct (IH (step st e)) as [l2 H2].
    exists (l1 ++ l2). now rewrite H2, H1, app_assoc.
Qed.

Lemma received_on_connection random st :
  Inv st ->
  received (List.length (sockets st)) (on_connection random st)
  = init (generateUUID random) (generateColor random uuid_draws)
    :: map joinOf (snapshot st) ++ world_replay st.
Proof.
  intros I. set (ws := List.length (sockets st)).
  rewrite on_connection_eq. fold ws. unfold received.
  change (sent (with_sent ?l _)) with l.
  rewrite received_app, (received_fresh st ws I) by (unfold ws; lia).
  simpl. rewrite Nat.eqb_refl. simpl. f_equal.
  rewrite !filter_app, !map_app.
  unfold ws at 2. rewrite others_registered by assumption.
  rewrite <- (map_map joinOf (fun m => (ws, m))).
  rewrite !filter_to_ws.
  rewrite filter_not_to_ws.
  - simpl. now rewrite app_nil_r.
  - intros Hin. apply filter_In in Hin. destruct Hin as [_ Hr].
    unfold ws in Hr. rewrite new_socket_not_reached in Hr. discriminate.
Qed.

(** C2: the socket of a new connection has received nothing before; the
    connection handler sends it one [init] with the id and colour of its new
    record, then one [playerJoin] for each record that was in the registry
    (with that record's id, colour, position, forward and pitch), then one
    [worldState] exactly when [worldChanges] is not empty, and nothing else;
    whatever is sent to it later comes after these. *)
Theorem C2_handshake_comes_first (random : nat -> Q) (events later : list Event) :
  let st := run events initial in
  let ws := List.length (sockets st) in
  let st' := step st (Connection random) in
  let handshake :=
    init (generateUUID random) (generateColor random uuid_draws)
    :: map (fun d => playerJoin (id d) (color d) (position d) (forward d) (pitch d))
         (snapshot st)
    ++ match worldChanges st with
       | [] => []
       | _ :: _ => [worldState (changes (worldChanges st))]
       end in
  received ws st = [] /\
  option_map (fun d => init (id d) (color d)) (players_get st' ws)
    = Some (init (generateUUID random) (generateColor random uuid_draws)) /\
  List.length (snapshot st) = List.length (players st) /\
  received ws st' = handshake /\
  exists rest, received ws (run later st') = handshake ++ rest.
Proof.
  intros st ws st' handshake.
  pose proof (Inv_reachable events) as I. fold st in I.
  assert (Hrec : received ws st' = handshake).
  { unfold st', ws. simpl step. rewrite received_on_connection by assumption.
    unfold handshake. f_equal. f_equal.
    apply map_ext_in. intros d Hd. unfold joinOf.
    now rewrite (snapshot_pitch st d I Hd). }
  split; [apply received_fresh; [assumption | unfold ws; lia]|].
  split.
  { unfold st', ws. simpl step. now rewrite players_get_on_connection. }
  split; [now apply snapshot_length|].
  split; [assumption|].
  destruct (sent_run later st') as [l Hl].
  exists (map snd (filter (fun p : Handle * Msg => Nat.eqb (fst p) ws) l)).
  rewrite <- Hrec. unfold received at 1. rewrite Hl. apply received_app.
Qed.

(** ** The registry follows the connections *)

Lemma delete_as_filter ws l : delete ws l = filter (fun h => negb (Nat.eqb h ws)) l.
Proof.
  unfold delete. apply filter_ext. intros h. now rewrite Nat.eqb_sym.
Qed.

Lemma on_message_registry ws message st :
  clients (on_message ws message st) = clients st /\
  players (on_message ws message st) = players st /\
  List.length (sockets (on_message ws message st)) = List.length (sockets st) /\
  map readyState (sockets (on_message ws message st)) = map readyState (sockets st).
Proof.
  destruct (on_message_outcome ws message st)
    as [|e|sock key fa la bl Hs|sock po fo pi Hs];
    try (repeat split; reflexivity).
  - rewrite broadcast_sent. repeat split.
  - rewrite broadcast_sent. simpl.
    destruct (set_playerData_rest ws (moved sock po fo pi) st) as [Ec [Ep _]].
    repeat split; try assumption.
    + apply sockets_length_set_playerData.
    + unfold set_playerData. rewrite Hs. simpl. unfold socket in Hs.
      clear - Hs. revert ws Hs. induction (sockets st) as [|x l IH]; intros [|n] Hs;
        simpl in *; try discriminate.
      * inversion Hs; subst. reflexivity.
      * f_equal. now apply IH.
Qed.

Lemma step_registry st e :
  Inv st ->
  players (step st e)
  = match e with
    | Connection _ => players st ++ [List.length (sockets st)]
    | Close ws => filter (fun h => negb (Nat.eqb h ws)) (players st)
    | _ => players st
    end /\
  List.length (sockets (step st e))
  = match e with
    | Connection _ => S (List.length (sockets st))
    | _ => List.length (sockets st)
    end.
Proof.
  intros I. destruct e as [random|ws message|ws|ws|ws error]; simpl.
  - destruct (on_connection_fields random st) as [Hs [_ [Hp _]]].
    rewrite Hp, Hs, length_app. simpl. split; [|lia].
    apply add_fresh. now apply Inv_new_handle.
  - destruct (on_message_registry ws message st) as [_ [Hp [Hl _]]]. now split.
  - destruct (client_open st ws); [|now split].
    destruct (set_readyState_rest ws CLOSING st) as [_ [Ep _]].
    split; [assumption | apply sockets_length_set_readyState].
  - rewrite <- delete_as_filter.
    assert (Hgone : forall sock, socket st ws = Some sock ->
              readyState sock = CLOSED -> delete ws (players st) = players st).
    { intros sock Hs Hr. apply delete_absent. intros Hin.
      apply (inv_live st I) in Hin. destruct Hin as [s [Hs' Hn]]. congruence. }
    destruct (socket st ws) as [sock|] eqn:Hsock.
    + destruct (readyState sock) eqn:Hr;
        try (fold (closed_by_transport ws st);
             rewrite (on_close_eq ws st sock Hsock); simpl;
             split; [reflexivity | apply sockets_length_set_readyState]).
      split; [|reflexivity]. symmetry. now apply (Hgone sock).
    + split; [|reflexivity]. symmetry. apply delete_absent. intros Hin.
      apply (inv_live st I) in Hin. destruct Hin as [s [Hs' _]]. congruence.
  - unfold on_error. destruct (socket st ws); now split.
Qed.

Lemma players_run events : forall st,
  Inv st ->
  players (run events st) = live events (List.length (sockets st)) (players st).
Proof.
  induction events as [|e events IH]; intros st I; simpl; [reflexivity|].
  rewrite IH by now apply Inv_step.
  destruct (step_registry st e I) as [Hp Hl]. rewrite Hp, Hl.
  destruct e; reflexivity.
Qed.

Lemma not_closed_In st h :
  In h (not_closed st) <->
  exists sock, socket st h = Some sock /\ readyState sock <> CLOSED.
Proof.
  unfold not_closed. rewrite filter_In, in_seq. split.
  - intros [_ H]. destruct (socket st h) as [sock|]; [|discriminate].
    exists sock. split; [reflexivity|]. intros E. rewrite E in H. discriminate.
  - intros [sock [Hs Hr]]. split.
    + apply socket_bound in Hs. lia.
    + rewrite Hs. destruct (readyState sock); try reflexivity. congruence.
Qed.

(** C6: after any sequence of events the keys of [players] are, in order, the
    sockets that were accepted and have not had their ['close'] event; they
    are the sockets whose state is not CLOSED, as many as those; no key
    occurs twice, so a socket has at most one record. *)
Theorem C6_registry_is_the_live_connections (events : list Event) :
  let st := run events initial in
  players st = live events 0 [] /\
  NoDup (players st) /\
  Permutation (players st) (not_closed st) /\
  List.length (players st) = List.length (not_closed st) /\
  (forall h, In h (players st) <-> exists d, players_get st h = Some d).
Proof.
  intros st. pose proof (Inv_reachable events) as I. fold st in I.
  assert (HP : Permutation (players st) (not_closed st)).
  { apply NoDup_Permutation.
    - apply (inv_nodup st I).
    - unfold not_closed. apply NoDup_filter, seq_NoDup.
    - intros h. rewrite not_closed_In. apply (inv_live st I). }
  split; [apply (players_run events initial Inv_initial)|].
  split; [apply (inv_nodup st I)|].
  split; [assumption|].
  split; [now apply Permutation_length|].
  intros h. split.
  - intros Hin. destruct (Inv_players_get st h I Hin) as [s [_ Hg]]. eauto.
  - intros [d Hd]. unfold players_get in Hd.
    destruct (has h (players st)) eqn:E; [now apply has_In | discriminate].
Qed.

(** ** Disconnection *)

Lemma on_close_sent ws st sock :
  socket st ws = Some sock ->
  let st1 :=
    with_players (delete ws (players st))
      (log (PlayerDisconnected (playerId sock)) st) in
  on_close ws st
  = with_sent
      (sent st ++ to_all (filter (reached st1 None) (clients st))
                    (playerLeave (playerId sock)))
      st1.
Proof.
  intros Hsock st1. unfold on_close. rewrite Hsock. now rewrite broadcast_sent.
Qed.


Lemma reached_after_close ws st sock c :
  Inv st -> socket st ws = Some sock -> In c (delete ws (clients st)) ->
  reached
    (with_players (delete ws (players st))
       (log (PlayerDisconnected (playerId sock)) (closed_by_transport ws st)))
    None c
  = client_open st c.
Proof.
  intros I Hsock Hin. apply delete_In in Hin. destruct Hin as [Hin Hne].
  rewrite (inv_clients st I) in Hin.
  destruct (Inv_players_get st c I Hin) as [s [Hs _]].
  unfold reached, client_open, players_get.
  change (socket (with_players _ (log _ (closed_by_transport ws st))) c)
    with (socket (set_readyState ws CLOSED st) c).
  rewrite socket_set_readyState.
  destruct (Nat.eqb_spec c ws) as [->|_]; [congruence|].
  rewrite Hs. simpl.
  replace (has c (delete ws (players st))) with true.
  - simpl. apply andb_true_r.
  - symmetry. apply has_In. apply delete_In. now split.
Qed.

Lemma close_event_eq ws st sock :
  Inv st -> socket st ws = Some sock -> readyState sock <> CLOSED ->
  step st (Close ws)
  = with_sent
      (sent st ++ to_all (remaining ws st) (playerLeave (playerId sock)))
      (with_players (delete ws (players st))
         (log (PlayerDisconnected (playerId sock)) (closed_by_transport ws st))).
Proof.
  intros I Hsock Hr. simpl. rewrite Hsock.
  assert (E : on_close ws (closed_by_transport ws st)
    = with_sent
      (sent st ++ to_all (remaining ws st) (playerLeave (playerId sock)))
      (with_players (delete ws (players st))
         (log (PlayerDisconnected (playerId sock)) (closed_by_transport ws st)))).
  { rewrite (on_close_eq ws st sock Hsock). f_equal. f_equal. f_equal.
    simpl clients. unfold remaining. apply filter_ext_in.
    intros c Hc. now apply (reached_after_close ws st sock c). }
  fold (closed_by_transport ws st).
  destruct (readyState sock); try exact E. congruence.
Qed.

Lemma reached_remaining ws st s c :
  Inv st ->
  (forall h, h <> ws -> socket s h = socket st h) ->
  players s = delete ws (players st) ->
  In c (delete ws (clients st)) ->
  reached s None c = client_open st c.
Proof.
  intros I Hsock Hp Hin. apply delete_In in Hin. destruct Hin as [Hin Hne].
  rewrite (inv_clients st I) in Hin.
  destruct (Inv_players_get st c I Hin) as [sk [Hs _]].
  unfold reached, client_open, players_get.
  rewrite Hsock, Hp, Hs by assumption. simpl.
  replace (has c (delete ws (players st))) with true.
  - simpl. apply andb_true_r.
  - symmetry. apply has_In. apply delete_In. now split.
Qed.

Lemma delete_twice ws l : delete ws (delete ws l) = delete ws l.
Proof. apply delete_absent. rewrite delete_In. tauto. Qed.

(** ** Block keys *)

Lemma split_without sep s : contains sep s = false -> split sep s = [s].
Proof.
  induction s as [|a s IH]; simpl; [reflexivity|].
  intros H. apply orb_false_iff in H. destruct H as [Ha Hs].
  rewrite Ha, IH by assumption. reflexivity.
Qed.

Lemma split_at sep s t :
  contains sep s = false ->
  split sep (s ++ String sep t) = s :: split sep t.
Proof.
  induction s as [|a s IH]; simpl; intros H.
  - now rewrite Ascii.eqb_refl.
  - apply orb_false_iff in H. destruct H as [Ha Hs].
    rewrite Ha, IH by assumption. reflexivity.
Qed.

Lemma digits_no_underscore d :
  contains "_" (DecimalString.NilEmpty.string_of_uint d) = false.
Proof. induction d; simpl; assumption || reflexivity. Qed.

Lemma integer_no_underscore z :
  contains "_" (Number_toString (NInt z)) = false.
Proof.
  unfold Number_toString, DecimalString.NilZero.string_of_int.
  destruct (Z.to_int z) as [d|d]; simpl;
    unfold DecimalString.NilZero.string_of_uint;
    destruct d; try reflexivity; apply (digits_no_underscore (_ _)).
Qed.

Lemma to_int_proper z : Z.to_int z <> Decimal.Pos Decimal.Nil /\ Z.to_int z <> Decimal.Neg Decimal.Nil.
Proof.
  destruct z as [|p|p]; simpl; split; try discriminate;
    intros E; inversion E as [E']; now apply DecimalPos.Unsigned.to_uint_nonnil in E'.
Qed.

Lemma Number_of_integer z :
  (Z.abs z <= 2 ^ 53)%Z -> Number (Number_toString (NInt z)) = Exactly z.
Proof.
  intros Hz. unfold Number, Number_toString.
  destruct (to_int_proper z) as [Hp Hn].
  rewrite DecimalString.NilZero.isi by assumption.
  rewrite DecimalZ.of_to. apply Z.leb_le in Hz. now rewrite Hz.
Qed.

Lemma integer_toString_inj z z' :
  Number_toString (NInt z) = Number_toString (NInt z') -> z = z'.
Proof.
  unfold Number_toString. intros E.
  apply DecimalZ.to_int_inj.
  destruct (to_int_proper z) as [Hp Hn]. destruct (to_int_proper z') as [Hp' Hn'].
  assert (H : Some (Z.to_int z) = Some (Z.to_int z')).
  { rewrite <- (DecimalString.NilZero.isi (Z.to_int z)) by assumption.
    rewrite <- (DecimalString.NilZero.isi (Z.to_int z')) by assumption.
    now rewrite E. }
  now inversion H.
Qed.

Lemma key_of_integers z1 z2 :
  key_of (num z1) (num z2)
  = Ok (Number_toString (NInt z1) ++ "_" ++ Number_toString (NInt z2))%string.
Proof. reflexivity. Qed.

Lemma decode_integer_key z1 z2 value :
  (Z.abs z1 <= 2 ^ 53)%Z -> (Z.abs z2 <= 2 ^ 53)%Z ->
  decode ((Number_toString (NInt z1) ++ "_" ++ Number_toString (NInt z2))%string, value)
  = {| face := Some (Exactly z1); layer := Some (Exactly z2); block := value |}.
Proof.
  intros H1 H2. unfold decode. simpl fst. simpl snd.
  change ("_" ++ Number_toString (NInt z2))%string
    with (String "_" (Number_toString (NInt z2))).
  rewrite split_at by apply integer_no_underscore.
  rewrite split_without by apply integer_no_underscore.
  cbn [map nth_error].
  pose proof (Number_of_integer z1 H1) as E1.
  pose proof (Number_of_integer z2 H2) as E2.
  unfold Number_toString in E1, E2. now rewrite E1, E2.
Qed.

Lemma append_cancel_prefix (s t t' : string) : (s ++ t = s ++ t')%string -> t = t'.
Proof.
  induction s as [|a s IH]; simpl; intros E; [assumption|].
  inversion E. now apply IH.
Qed.

Lemma integer_key_inj z1 z2 z1' z2' :
  (Number_toString (NInt z1) ++ "_" ++ Number_toString (NInt z2)
   = Number_toString (NInt z1') ++ "_" ++ Number_toString (NInt z2'))%string ->
  z1 = z1' /\ z2 = z2'.
Proof.
  intros E.
  assert (Hs : split "_" (Number_toString (NInt z1) ++ String "_" (Number_toString (NInt z2)))
             = split "_" (Number_toString (NInt z1') ++ String "_" (Number_toString (NInt z2')))).
  { f_equal. exact E. }
  rewrite !split_at, !split_without in Hs by apply integer_no_underscore.
  inversion Hs as [[Ha Hb]].
  split; now apply integer_toString_inj.
Qed.

(** ** Block changes *)

Lemma on_message_blockChange_object ws st sock props :
  socket st ws = Some sock ->
  own "type" props = Some (VStr "blockChange") ->
  on_message ws (Parsed (VObj props)) st
  = match key_of (property props "face") (property props "layer") with
    | Ok key =>
        with_sent
          (sent st ++
           to_all (filter (reached st (Some (playerId sock))) (clients st))
             (blockChange (property props "face") (property props "layer")
                (property props "block")))
          (with_worldChanges
             (Map_set key (property props "block") (worldChanges st)) st)
    | Throw e => log (ErrorParsingMessage e) st
    end.
Proof.
  intros Hsock Htype.
  unfold on_message. rewrite Hsock. simpl JSON_parse. unfold bind at 1.
  rewrite !Get_property. unfold bind at 1.
  replace (property props "type") with (VStr "blockChange")
    by (unfold property; now rewrite Htype).
  change (strict_eq_string (VStr "blockChange") "blockChange") with true.
  cbv iota. cbn [bind].
  destruct (key_of (property props "face") (property props "layer")) as [key|e];
    cbn [bind]; [|reflexivity].
  now rewrite broadcast_sent.
Qed.

Lemma worldChanges_blockChange ws st sock face layer block key :
  socket st ws = Some sock ->
  key_of face layer = Ok key ->
  worldChanges (on_message ws (blockChangeMessage face layer block) st)
  = Map_set key block (worldChanges st).
Proof.
  intros Hsock Hkey. unfold blockChangeMessage.
  rewrite (on_message_blockChange_object ws st sock) by (assumption || reflexivity).
  change (property _ "face") with face. change (property _ "layer") with layer.
  change (property _ "block") with block.
  now rewrite Hkey.
Qed.

Lemma socket_after_message ws message st h :
  (exists sock, socket st h = Some sock) ->
  exists sock, socket (on_message ws message st) h = Some sock.
Proof.
  intros [sock Hs].
  destruct (on_message_registry ws message st) as [_ [_ [Hl _]]].
  destruct (socket (on_message ws message st) h) as [s|] eqn:E; [eauto|].
  apply nth_error_None in E. apply socket_bound in Hs. lia.
Qed.

Lemma Map_get_filter key value m :
  NoDup (map fst m) -> Map_get key m = Some value ->
  filter (fun e => String.eqb (fst e) key) m = [(key, value)].
Proof.
  induction m as [|[k v] m IH]; simpl; intros Hnd Hget; [discriminate|].
  inversion Hnd as [|? ? Hk Hnd']; subst.
  destruct (String.eqb_spec k key) as [->|Hne].
  - inversion Hget; subst. f_equal. apply filter_none.
    intros [k' v'] Hin. simpl. apply String.eqb_neq. intros ->.
    apply Hk. apply in_map_iff. exists (key, v'). now split.
  - now apply IH.
Qed.

Lemma Map_get_In key value m : Map_get key m = Some value -> In (key, value) m.
Proof.
  induction m as [|[k v] m IH]; simpl; intros H; [discriminate|].
  destruct (String.eqb_spec k key) as [->|Hne].
  - inversion H; subst. now left.
  - right. now apply IH.
Qed.

Lemma Map_set_length key value m :
  In key (map fst m) -> List.length (Map_set key value m) = List.length m.
Proof.
  intros Hin. rewrite <- (length_map fst (Map_set key value m)), Map_set_keys.
  destruct (in_dec string_dec key (map fst m)); [apply length_map | contradiction].
Qed.

Lemma In_Map_get key value m :
  NoDup (map fst m) -> In (key, value) m -> Map_get key m = Some value.
Proof.
  induction m as [|[k v] m IH]; simpl; intros Hnd Hin; [contradiction|].
  inversion Hnd as [|? ? Hk Hnd']; subst.
  destruct Hin as [E|Hin].
  - inversion E; subst. now rewrite String.eqb_refl.
  - destruct (String.eqb_spec k key) as [->|Hne]; [|now apply IH].
    exfalso. apply Hk. apply in_map_iff. exists (key, value). now split.
Qed.

Lemma integer_keys_set z1 z2 value m :
  (Z.abs z1 <= 2 ^ 53)%Z -> (Z.abs z2 <= 2 ^ 53)%Z ->
  integer_keys m ->
  integer_keys
    (Map_set (Number_toString (NInt z1) ++ "_" ++ Number_toString (NInt z2))%string
       value m).
Proof.
  intros H1 H2 Hm key Hin. rewrite Map_set_keys in Hin.
  destruct (in_dec string_dec _ (map fst m)); [now apply Hm|].
  apply in_app_iff in Hin. destruct Hin as [Hin|[<-|[]]]; [now apply Hm|].
  exists z1, z2. split; [assumption|]. split; [assumption | reflexivity].
Qed.

(** An entry of the replay of a store with integer keys: its key and the
    integers it decodes to. *)
Lemma integer_entry m c :
  integer_keys m -> In c (changes m) ->
  exists z1 z2 value,
    In ((Number_toString (NInt z1) ++ "_" ++ Number_toString (NInt z2))%string, value) m /\
    c = {| face := Some (Exactly z1); layer := Some (Exactly z2); block := value |}.
Proof.
  intros Hm Hin. unfold changes in Hin. apply in_map_iff in Hin.
  destruct Hin as [[k v] [E Hkv]].
  destruct (Hm k) as [z1 [z2 [H1 [H2 Hk]]]].
  { apply in_map_iff. exists (k, v). now split. }
  rewrite key_of_integers in Hk. inversion Hk; subst k.
  exists z1, z2, v. split; [assumption|].
  rewrite <- E. now apply decode_integer_key.
Qed.

Lemma integer_pairs_NoDup m :
  NoDup (map fst m) -> integer_keys m -> NoDup (map pair_of (changes m)).
Proof.
  induction m as [|[k v] m IH]; intros Hnd Hm; [constructor|].
  inversion Hnd as [|? ? Hk Hnd']; subst.
  assert (Hm' : integer_keys m).
  { intros key Hin. apply Hm. simpl. now right. }
  change (NoDup (pair_of (decode (k, v)) :: map pair_of (changes m))).
  constructor; [|now apply IH].
  intros Hin. apply in_map_iff in Hin. destruct Hin as [c [Ec Hc]].
  destruct (integer_entry m c Hm' Hc) as [z1' [z2' [v' [Hin' ->]]]].
  destruct (Hm k) as [z1 [z2 [H1 [H2 Hkey]]]]; [simpl; now left|].
  rewrite key_of_integers in Hkey.
  assert (Ek : k = (Number_toString (NInt z1) ++ "_" ++ Number_toString (NInt z2))%string)
    by now inversion Hkey.
  subst k. rewrite decode_integer_key in Ec by assumption.
  unfold pair_of in Ec. simpl in Ec. inversion Ec; subst.
  apply Hk. apply in_map_iff. eexists. split; [|exact Hin']. reflexivity.
Qed.

(** C5 (as the code has it): [worldChanges] has one entry per key, the text
    [`${face}_${layer}`], and a block change writes its block under its key,
    replacing the entry that was there without adding one.  Two pairs of
    integers that a double holds exactly, written as numbers, have the same
    key only if they are the same pair.  After block "stone" and then block
    "dirt" for face 2 and layer 5, the store has exactly one entry under the
    key 2_5, with "dirt", and the replay built from the store has the entry
    (2, 5, "dirt"); from an empty store it is the whole replay.  When all
    keys of the store came from such integers, no two entries of the replay
    have the same pair, and the only entry for (2, 5) is the one with
    "dirt". *)
Theorem C5_last_write_wins (events : list Event) (ws : Handle) (sock : Socket) :
  let st := run events initial in
  socket st ws = Some sock ->
  let st1 := on_message ws (blockChangeMessage (num 2) (num 5) (VStr "stone")) st in
  let st2 := on_message ws (blockChangeMessage (num 2) (num 5) (VStr "dirt")) st1 in
  let entry := {| face := Some (Exactly 2); layer := Some (Exactly 5);
                  block := VStr "dirt" |} in
  NoDup (map fst (worldChanges st)) /\
  (forall z1 z2 z1' z2' key,
     (Z.abs z1 <= 2 ^ 53)%Z -> (Z.abs z2 <= 2 ^ 53)%Z ->
     (Z.abs z1' <= 2 ^ 53)%Z -> (Z.abs z2' <= 2 ^ 53)%Z ->
     key_of (num z1) (num z2) = Ok key -> key_of (num z1') (num z2') = Ok key ->
     z1 = z1' /\ z2 = z2') /\
  (forall face layer block key,
     key_of face layer = Ok key ->
     let st' := on_message ws (blockChangeMessage face layer block) st in
     Map_get key (worldChanges st') = Some block /\
     NoDup (map fst (worldChanges st')) /\
     (In key (map fst (worldChanges st)) ->
      List.length (worldChanges st') = List.length (worldChanges st))) /\
  filter (fun e => String.eqb (fst e) "2_5") (worldChanges st2)
    = [("2_5", VStr "dirt")] /\
  In entry (changes (worldChanges st2)) /\
  List.length (worldChanges st2) = List.length (worldChanges st1) /\
  (worldChanges st = [] -> changes (worldChanges st2) = [entry]) /\
  (integer_keys (worldChanges st) ->
   NoDup (map pair_of (changes (worldChanges st2))) /\
   forall c, In c (changes (worldChanges st2)) ->
     pair_of c = (Some (Exactly 2), Some (Exactly 5)) -> c = entry).
Proof.
  intros st Hsock st1 st2 entry.
  pose proof (Inv_reachable events) as I. fold st in I.
  pose proof (inv_keys st I) as Hnd.
  assert (Hkey : key_of (num 2) (num 5) = Ok "2_5") by reflexivity.
  assert (E1 : worldChanges st1 = Map_set "2_5" (VStr "stone") (worldChanges st)).
  { now apply (worldChanges_blockChange ws st sock). }
  destruct (socket_after_message ws
              (blockChangeMessage (num 2) (num 5) (VStr "stone")) st ws)
    as [sock1 Hsock1]; [eauto|]. fold st1 in Hsock1.
  assert (E2 : worldChanges st2 = Map_set "2_5" (VStr "dirt") (worldChanges st1)).
  { now apply (worldChanges_blockChange ws st1 sock1). }
  assert (Hnd2 : NoDup (map fst (worldChanges st2))).
  { rewrite E2, E1. now apply Map_set_NoDup, Map_set_NoDup. }
  assert (Hget : Map_get "2_5" (worldChanges st2) = Some (VStr "dirt")).
  { rewrite E2. apply Map_get_set. }
  split; [assumption|]. split.
  { intros z1 z2 z1' z2' key _ _ _ _ H1 H2. rewrite key_of_integers in H1, H2.
    apply integer_key_inj. congruence. }
  split.
  { intros face0 layer0 block0 key Hk st'.
    assert (E : worldChanges st' = Map_set key block0 (worldChanges st)).
    { now apply (worldChanges_blockChange ws st sock). }
    rewrite E. split; [apply Map_get_set|]. split; [now apply Map_set_NoDup|].
    apply Map_set_length. }
  split; [now apply Map_get_filter|]. split.
  { unfold changes. apply in_map_iff. exists ("2_5", VStr "dirt").
    split; [reflexivity | now apply Map_get_In]. }
  split.
  { rewrite E2. apply Map_set_length. rewrite E1. apply Map_set_has. }
  split.
  { intros Hempty. rewrite E2, E1, Hempty. reflexivity. }
  intros Hint.
  assert (Hint2 : integer_keys (worldChanges st2)).
  { rewrite E2, E1.
    apply (integer_keys_set 2 5); [lia | lia |].
    apply (integer_keys_set 2 5); [lia | lia | assumption]. }
  split; [now apply integer_pairs_NoDup|].
  intros c Hc Hpair.
  destruct (integer_entry _ c Hint2 Hc) as [z1 [z2 [v [Hin ->]]]].
  unfold pair_of in Hpair. simpl in Hpair. inversion Hpair; subst z1 z2.
  apply (In_Map_get _ _ _ Hnd2) in Hin.
  change (Number_toString (NInt 2) ++ "_" ++ Number_toString (NInt 5))%string
    with "2_5" in Hin.
  rewrite Hget in Hin. inversion Hin; subst v. reflexivity.
Qed.

Lemma C5_last_write_wins_witness :
  let events := [Connection (fun _ => 0.25%Q)] in
  let st := run events initial in
  let st1 := on_message 0 (blockChangeMessage (num 2) (num 5) (VStr "stone")) st in
  let st2 := on_message 0 (blockChangeMessage (num 2) (num 5) (VStr "dirt")) st1 in
  worldChanges st2 = [("2_5", VStr "dirt")] /\
  filter (fun e => String.eqb (fst e) "2_5") (worldChanges st2)
    = [("2_5", VStr "dirt")].
Proof.
  intros events st st1 st2. split; [vm_compute; reflexivity|].
  assert (H1 : socket st 0 = Some (new_socket (fun _ => 0.25%Q)))
    by (vm_compute; reflexivity).
  exact (proj1 (proj2 (proj2 (proj2
           (C5_last_write_wins events 0 (new_socket (fun _ => 0.25%Q)) H1))))).
Defined.

(** Against C5 as stated: the face "02", a string, has another key than the
    face 2 and is the same number in the replay, so after "gold" for face
    "02" and layer 5, and then "stone" and "dirt" for face 2 and layer 5,
    the replay has two entries for the pair (2, 5), one of them not
    "dirt". *)
Lemma C5_one_pair_two_entries :
  let st0 := run [Connection (fun _ : nat => 0.25%Q);
                  Message 0 (blockChangeMessage (VStr "02") (num 5) (VStr "gold"))]
               initial in
  let st1 := on_message 0 (blockChangeMessage (num 2) (num 5) (VStr "stone")) st0 in
  let st2 := on_message 0 (blockChangeMessage (num 2) (num 5) (VStr "dirt")) st1 in
  worldChanges st2 = [("02_5", VStr "gold"); ("2_5", VStr "dirt")] /\
  changes (worldChanges st2)
  = [{| face := Some (Exactly 2); layer := Some (Exactly 5); block := VStr "gold" |};
     {| face := Some (Exactly 2); layer := Some (Exactly 5); block := VStr "dirt" |}].
Proof. vm_compute. split; reflexivity. Qed.

Lemma worldChanges_step st e key :
  In key (map fst (worldChanges st)) ->
  In key (map fst (worldChanges (step st e))).
Proof.
  intros Hin. destruct e as [random|ws message|ws|ws|ws error]; simpl.
  - destruct (on_connection_fields random st) as [_ [_ [_ Hw]]]. now rewrite Hw.
  - destruct (on_message_outcome ws message st)
      as [|e|sock k fa la bl Hs|sock po fo pi Hs]; try assumption.
    + rewrite broadcast_sent. simpl. now apply Map_set_keeps.
    + rewrite broadcast_sent. simpl.
      destruct (set_playerData_rest ws (moved sock po fo pi) st) as [_ [_ [Ew _]]].
      now rewrite Ew.
  - destruct (client_open st ws); [|assumption].
    destruct (set_readyState_rest ws CLOSING st) as [_ [_ [Ew _]]]. now rewrite Ew.
  - destruct (socket st ws) as [sock|] eqn:Hsock; [|assumption].
    destruct (readyState sock); try assumption;
      fold (closed_by_transport ws st);
      rewrite (on_close_eq ws st sock Hsock); simpl;
      destruct (set_readyState_rest ws CLOSED st) as [_ [_ [Ew _]]];
      now rewrite Ew.
  - unfold on_error. destruct (socket st ws); assumption.
Qed.

Lemma worldChanges_run later : forall st key,
  In key (map fst (worldChanges st)) ->
  In key (map fst (worldChanges (run later st))).
Proof.
  induction later as [|e later IH]; intros st key Hin; simpl; [assumption|].
  apply IH. now apply worldChanges_step.
Qed.

(** C9: a block change is stored under the string [`${face}_${layer}`], and
    the replay reads face and layer back by [split('_')] and [Number].  For
    integers that a double holds exactly, every later replay has an entry
    with that face and that layer.  Other inputs break this: the pairs
    ("1_2", 3) and (1, "2_3") have the same key, the second write replaces
    the first, and the entry is replayed as face 1 and layer 2. *)
Theorem C9_integer_keys_round_trip (events later : list Event) (ws : Handle)
    (sock : Socket) (z1 z2 : Z) (block : JSValue) :
  let st := run events initial in
  socket st ws = Some sock ->
  (Z.abs z1 <= 2 ^ 53)%Z ->
  (Z.abs z2 <= 2 ^ 53)%Z ->
  let key := (Number_toString (NInt z1) ++ "_" ++ Number_toString (NInt z2))%string in
  let st1 := on_message ws (blockChangeMessage (num z1) (num z2) block) st in
  Map_get key (worldChanges st1) = Some block /\
  (exists b,
     In {| face := Some (Exactly z1); layer := Some (Exactly z2); block := b |}
        (changes (worldChanges (run later st1)))) /\
  (forall block1 block2,
     let sta := on_message ws (blockChangeMessage (VStr "1_2") (num 3) block1) st in
     let stb := on_message ws (blockChangeMessage (num 1) (VStr "2_3") block2) sta in
     key_of (VStr "1_2") (num 3) = Ok "1_2_3" /\
     key_of (num 1) (VStr "2_3") = Ok "1_2_3" /\
     filter (fun e => String.eqb (fst e) "1_2_3") (worldChanges stb)
       = [("1_2_3", block2)] /\
     decode ("1_2_3", block2)
       = {| face := Some (Exactly 1); layer := Some (Exactly 2); block := block2 |}).
Proof.
  intros st Hsock Hz1 Hz2 key st1.
  pose proof (Inv_reachable events) as I. fold st in I.
  assert (E1 : worldChanges st1 = Map_set key block (worldChanges st)).
  { apply (worldChanges_blockChange ws st sock); [assumption|].
    apply key_of_integers. }
  split; [rewrite E1; apply Map_get_set|]. split.
  { assert (Hin : In key (map fst (worldChanges (run later st1)))).
    { apply worldChanges_run. rewrite E1. apply Map_set_has. }
    apply in_map_iff in Hin. destruct Hin as [[k b] [Hk Hin]].
    simpl in Hk. subst k. exists b.
    unfold changes. apply in_map_iff. exists (key, b).
    split; [now apply decode_integer_key | assumption]. }
  intros block1 block2 sta stb.
  split; [reflexivity|]. split; [reflexivity|]. split; [|reflexivity].
  assert (Ea : worldChanges sta = Map_set "1_2_3" block1 (worldChanges st)).
  { now apply (worldChanges_blockChange ws st sock). }
  destruct (socket_after_message ws
              (blockChangeMessage (VStr "1_2") (num 3) block1) st ws)
    as [socka Hsocka]; [eauto|]. fold sta in Hsocka.
  assert (Eb : worldChanges stb = Map_set "1_2_3" block2 (worldChanges sta)).
  { now apply (worldChanges_blockChange ws sta socka). }
  apply Map_get_filter.
  - rewrite Eb, Ea. apply Map_set_NoDup, Map_set_NoDup, (inv_keys st I).
  - rewrite Eb. apply Map_get_set.
Qed.

Lemma C9_integer_keys_round_trip_witness :
  let events := [Connection (fun _ => 0.25%Q)] in
  let st := run events initial in
  let later := [Message 0 (blockChangeMessage (num 7) (num 8) (VStr "sand"));
                Connection (fun _ => 0.75%Q)] in
  let st1 := on_message 0 (blockChangeMessage (num (-3)) (num 40) (VStr "stone")) st in
  worldChanges (run later st1) = [("-3_40", VStr "stone"); ("7_8", VStr "sand")] /\
  exists b,
    In {| face := Some (Exactly (-3)); layer := Some (Exactly 40); block := b |}
       (changes (worldChanges (run later st1))).
Proof.
  intros events st later st1. split; [vm_compute; reflexivity|].
  assert (H1 : socket st 0 = Some (new_socket (fun _ => 0.25%Q)))
    by (vm_compute; reflexivity).
  assert (H2 : (Z.abs (-3) <= 2 ^ 53)%Z) by (vm_compute; discriminate).
  assert (H3 : (Z.abs 40 <= 2 ^ 53)%Z) by (vm_compute; discriminate).
  exact (proj1 (proj2
           (C9_integer_keys_round_trip events later 0
              (new_socket (fun _ => 0.25%Q)) (-3) 40 (VStr "stone") H1 H2 H3))).
Defined.

(** ** Malformed and unknown messages *)

(** Against C1 as stated: a block change without [face], [layer] and [block]
    sent by socket 0 while socket 1 is open.  The store, empty before, gets
    an entry under the key built from [undefined], socket 1 gets the notice,
    and nothing is logged. *)
Lemma C1_missing_fields_are_applied :
  let st := run [Connection (fun _ => 0.25%Q); Connection (fun _ => 0.75%Q)] initial in
  let st' := on_message 0 (Parsed (VObj [("type", VStr "blockChange")])) st in
  worldChanges st = [] /\
  worldChanges st' = [("undefined_undefined", VUndefined)] /\
  received 1 st' = received 1 st ++ [blockChange VUndefined VUndefined VUndefined] /\
  console st' = console st.
Proof. vm_compute. repeat split. Qed.

(** C1 (as the code has it): the message handler does not check that a block
    change carries [face], [layer] and [block]: whenever the key can be
    built, the block is written under it and the notice is broadcast, so a
    block change without the three fields is stored under
    "undefined_undefined" and broadcast with undefined fields, unlogged.  A
    message that does not parse, or parses to [null], is logged and changes
    nothing else.  A message whose type is neither "blockChange" nor
    "position" changes nothing at all.  No message changes the state of a
    socket, [wss.clients] or [players]. *)
Theorem C1_no_validation_of_block_changes (ws : Handle) (st : Server) (sock : Socket) :
  socket st ws = Some sock ->
  on_message ws Unparsable st = log (ErrorParsingMessage SyntaxError) st /\
  on_message ws (Parsed VNull) st = log (ErrorParsingMessage TypeError) st /\
  (forall line, worldChanges (log line st) = worldChanges st /\
                sent (log line st) = sent st /\
                sockets (log line st) = sockets st) /\
  (forall data type,
     Get data "type" = Ok type ->
     strict_eq_string type "blockChange" = false ->
     strict_eq_string type "position" = false ->
     on_message ws (Parsed data) st = st) /\
  (forall message,
     let st' := on_message ws message st in
     map readyState (sockets st') = map readyState (sockets st) /\
     clients st' = clients st /\ players st' = players st) /\
  (forall props key,
     own "type" props = Some (VStr "blockChange") ->
     key_of (property props "face") (property props "layer") = Ok key ->
     let st' := on_message ws (Parsed (VObj props)) st in
     let notice := blockChange (property props "face") (property props "layer")
                     (property props "block") in
     worldChanges st' = Map_set key (property props "block") (worldChanges st) /\
     sent st' = sent st ++
       to_all (filter (reached st (Some (playerId sock))) (clients st)) notice /\
     console st' = console st) /\
  (forall props,
     own "type" props = Some (VStr "blockChange") ->
     own "face" props = None -> own "layer" props = None ->
     own "block" props = None ->
     let st' := on_message ws (Parsed (VObj props)) st in
     worldChanges st' = Map_set "undefined_undefined" VUndefined (worldChanges st) /\
     sent st' = sent st ++
       to_all (filter (reached st (Some (playerId sock))) (clients st))
         (blockChange VUndefined VUndefined VUndefined) /\
     console st' = console st).
Proof.
  intros Hsock.
  split; [unfold on_message; now rewrite Hsock|].
  split; [unfold on_message; now rewrite Hsock|].
  split; [intros line; repeat split|].
  split.
  { intros data type Ht Hb Hp. unfold on_message. rewrite Hsock.
    simpl JSON_parse. unfold bind at 1. rewrite Ht. unfold bind at 1.
    now rewrite Hb, Hp. }
  split.
  { intros message st'.
    destruct (on_message_registry ws message st) as [Hc [Hp [_ Hr]]]. now repeat split. }
  assert (General : forall props key,
     own "type" props = Some (VStr "blockChange") ->
     key_of (property props "face") (property props "layer") = Ok key ->
     let st' := on_message ws (Parsed (VObj props)) st in
     let notice := blockChange (property props "face") (property props "layer")
                     (property props "block") in
     worldChanges st' = Map_set key (property props "block") (worldChanges st) /\
     sent st' = sent st ++
       to_all (filter (reached st (Some (playerId sock))) (clients st)) notice /\
     console st' = console st).
  { intros props key Ht Hk st' notice. unfold st'.
    rewrite (on_message_blockChange_object ws st sock props Hsock Ht), Hk.
    repeat split. }
  split; [exact General|].
  intros props Ht Hf Hl Hb.
  assert (Pf : property props "face" = VUndefined) by (unfold property; now rewrite Hf).
  assert (Pl : property props "layer" = VUndefined) by (unfold property; now rewrite Hl).
  assert (Pb : property props "block" = VUndefined) by (unfold property; now rewrite Hb).
  pose proof (General props "undefined_undefined" Ht) as G.
  rewrite Pf, Pl, Pb in G. apply G. reflexivity.
Qed.

Lemma C1_no_validation_of_block_changes_witness :
  let st := run [Connection (fun _ => 0.25%Q); Connection (fun _ => 0.75%Q)] initial in
  on_message 0 Unparsable st = log (ErrorParsingMessage SyntaxError) st /\
  on_message 0 (Parsed (VObj [("type", VStr "chat"); ("text", VStr "hi")])) st = st.
Proof.
  intros st.
  assert (H1 : socket st 0 = Some (new_socket (fun _ => 0.25%Q)))
    by (vm_compute; reflexivity).
  destruct (C1_no_validation_of_block_changes 0 st (new_socket (fun _ => 0.25%Q)) H1)
    as [Hu [_ [_ [Ht _]]]].
  split; [exact Hu|].
  apply (Ht _ (VStr "chat")); reflexivity.
Defined.

(** ** Colours

    The bounds of a colour channel, in binary64 arithmetic. *)

Section Binary64.
Local Open Scope Q_scope.

Lemma two_not_0 : ~ (2 # 1) == 0.
Proof. discriminate. Qed.

Lemma pow2_pos e : 0 < pow2 e.
Proof. apply Qpower_0_lt. reflexivity. Qed.

Lemma pow2_add a b : pow2 (a + b) == pow2 a * pow2 b.
Proof. apply Qpower_plus, two_not_0. Qed.

Lemma pow2_le a b : (a <= b)%Z -> pow2 a <= pow2 b.
Proof. intros H. apply Qpower_le_compat_l; [assumption | discriminate]. Qed.

Lemma pow2_lt_inv a b : pow2 a < pow2 b -> (a < b)%Z.
Proof. intros H. eapply Qpower_lt_compat_l_inv; [eassumption | reflexivity]. Qed.

Lemma pow2_inject n : (0 <= n)%Z -> pow2 n == inject_Z (2 ^ n).
Proof. intros H. unfold pow2. now rewrite Zpower_Qpower. Qed.

Lemma pow2_sub x y :
  (0 <= x)%Z -> (0 <= y)%Z -> pow2 (x - y) == inject_Z (2 ^ x) / inject_Z (2 ^ y).
Proof.
  intros Hx Hy. unfold pow2. rewrite Qpower_minus by apply two_not_0.
  now rewrite !Zpower_Qpower.
Qed.

Lemma Qlog2_spec q : 0 < q -> pow2 (Qlog2 q) <= q /\ q < pow2 (Qlog2 q + 1).
Proof.
  intros Hq. destruct q as [n d]. assert (Hn : (0 < n)%Z).
  { unfold Qlt in Hq. simpl in Hq. lia. }
  unfold Qlog2. simpl Qnum. simpl Qden.
  set (a := Z.log2 n). set (b := Z.log2 (Zpos d)).
  destruct (Z.log2_spec n Hn) as [Ha1 Ha2]. fold a in Ha1, Ha2.
  destruct (Z.log2_spec (Zpos d) (Pos2Z.is_pos d)) as [Hb1 Hb2]. fold b in Hb1, Hb2.
  assert (Ha0 : (0 <= a)%Z) by apply Z.log2_nonneg.
  assert (Hb0 : (0 <= b)%Z) by apply Z.log2_nonneg.
  assert (Pa : (0 < 2 ^ a)%Z) by (apply Z.pow_pos_nonneg; lia).
  assert (Pb : (0 < 2 ^ b)%Z) by (apply Z.pow_pos_nonneg; lia).
  assert (Up : n # d < pow2 (a - b + 1)).
  { replace (a - b + 1)%Z with (Z.succ a - b)%Z by lia.
    rewrite pow2_sub by lia.
    apply Qlt_shift_div_l; [unfold Qlt; simpl; lia|].
    unfold Qlt. simpl. nia. }
  assert (Lo : pow2 (a - b - 1) <= n # d).
  { replace (a - b - 1)%Z with (a - Z.succ b)%Z by lia.
    rewrite pow2_sub by lia.
    apply Qle_shift_div_r.
    - unfold Qlt; simpl. assert (0 < 2 ^ Z.succ b)%Z by (apply Z.pow_pos_nonneg; lia). lia.
    - unfold Qle. simpl. nia. }
  destruct (Qle_bool (pow2 (a - b)) (n # d)) eqn:E.
  - apply Qle_bool_iff in E. split; assumption.
  - assert (L : n # d < pow2 (a - b)).
    { apply Qnot_le_lt. intros H. apply Qle_bool_iff in H. congruence. }
    split; [assumption|]. now replace (a - b - 1 + 1)%Z with (a - b)%Z by lia.
Qed.

Lemma Qlog2_lt q n : 0 < q -> q < pow2 n -> (Qlog2 q < n)%Z.
Proof.
  intros Hq H. destruct (Qlog2_spec q Hq) as [L _].
  apply pow2_lt_inv. eapply Qle_lt_trans; eassumption.
Qed.

Lemma Qlog2_ge q n : 0 < q -> pow2 n <= q -> (n <= Qlog2 q)%Z.
Proof.
  intros Hq H. destruct (Qlog2_spec q Hq) as [_ U].
  assert (pow2 n < pow2 (Qlog2 q + 1)) by (eapply Qle_lt_trans; eassumption).
  apply pow2_lt_inv in H0. lia.
Qed.

Lemma round_half_even_bounds t :
  (Qfloor t <= round_half_even t <= Qfloor t + 1)%Z.
Proof.
  unfold round_half_even.
  destruct (t - inject_Z (Qfloor t) ?= 1 # 2); try destruct (Z.even (Qfloor t)); lia.
Qed.

Lemma round_half_even_ge t k : inject_Z k <= t -> (k <= round_half_even t)%Z.
Proof.
  intros H. apply Qfloor_resp_le in H. rewrite Qfloor_Z in H.
  pose proof (round_half_even_bounds t). lia.
Qed.

Lemma round_half_even_below t k :
  t < inject_Z k + (1 # 2) -> (round_half_even t <= k)%Z.
Proof.
  intros H. pose proof (Qfloor_le t) as Hf.
  assert (Hfk : (Qfloor t <= k)%Z).
  { assert (inject_Z (Qfloor t) < inject_Z (k + 1)).
    { rewrite inject_Z_plus. change (inject_Z 1) with 1.
      remember (inject_Z (Qfloor t)) as b. remember (inject_Z k) as a.
      clear Heqa Heqb. lra. }
    rewrite <- Zlt_Qlt in H0. lia. }
  pose proof (round_half_even_bounds t) as Hb.
  destruct (Z.eq_dec (Qfloor t) k) as [E|Hne]; [|lia].
  unfold round_half_even. rewrite E.
  destruct (Qcompare_spec (t - inject_Z k) (1 # 2)) as [He|Hl|Hg]; try lia; lra.
Qed.

Lemma round_half_even_le t k : t <= inject_Z k -> (round_half_even t <= k)%Z.
Proof. intros H. apply round_half_even_below. lra. Qed.

Lemma Qabs_of_pos q : 0 < q -> Qabs q = q.
Proof.
  intros H. destruct q as [n d]. unfold Qabs. f_equal. apply Z.abs_eq.
  unfold Qlt in H. simpl in H. lia.
Qed.

Lemma RN_pos z :
  0 < z ->
  RN z = inject_Z (round_half_even (z / pow2 (ulp_exponent z))) * pow2 (ulp_exponent z).
Proof.
  intros H. unfold RN. destruct (Qeq_bool z 0) eqn:E; [|reflexivity].
  apply Qeq_bool_iff in E. lra.
Qed.

Lemma ulp_exponent_pos z : 0 < z -> ulp_exponent z = Z.max (Qlog2 z - 52) (-1074).
Proof. intros H. unfold ulp_exponent. now rewrite Qabs_of_pos. Qed.

(** A multiple of [2^v] is a multiple of every smaller power of two. *)
Lemma grid_refine k v u :
  (u <= v)%Z -> inject_Z k * pow2 v == inject_Z (k * 2 ^ (v - u)) * pow2 u.
Proof.
  intros H. rewrite inject_Z_mult, <- pow2_inject by lia.
  replace v with ((v - u) + u)%Z at 1 by lia. rewrite pow2_add. ring.
Qed.

Lemma RN_below_grid z k v :
  0 < z -> z <= inject_Z k * pow2 v -> (ulp_exponent z <= v)%Z ->
  RN z <= inject_Z k * pow2 v.
Proof.
  intros Hz Hle Hu. rewrite RN_pos by assumption.
  set (u := ulp_exponent z) in *. pose proof (pow2_pos u) as Pu.
  rewrite (grid_refine k v u Hu) in *.
  apply Qmult_le_compat_r; [|lra].
  rewrite <- Zle_Qle. apply round_half_even_le.
  apply Qle_shift_div_r; assumption.
Qed.

Lemma RN_above_grid z k v :
  0 < z -> inject_Z k * pow2 v <= z -> (ulp_exponent z <= v)%Z ->
  inject_Z k * pow2 v <= RN z.
Proof.
  intros Hz Hle Hu. rewrite RN_pos by assumption.
  set (u := ulp_exponent z) in *. pose proof (pow2_pos u) as Pu.
  rewrite (grid_refine k v u Hu) in *.
  apply Qmult_le_compat_r; [|lra].
  rewrite <- Zle_Qle. apply round_half_even_ge.
  apply Qle_shift_div_l; assumption.
Qed.

Lemma RN_below_half z k :
  0 < z -> z < (inject_Z k + (1 # 2)) * pow2 (ulp_exponent z) ->
  RN z <= inject_Z k * pow2 (ulp_exponent z).
Proof.
  intros Hz Hlt. rewrite RN_pos by assumption.
  set (u := ulp_exponent z) in *. pose proof (pow2_pos u) as Pu.
  apply Qmult_le_compat_r; [|lra].
  rewrite <- Zle_Qle. apply round_half_even_below.
  apply Qlt_shift_div_r; assumption.
Qed.

Lemma RN_zero z : z == 0 -> RN z = 0.
Proof. intros H. unfold RN. apply Qeq_bool_iff in H. now rewrite H. Qed.

Lemma ulp_exponent_small z n :
  0 < z -> z < pow2 n -> (-1021 <= n)%Z -> (ulp_exponent z <= n - 53)%Z.
Proof.
  intros Hz H Hn. rewrite ulp_exponent_pos by assumption.
  pose proof (Qlog2_lt z n Hz H). lia.
Qed.

Lemma ulp_exponent_binade z n :
  0 < z -> pow2 n <= z -> z < pow2 (n + 1) -> (-1022 <= n)%Z ->
  ulp_exponent z = (n - 52)%Z.
Proof.
  intros Hz Hl Hu Hn. rewrite ulp_exponent_pos by assumption.
  pose proof (Qlog2_lt z (n + 1) Hz Hu). pose proof (Qlog2_ge z n Hz Hl). lia.
Qed.

Lemma pow2_m1 : pow2 (-1) == 1 # 2. Proof. reflexivity. Qed.
Lemma pow2_m2 : pow2 (-2) == 1 # 4. Proof. reflexivity. Qed.
Lemma pow2_0 : pow2 0 == 1. Proof. reflexivity. Qed.
Lemma pow2_m53 : pow2 (-53) == 1 # 9007199254740992. Proof. vm_compute. reflexivity. Qed.
Lemma pow2_m54 : pow2 (-54) == 1 # 18014398509481984. Proof. vm_compute. reflexivity. Qed.
Lemma double_07 : double 0.7 == 6305039478318694 # 9007199254740992.
Proof. vm_compute. reflexivity. Qed.
Lemma double_03 : double 0.3 == 5404319552844595 # 18014398509481984.
Proof. vm_compute. reflexivity. Qed.

(** The doubles below 1 stop at 1 - 2^-53. *)
Lemma double_below_one x :
  is_double x = true -> 0 <= x -> x < 1 -> x <= 1 - (1 # 9007199254740992).
Proof.
  intros Hd H0 H1. apply Qeq_bool_iff in Hd.
  destruct (Qlt_le_dec x (1 # 2)) as [Hs|Hb]; [lra|].
  assert (Hx : 0 < x) by lra.
  assert (Hu : ulp_exponent x = (-53)%Z).
  { assert (A1 : pow2 (-1) <= x) by (rewrite pow2_m1; lra).
    assert (A2 : x < pow2 (-1 + 1)) by (simpl Z.add; rewrite pow2_0; lra).
    exact (ulp_exponent_binade x (-1) Hx A1 A2 ltac:(lia)). }
  rewrite RN_pos, Hu in Hd by assumption.
  set (n := round_half_even (x / pow2 (-53))) in *.
  rewrite pow2_m53 in Hd.
  assert (Hn : (n < 9007199254740992)%Z).
  { rewrite Zlt_Qlt. remember (inject_Z n) as a. clear Heqa.
    change (inject_Z 9007199254740992) with (9007199254740992 # 1). lra. }
  assert (Hn' : inject_Z n <= inject_Z 9007199254740991).
  { rewrite <- Zle_Qle. lia. }
  change (inject_Z 9007199254740991) with (9007199254740991 # 1) in Hn'.
  remember (inject_Z n) as a. clear Heqa. lra.
Qed.

(** A channel computed from a double in [0, 1) lies from the double 0.3 up
    to, but not including, 1. *)
Lemma channel_bounds x :
  is_double x = true -> 0 <= x -> x < 1 ->
  double 0.3 <= channel x /\ channel x < 1.
Proof.
  intros Hd H0 H1. pose proof (double_below_one x Hd H0 H1) as Hp.
  unfold channel, fadd, fmul.
  pose proof double_07 as E7. pose proof double_03 as E3.
  set (c7 := double 0.7) in *. set (c3 := double 0.3) in *.
  assert (Ez1 : x * c7 == x * (6305039478318694 # 9007199254740992))
    by now rewrite E7.
  set (z1 := x * c7) in *.
  (* the product, rounded *)
  assert (Hy : 0 <= RN z1 /\ RN z1 <= 6305039478318693 # 9007199254740992).
  { destruct (Qlt_le_dec 0 z1) as [Hz|Hz].
    2:{ rewrite RN_zero by lra. split; [lra | discriminate]. }
    assert (Hz1 : z1 < pow2 0) by (rewrite pow2_0; lra).
    split.
    - pose proof (RN_above_grid z1 0 0 Hz) as L.
      rewrite pow2_0 in L. change (inject_Z 0) with 0 in L.
      assert (0 <= RN z1) by (apply (Qle_trans _ (0 * 1)); [lra | apply L; [lra|]];
        pose proof (ulp_exponent_small z1 0 Hz Hz1); lia).
      assumption.
    - destruct (Qlt_le_dec z1 (1 # 2)) as [Hs|Hb].
      + pose proof (RN_below_grid z1 1 (-1) Hz) as U.
        rewrite pow2_m1 in U. change (inject_Z 1) with 1 in U.
        assert (RN z1 <= 1 * (1 # 2)).
        { apply U; [lra|].
          assert (Hz2 : z1 < pow2 (-1)) by (rewrite pow2_m1; lra).
          pose proof (ulp_exponent_small z1 (-1) Hz Hz2). lia. }
        lra.
      + assert (Hu : ulp_exponent z1 = (-53)%Z).
        { assert (A1 : pow2 (-1) <= z1) by (rewrite pow2_m1; lra).
          assert (A2 : z1 < pow2 (-1 + 1)) by (simpl Z.add; rewrite pow2_0; lra).
          exact (ulp_exponent_binade z1 (-1) Hz A1 A2 ltac:(lia)). }
        pose proof (RN_below_half z1 6305039478318693 Hz) as U.
        rewrite Hu, pow2_m53 in U.
        change (inject_Z 6305039478318693) with (6305039478318693 # 1) in U.
        assert (RN z1 <= (6305039478318693 # 1) * (1 # 9007199254740992))
          by (apply U; lra).
        lra. }
  set (y := RN z1) in *. clearbody y. clear Ez1 z1.
  set (z2 := y + c3). assert (Ez2 : z2 == y + c3) by reflexivity. clearbody z2.
  assert (Hz : 0 < z2) by lra.
  destruct (Qlt_le_dec z2 (1 # 2)) as [Hs|Hb].
  - assert (Hz2 : z2 < pow2 (-1)) by (rewrite pow2_m1; lra).
    split.
    + assert (Hu : ulp_exponent z2 = (-54)%Z).
      { assert (A1 : pow2 (-2) <= z2) by (rewrite pow2_m2; lra).
        assert (A2 : z2 < pow2 (-2 + 1)) by (simpl Z.add; rewrite pow2_m1; lra).
        exact (ulp_exponent_binade z2 (-2) Hz A1 A2 ltac:(lia)). }
      pose proof (RN_above_grid z2 5404319552844595 (-54) Hz) as L.
      rewrite Hu, pow2_m54 in L.
      change (inject_Z 5404319552844595) with (5404319552844595 # 1) in L.
      assert ((5404319552844595 # 1) * (1 # 18014398509481984) <= RN z2)
        by (apply L; [lra | lia]).
      lra.
    + pose proof (RN_below_grid z2 1 (-1) Hz) as U.
      rewrite pow2_m1 in U. change (inject_Z 1) with 1 in U.
      assert (RN z2 <= 1 * (1 # 2)).
      { apply U; [lra|]. pose proof (ulp_exponent_small z2 (-1) Hz Hz2). lia. }
      lra.
  - assert (Hu : ulp_exponent z2 = (-53)%Z).
    { assert (A1 : pow2 (-1) <= z2) by (rewrite pow2_m1; lra).
      assert (A2 : z2 < pow2 (-1 + 1)) by (simpl Z.add; rewrite pow2_0; lra).
      exact (ulp_exponent_binade z2 (-1) Hz A1 A2 ltac:(lia)). }
    split.
    + pose proof (RN_above_grid z2 1 (-1) Hz) as L.
      rewrite pow2_m1 in L. change (inject_Z 1) with 1 in L.
      assert (1 * (1 # 2) <= RN z2) by (apply L; [lra | lia]).
      lra.
    + pose proof (RN_below_half z2 9007199254740991 Hz) as U.
      rewrite Hu, pow2_m53 in U.
      change (inject_Z 9007199254740991) with (9007199254740991 # 1) in U.
      assert (RN z2 <= (9007199254740991 # 1) * (1 # 9007199254740992))
        by (apply U; lra).
      lra.
Qed.

End Binary64.

(** C10: when [Math.random] returns doubles in [0, 1), each of the three
    channels of a generated colour is computed from a draw of its own, as
    [draw * 0.7 + 0.3] in binary64 arithmetic, and lies from 0.3 (the double
    so written) up to, but not including, 1. *)
Theorem C10_colour_channels_in_range (random : nat -> Q) (calls : nat) :
  (forall i, is_double (random i) = true /\ (0 <= random i)%Q /\ (random i < 1)%Q) ->
  let c := generateColor random calls in
  (r c = fadd (fmul (random calls) (double 0.7%Q)) (double 0.3%Q) /\
   g c = fadd (fmul (random (calls + 1)) (double 0.7%Q)) (double 0.3%Q) /\
   b c = fadd (fmul (random (calls + 2)) (double 0.7%Q)) (double 0.3%Q)) /\
  ((double 0.3 <= r c)%Q /\ (r c < 1)%Q) /\
  ((double 0.3 <= g c)%Q /\ (g c < 1)%Q) /\
  ((double 0.3 <= b c)%Q /\ (b c < 1)%Q).
Proof.
  intros H c. split; [repeat split|].
  destruct (H calls) as [D0 [L0 U0]].
  destruct (H (calls + 1)) as [D1 [L1 U1]].
  destruct (H (calls + 2)) as [D2 [L2 U2]].
  repeat split; now apply channel_bounds.
Qed.

Lemma C10_colour_channels_in_range_witness :
  let random := fun _ : nat => (3 # 4)%Q in
  let c := generateColor random uuid_draws in
  (double 0.3 <= r c)%Q /\ (r c < 1)%Q.
Proof.
  intros random c.
  assert (H : forall i : nat,
            is_double (random i) = true /\ (0 <= random i)%Q /\ (random i < 1)%Q).
  { intros i. repeat split; vm_compute; congruence. }
  exact (proj1 (proj2 (C10_colour_channels_in_range random uuid_draws H))).
Defined.

(** ** Identifiers *)

Section Draws.
Local Open Scope Q_scope.

Lemma double_16 : double 16 == 16.
Proof. vm_compute. reflexivity. Qed.

Lemma pow2_m49 : pow2 (-49) == 1 # 562949953421312.
Proof. vm_compute. reflexivity. Qed.

Lemma pow2_4 : pow2 4 == 16.
Proof. reflexivity. Qed.

(** Sixteen times a draw, rounded, is still below sixteen. *)
Lemma draw_times_16 x :
  unit_draw x -> 0 <= fmul x (double 16) /\ fmul x (double 16) < 16.
Proof.
  intros [Hd [H0 H1]]. pose proof (double_below_one x Hd H0 H1) as Hp.
  unfold fmul. pose proof double_16 as E.
  set (c := double 16) in *.
  assert (Ez : x * c == x * 16) by now rewrite E.
  set (z := x * c) in *.
  destruct (Qlt_le_dec 0 z) as [Hz|Hz].
  2:{ rewrite RN_zero by lra. split; [lra | reflexivity]. }
  assert (Hz16 : z < pow2 4) by (rewrite pow2_4; lra).
  pose proof (ulp_exponent_small z 4 Hz Hz16 ltac:(lia)) as Hu.
  split.
  - pose proof (RN_above_grid z 0 0 Hz) as L.
    rewrite pow2_0 in L. change (inject_Z 0) with 0 in L.
    assert (0 * 1 <= RN z) by (apply L; [lra | lia]). lra.
  - pose proof (RN_below_grid z 9007199254740991 (-49) Hz) as U.
    rewrite pow2_m49 in U.
    change (inject_Z 9007199254740991) with (9007199254740991 # 1) in U.
    assert (RN z <= (9007199254740991 # 1) * (1 # 562949953421312))
      by (apply U; [lra | lia]).
    lra.
Qed.

End Draws.

Lemma ToInt32_small q : (0 <= q)%Q -> (q < 16)%Q -> (0 <= ToInt32 q < 16)%Z.
Proof.
  intros H0 H16. destruct q as [n d]. unfold ToInt32. simpl Qnum. simpl Qden.
  unfold Qle in H0. unfold Qlt in H16. simpl in H0, H16.
  assert (Hn : (0 <= n)%Z) by lia.
  rewrite Z.quot_div_nonneg by lia.
  assert (Hq : (0 <= n / Z.pos d < 16)%Z).
  { split; [apply Z.div_pos; lia|]. apply Z.div_lt_upper_bound; lia. }
  rewrite Z.mod_small by lia.
  destruct (2 ^ 31 <=? n / Z.pos d)%Z eqn:E; [|assumption].
  apply Z.leb_le in E. lia.
Qed.

Lemma nibble_range (random : nat -> Q) (i : nat) :
  unit_draw (random i) ->
  (0 <= ToInt32 (fmul (random i) (double 16%Q)) < 16)%Z.
Proof.
  intros H. destruct (draw_times_16 _ H). now apply ToInt32_small.
Qed.

Lemma sixteen_cases v : (0 <= v < 16)%Z ->
  v = 0%Z \/ v = 1%Z \/ v = 2%Z \/ v = 3%Z \/ v = 4%Z \/ v = 5%Z \/ v = 6%Z \/
  v = 7%Z \/ v = 8%Z \/ v = 9%Z \/ v = 10%Z \/ v = 11%Z \/ v = 12%Z \/
  v = 13%Z \/ v = 14%Z \/ v = 15%Z.
Proof. lia. Qed.

Lemma toString16_digit v :
  (0 <= v < 16)%Z -> toString16 v = String (hex_digit v) EmptyString.
Proof.
  intros H. apply sixteen_cases in H.
  repeat (destruct H as [->|H]; [reflexivity|]). subst. reflexivity.
Qed.

Lemma hex_digit_inj v w :
  (0 <= v < 16)%Z -> (0 <= w < 16)%Z -> hex_digit v = hex_digit w -> v = w.
Proof.
  intros Hv Hw. apply sixteen_cases in Hv. apply sixteen_cases in Hw.
  repeat (destruct Hv as [->|Hv]); subst;
    repeat (destruct Hw as [->|Hw]); subst; simpl; intros E;
    first [reflexivity | discriminate E].
Qed.

Lemma variant_range r : (0 <= r < 16)%Z -> (8 <= Z.lor (Z.land r 3) 8 <= 11)%Z.
Proof.
  intros H. apply sixteen_cases in H.
  repeat (destruct H as [->|H]; [simpl; lia|]). subst. simpl. lia.
Qed.

Lemma digit_printed (random : nat -> Q) (calls : nat) (c : ascii) :
  unit_draw (random calls) ->
  let r := ToInt32 (fmul (random calls) (double 16%Q)) in
  let v := if Ascii.eqb c "x" then r else Z.lor (Z.land r 3) 8 in
  (0 <= v < 16)%Z /\ (Ascii.eqb c "x" = false -> (8 <= v <= 11)%Z) /\
  toString16 v = String (hex_digit v) EmptyString.
Proof.
  intros H r v. pose proof (nibble_range random calls H) as Hr. fold r in Hr.
  pose proof (variant_range r Hr) as Hv.
  assert (Hrange : (0 <= v < 16)%Z).
  { unfold v. destruct (Ascii.eqb c "x"); lia. }
  split; [assumption|]. split.
  - intros E. unfold v. now rewrite E.
  - now apply toString16_digit.
Qed.

Lemma replace_xy_length (random : nat -> Q) s : forall calls,
  (forall i, unit_draw (random i)) ->
  String.length (replace_xy s random calls) = String.length s.
Proof.
  induction s as [|c s IH]; intros calls H; simpl; [reflexivity|].
  destruct (Ascii.eqb c "x" || Ascii.eqb c "y")%bool.
  - destruct (digit_printed random calls c (H calls)) as [_ [_ E]].
    rewrite E. simpl. f_equal. now apply IH.
  - simpl. f_equal. now apply IH.
Qed.

Lemma replace_xy_get (random : nat -> Q) s : forall calls n c,
  (forall i, unit_draw (random i)) ->
  String.get n s = Some c ->
  if Ascii.eqb c "x" then
    exists v, (0 <= v < 16)%Z /\
      String.get n (replace_xy s random calls) = Some (hex_digit v)
  else if Ascii.eqb c "y" then
    exists v, (8 <= v <= 11)%Z /\
      String.get n (replace_xy s random calls) = Some (hex_digit v)
  else String.get n (replace_xy s random calls) = Some c.
Proof.
  induction s as [|a s IH]; intros calls n c H Hget; [discriminate|].
  simpl replace_xy.
  destruct (digit_printed random calls a (H calls)) as [Hv [Hy E]].
  destruct n as [|n]; simpl in Hget.
  - inversion Hget; subst a. clear Hget.
    destruct (Ascii.eqb c "x") eqn:Ex; simpl.
    + rewrite E. simpl. eexists. split; [exact Hv | reflexivity].
    + destruct (Ascii.eqb c "y") eqn:Ey; simpl.
      * rewrite E. simpl. eexists. split; [exact (Hy eq_refl) | reflexivity].
      * reflexivity.
  - specialize (IH (if (Ascii.eqb a "x" || Ascii.eqb a "y")%bool
                    then S calls else calls) n c H Hget).
    destruct (Ascii.eqb a "x" || Ascii.eqb a "y")%bool.
    + rewrite E. simpl. exact IH.
    + simpl. exact IH.
Qed.

(** X1: with draws in [0, 1) a generated id has the 36 characters of the
    template: a hexadecimal digit for each x, one of 8, 9, a, b for the y,
    and the hyphens and the 4 where the template has them. *)
Theorem generateUUID_layout (random : nat -> Q) :
  (forall i, unit_draw (random i)) ->
  let uuid := generateUUID random in
  String.length uuid = 36 /\
  forall n c, String.get n template = Some c ->
    if Ascii.eqb c "x" then
      exists v, (0 <= v < 16)%Z /\ String.get n uuid = Some (hex_digit v)
    else if Ascii.eqb c "y" then
      exists v, (8 <= v <= 11)%Z /\ String.get n uuid = Some (hex_digit v)
    else String.get n uuid = Some c.
Proof.
  intros H uuid. split.
  - unfold uuid, generateUUID. now rewrite replace_xy_length.
  - intros n c Hc. unfold uuid, generateUUID. now apply replace_xy_get.
Qed.

Lemma generateUUID_layout_witness :
  let random := fun _ : nat => (3 # 4)%Q in
  generateUUID random = "cccccccc-cccc-4ccc-8ccc-cccccccccccc" /\
  String.length (generateUUID random) = 36.
Proof.
  intros random. split; [vm_compute; reflexivity|].
  assert (H : forall i : nat, unit_draw (random i)).
  { intros i. repeat split; vm_compute; congruence. }
  exact (proj1 (generateUUID_layout random H)).
Defined.

Lemma replace_xy_same_digits (random random' : nat -> Q) s : forall calls,
  (forall i, unit_draw (random i)) -> (forall i, unit_draw (random' i)) ->
  replace_xy s random calls = replace_xy s random' calls <->
  uuid_digits s random calls = uuid_digits s random' calls.
Proof.
  induction s as [|c s IH]; intros calls H H'; simpl; [tauto|].
  destruct (digit_printed random calls c (H calls)) as [Hv [_ E]].
  destruct (digit_printed random' calls c (H' calls)) as [Hv' [_ E']].
  destruct (Ascii.eqb c "x" || Ascii.eqb c "y")%bool.
  - rewrite E, E'. simpl. specialize (IH (S calls) H H'). split.
    + intros Eq. inversion Eq as [[Ed Er]]. f_equal.
      * now apply hex_digit_inj.
      * now apply IH.
    + intros Eq. inversion Eq as [[Ed Er]]. rewrite Ed. f_equal. now apply IH.
  - specialize (IH calls H H'). split.
    + intros Eq. inversion Eq. now apply IH.
    + intros Eq. f_equal. now apply IH.
Qed.

Lemma generateUUID_same_digits (random random' : nat -> Q) :
  (forall i, unit_draw (random i)) -> (forall i, unit_draw (random' i)) ->
  generateUUID random = generateUUID random' <->
  uuid_digits template random 0 = uuid_digits template random' 0.
Proof.
  intros H H'. unfold generateUUID. now apply replace_xy_same_digits.
Qed.

(** X2: two sequences of draws give the same id exactly when they give the
    same 31 digits: an id holds nothing of a draw but its digit. *)
Theorem generateUUID_collision (random random' : nat -> Q) :
  (forall i, unit_draw (random i)) -> (forall i, unit_draw (random' i)) ->
  List.length (uuid_digits template random 0) = 31 /\
  (generateUUID random = generateUUID random' <->
   uuid_digits template random 0 = uuid_digits template random' 0).
Proof.
  intros H H'. split; [reflexivity|].
  now apply generateUUID_same_digits.
Qed.

Lemma generateUUID_collision_witness :
  let random := fun _ : nat => (3 # 4)%Q in
  let random' := fun i : nat => (if Nat.eqb i 15 then 1 # 4 else 49 # 64)%Q in
  generateUUID random = generateUUID random'.
Proof.
  intros random random'.
  assert (H : forall i : nat, unit_draw (random i)).
  { intros i. repeat split; vm_compute; congruence. }
  assert (H' : forall i : nat, unit_draw (random' i)).
  { intros i. unfold random'. destruct (Nat.eqb i 15);
      repeat split; vm_compute; congruence. }
  apply (proj2 (generateUUID_collision random random' H H')).
  vm_compute. reflexivity.
Defined.

(** ** What one event sends, and to whom *)

Lemma has_filter h (f : Handle -> bool) l : has h (filter f l) = has h l && f h.
Proof.
  unfold has. induction l as [|a l IH]; simpl; [reflexivity|].
  destruct (f a) eqn:Ef; simpl; rewrite IH;
    destruct (Nat.eqb_spec h a) as [->|Hne]; simpl; try reflexivity.
  - now rewrite Ef.
  - rewrite Ef. now rewrite andb_false_r.
Qed.

Lemma received_to_all h l message :
  NoDup l ->
  map snd (filter (fun p : Handle * Msg => Nat.eqb (fst p) h) (to_all l message))
  = if has h l then [message] else [].
Proof.
  induction l as [|a l IH]; intros Hn; [reflexivity|].
  inversion Hn as [|? ? Hnot Hn']; subst.
  unfold has. simpl. rewrite (Nat.eqb_sym h a).
  destruct (Nat.eqb_spec a h) as [->|Hne]; simpl.
  - fold (to_all l message). now rewrite filter_not_to_ws.
  - now apply IH.
Qed.

Lemma received_broadcast h message excludeId st :
  clients st = players st -> NoDup (clients st) ->
  received h (broadcast message excludeId st)
  = received h st ++ (if reached st excludeId h then [message] else []).
Proof.
  intros Hc Hn. rewrite broadcast_sent. unfold received at 1.
  change (sent (with_sent ?l _)) with l.
  rewrite received_app. f_equal.
  rewrite received_to_all by now apply filter_NoDup_handles.
  rewrite has_filter.
  destruct (reached st excludeId h) eqn:Hr; [|now rewrite andb_false_r].
  rewrite andb_true_r.
  unfold reached in Hr. apply andb_true_iff in Hr. destruct Hr as [_ Hr].
  unfold players_get in Hr. rewrite Hc.
  destruct (has h (players st)); [reflexivity | discriminate].
Qed.

Lemma reached_open st excludeId h :
  reached st excludeId h = true -> client_open st h = true.
Proof. unfold reached. intros H. now apply andb_true_iff in H. Qed.

Lemma reached_registered st excludeId h :
  Inv st -> reached st excludeId h = open_and_differs st excludeId h.
Proof.
  intros I. unfold reached, open_and_differs, client_open, players_get.
  destruct (socket st h) as [sock|] eqn:Hs; [|reflexivity].
  destruct (readyState sock) eqn:Hr; simpl; try reflexivity.
  assert (Hin : In h (players st)).
  { apply (inv_live st I). exists sock. split; [assumption|]. congruence. }
  apply has_In in Hin. now rewrite Hin.
Qed.

Lemma reachable_ind (P : Server -> Prop) :
  P initial ->
  (forall st e, Inv st -> P st -> P (step st e)) ->
  forall events, P (run events initial).
Proof.
  intros H0 Hstep events.
  assert (H : forall st, Inv st -> P st -> P (run events st)).
  { induction events as [|e events IH]; intros st I Hst; simpl; [assumption|].
    apply IH; [now apply Inv_step | now apply Hstep]. }
  apply H; [apply Inv_initial | assumption].
Qed.

Lemma run_app events later st : run (events ++ later) st = run later (run events st).
Proof. apply fold_left_app. Qed.

Lemma has_reached st excludeId h :
  clients st = players st -> reached st excludeId h = true ->
  has h (clients st) = true.
Proof.
  intros Hc Hr. unfold reached in Hr. apply andb_true_iff in Hr.
  destruct Hr as [_ Hr]. unfold players_get in Hr. rewrite Hc.
  destruct (has h (players st)); [reflexivity | discriminate].
Qed.

Lemma received_mapped_elsewhere {A} ws h (g : A -> Handle * Msg) l :
  ws <> h -> (forall x, fst (g x) = ws) ->
  filter (fun p : Handle * Msg => Nat.eqb (fst p) h) (map g l) = [].
Proof.
  intros Hne Hg. apply filter_none. intros x Hin. apply in_map_iff in Hin.
  destruct Hin as [a [E _]]. subst x. rewrite Hg. now apply Nat.eqb_neq.
Qed.

Lemma reached_registered_old random st excludeId h :
  h <> List.length (sockets st) ->
  reached (registered random st) excludeId h = reached st excludeId h.
Proof.
  intros Hne. unfold reached, client_open.
  rewrite players_get_registered by assumption. rewrite socket_registered.
  apply Nat.eqb_neq in Hne. now rewrite Hne.
Qed.

(** What a socket that was there before hears of a new connection. *)
Lemma received_old_on_connection random st h :
  Inv st -> h < List.length (sockets st) ->
  received h (on_connection random st)
  = received h st ++
    (if reached st (Some (generateUUID random)) h then [announcement random] else []).
Proof.
  intros I Hlt. set (ws := List.length (sockets st)).
  assert (Hne : ws <> h) by (unfold ws; lia).
  assert (Hne' : h <> ws) by (unfold ws; lia).
  rewrite on_connection_eq. fold ws. unfold received at 1.
  change (sent (with_sent ?l _)) with l.
  rewrite received_app. f_equal.
  cbn [filter fst]. rewrite (proj2 (Nat.eqb_neq ws h) Hne).
  rewrite !filter_app.
  rewrite (received_mapped_elsewhere ws h) by (assumption || reflexivity).
  rewrite (received_mapped_elsewhere ws h) by (assumption || reflexivity).
  cbn [app].
  rewrite received_to_all.
  2:{ apply filter_NoDup_handles. cbn [registered clients log with_players with_clients].
      apply add_NoDup. rewrite (inv_clients st I). apply (inv_nodup st I). }
  rewrite has_filter.
  change (clients (registered random st)) with (add ws (clients st)).
  rewrite has_add_other by assumption.
  unfold ws. rewrite reached_registered_old by assumption.
  destruct (reached st (Some (generateUUID random)) h) eqn:Hr;
    [|now rewrite andb_false_r].
  now rewrite (has_reached st _ h (inv_clients st I) Hr).
Qed.

Lemma notice_only (b open : bool) (m : Msg) :
  (b = true -> open = true) -> is_init m = false ->
  (open = false -> (if b then [m] else []) = []) /\
  (forall m', In m' (if b then [m] else []) -> is_init m' = false).
Proof.
  intros Hb Hm. split.
  - intros Ho. destruct b; [|reflexivity]. rewrite Hb in Ho by reflexivity. discriminate.
  - intros m' Hin. destruct b; [|contradiction].
    destruct Hin as [<-|[]]. assumption.
Qed.

Lemma nothing_new (open : bool) :
  (open = false -> @nil Msg = []) /\
  (forall m', In m' (@nil Msg) -> is_init m' = false).
Proof. split; [reflexivity | contradiction]. Qed.

(** One event adds to what an accepted socket has received only if the
    socket is open, and never an [init]. *)
Lemma step_received st e h :
  Inv st -> h < List.length (sockets st) ->
  exists l, received h (step st e) = received h st ++ l /\
    (client_open st h = false -> l = []) /\
    (forall m, In m l -> is_init m = false).
Proof.
  intros I Hlt.
  assert (Hnone : forall s, received h s = received h st ->
    exists l, received h s = received h st ++ l /\
      (client_open st h = false -> l = []) /\
      (forall m, In m l -> is_init m = false)).
  { intros s E. exists []. rewrite app_nil_r. split; [assumption|].
    apply nothing_new. }
  destruct e as [random|ws message|ws|ws|ws error]; simpl.
  - rewrite received_old_on_connection by assumption.
    eexists. split; [reflexivity|].
    apply notice_only; [apply reached_open | reflexivity].
  - destruct (on_message_outcome ws message st)
      as [|e|sock key fa la bl Hs|sock po fo pi Hs].
    + now apply Hnone.
    + now apply Hnone.
    + rewrite received_broadcast;
        [| exact (inv_clients st I)
         | simpl; rewrite (inv_clients st I); exact (inv_nodup st I)].
      eexists. split; [reflexivity|].
      apply notice_only; [|reflexivity].
      intros Hr. apply reached_open in Hr. exact Hr.
    + destruct (set_playerData_rest ws (moved sock po fo pi) st)
        as [Ec [Ep [_ [Es _]]]].
      rewrite received_broadcast;
        [| now rewrite Ec, Ep; exact (inv_clients st I)
         | rewrite Ec, (inv_clients st I); exact (inv_nodup st I)].
      rewrite reached_moved by assumption.
      unfold received at 1. rewrite Es. fold (received h st).
      eexists. split; [reflexivity|].
      apply notice_only; [apply reached_open | reflexivity].
  - apply Hnone. destruct (client_open st ws); [|reflexivity].
    destruct (set_readyState_rest ws CLOSING st) as [_ [_ [_ [Es _]]]].
    unfold received. now rewrite Es.
  - destruct (socket st ws) as [sock|] eqn:Hsock; [|now apply Hnone].
    assert (Hclose : readyState sock <> CLOSED ->
      exists l, received h (step st (Close ws)) = received h st ++ l /\
        (client_open st h = false -> l = []) /\
        (forall m, In m l -> is_init m = false)).
    { intros Hr. rewrite (close_event_eq ws st sock I Hsock Hr).
      unfold received at 1. change (sent (with_sent ?l _)) with l.
      rewrite received_app.
      rewrite received_to_all.
      2:{ unfold remaining. apply filter_NoDup_handles, delete_NoDup.
          rewrite (inv_clients st I). exact (inv_nodup st I). }
      unfold remaining. rewrite has_filter.
      eexists. split; [reflexivity|].
      apply notice_only; [|reflexivity].
      intros Hb. now apply andb_true_iff in Hb. }
    simpl in Hclose. rewrite Hsock in Hclose.
    destruct (readyState sock); try (apply Hclose; discriminate).
    now apply Hnone.
  - apply Hnone. unfold on_error. destruct (socket st ws); reflexivity.
Qed.

(** One event leaves an accepted socket its identity; a socket that is not
    open does not open again; a record is changed only by a message of its
    own socket. *)
Lemma step_socket st e h sock :
  socket st h = Some sock ->
  exists sock',
    socket (step st e) h = Some sock' /\
    playerId sock' = playerId sock /\
    id (playerData sock') = id (playerData sock) /\
    color (playerData sock') = color (playerData sock) /\
    (readyState sock <> OPEN -> readyState sock' <> OPEN) /\
    (is_message_of h e = false -> playerData sock' = playerData sock).
Proof.
  intros Hs.
  assert (Hsame : forall s, socket s h = socket st h ->
    exists sock',
      socket s h = Some sock' /\
      playerId sock' = playerId sock /\
      id (playerData sock') = id (playerData sock) /\
      color (playerData sock') = color (playerData sock) /\
      (readyState sock <> OPEN -> readyState sock' <> OPEN) /\
      (is_message_of h e = false -> playerData sock' = playerData sock)).
  { intros s E. exists sock. rewrite E. repeat split; auto. }
  destruct e as [random|ws message|ws|ws|ws error]; simpl step.
  - apply Hsame. rewrite socket_on_connection.
    pose proof (socket_bound st h sock Hs) as Hb.
    destruct (Nat.eqb_spec h (List.length (sockets st))); [lia | reflexivity].
  - destruct (on_message_outcome ws message st)
      as [|e|sock0 key fa la bl Hs0|sock0 po fo pi Hs0].
    + now apply Hsame.
    + now apply Hsame.
    + apply Hsame. rewrite broadcast_sent. reflexivity.
    + rewrite broadcast_sent.
      change (socket (with_sent ?l ?s) h) with (socket s h).
      rewrite socket_set_playerData.
      destruct (Nat.eqb_spec h ws) as [->|Hne].
      * rewrite Hs0. rewrite Hs in Hs0. inversion Hs0; subst sock0.
        eexists. split; [reflexivity|]. simpl. repeat split; auto.
        rewrite Nat.eqb_refl. discriminate.
      * exists sock. repeat split; auto.
  - destruct (client_open st ws); [|now apply Hsame].
    rewrite socket_set_readyState.
    destruct (Nat.eqb_spec h ws) as [->|Hne].
    + rewrite Hs. eexists. split; [reflexivity|]. simpl. repeat split; auto.
      intros _. discriminate.
    + exists sock. repeat split; auto.
  - destruct (socket st ws) as [sock0|] eqn:Hsock; [|now apply Hsame].
    assert (Hclose :
      exists sock',
        socket (on_close ws (closed_by_transport ws st)) h = Some sock' /\
        playerId sock' = playerId sock /\
        id (playerData sock') = id (playerData sock) /\
        color (playerData sock') = color (playerData sock) /\
        (readyState sock <> OPEN -> readyState sock' <> OPEN) /\
        (is_message_of h (Close ws) = false -> playerData sock' = playerData sock)).
    { rewrite (on_close_eq ws st sock0 Hsock).
      change (socket _ h) with (socket (set_readyState ws CLOSED st) h).
      rewrite socket_set_readyState.
      destruct (Nat.eqb_spec h ws) as [->|Hne].
      - rewrite Hs. eexists. split; [reflexivity|]. simpl. repeat split; auto.
        intros _. discriminate.
      - exists sock. repeat split; auto. }
    destruct (readyState sock0); try exact Hclose.
    now apply Hsame.
  - apply Hsame. unfold on_error. destruct (socket st ws); reflexivity.
Qed.

Lemma run_socket later : forall st h sock,
  socket st h = Some sock ->
  exists sock',
    socket (run later st) h = Some sock' /\
    playerId sock' = playerId sock /\
    id (playerData sock') = id (playerData sock) /\
    color (playerData sock') = color (playerData sock) /\
    (readyState sock <> OPEN -> readyState sock' <> OPEN) /\
    (forallb (fun e => negb (is_message_of h e)) later = true ->
     playerData sock' = playerData sock).
Proof.
  induction later as [|e later IH]; intros st h sock Hs; simpl.
  - exists sock. repeat split; auto.
  - destruct (step_socket st e h sock Hs)
      as [sock1 [Hs1 [Hp1 [Hi1 [Hc1 [Ho1 Hd1]]]]]].
    destruct (IH (step st e) h sock1 Hs1)
      as [sock2 [Hs2 [Hp2 [Hi2 [Hc2 [Ho2 Hd2]]]]]].
    exists sock2. split; [assumption|].
    split; [congruence|]. split; [congruence|]. split; [congruence|].
    split; [auto|].
    intros Hall. apply andb_true_iff in Hall. destruct Hall as [He Hall].
    apply negb_true_iff in He. rewrite Hd2, Hd1 by assumption. reflexivity.
Qed.

Lemma received_notice h st excludeId message :
  Inv st ->
  map snd
    (filter (fun p : Handle * Msg => Nat.eqb (fst p) h)
       (sent st ++ to_all (filter (reached st excludeId) (clients st)) message))
  = received h st ++ (if open_and_differs st excludeId h then [message] else []).
Proof.
  intros I. rewrite received_app. f_equal.
  rewrite received_to_all.
  2:{ apply filter_NoDup_handles. rewrite (inv_clients st I). exact (inv_nodup st I). }
  rewrite has_filter, <- (reached_registered st excludeId h I).
  destruct (reached st excludeId h) eqn:Hr; [|now rewrite andb_false_r].
  now rewrite (has_reached st _ h (inv_clients st I) Hr).
Qed.

Lemma own_id_excluded st ws sock :
  Inv st -> socket st ws = Some sock ->
  open_and_differs st (Some (playerId sock)) ws = false.
Proof.
  intros I Hs. unfold open_and_differs. rewrite Hs. simpl.
  rewrite (inv_id st I ws sock Hs), String.eqb_refl. apply andb_false_r.
Qed.

(** ** The broadcast functions *)

(** X3: in a state the server can be in, [broadcast] changes nothing but
    what has been sent, and sends one copy of the message to each socket that
    is open and whose record carries another id than the excluded one, and
    nothing to any other socket: an open socket is always registered. *)
Theorem broadcast_reaches_the_open_sockets (events : list Event) (message : Msg)
    (excludeId : option string) :
  let st := run events initial in
  let st' := broadcast message excludeId st in
  (sockets st' = sockets st /\ clients st' = clients st /\
   players st' = players st /\ worldChanges st' = worldChanges st /\
   console st' = console st) /\
  forall h,
    received h st'
    = received h st ++ (if open_and_differs st excludeId h then [message] else []).
Proof.
  intros st st'. pose proof (Inv_reachable events) as I. fold st in I.
  split.
  - unfold st'. rewrite broadcast_sent. repeat split.
  - intros h. unfold st'.
    rewrite received_broadcast;
      [| exact (inv_clients st I)
       | rewrite (inv_clients st I); exact (inv_nodup st I)].
    now rewrite reached_registered.
Qed.

(** X4: in a state the server can be in, [broadcastAll] does what
    [broadcast] does with no id excluded. *)
Theorem broadcastAll_is_broadcast (events : list Event) (message : Msg) :
  let st := run events initial in
  broadcastAll message st = broadcast message None st.
Proof.
  intros st. pose proof (Inv_reachable events) as I. fold st in I.
  rewrite broadcast_sent, broadcastAll_sent. f_equal. f_equal. f_equal.
  apply filter_ext. intros c. rewrite reached_registered by assumption.
  unfold open_and_differs, client_open.
  destruct (socket st c); [now rewrite andb_true_r | reflexivity].
Qed.

(** ** Sockets that are closing or closed *)

Lemma quiet_when_not_open later : forall st h sock,
  Inv st -> socket st h = Some sock -> readyState sock <> OPEN ->
  received h (run later st) = received h st.
Proof.
  induction later as [|e later IH]; intros st h sock I Hs Hr; simpl; [reflexivity|].
  destruct (step_socket st e h sock Hs) as [sock1 [Hs1 [_ [_ [_ [Ho1 _]]]]]].
  rewrite (IH (step st e) h sock1); [| now apply Inv_step | assumption | auto].
  destruct (step_received st e h I (socket_bound st h sock Hs)) as [l [El [Hl _]]].
  rewrite El, Hl; [apply app_nil_r|].
  unfold client_open. rewrite Hs.
  destruct (readyState sock); try reflexivity. congruence.
Qed.

(** X5: once a socket is closing or closed, nothing is sent to it any more,
    whatever happens afterwards. *)
Theorem nothing_is_sent_to_a_socket_that_is_not_open (events later : list Event)
    (h : Handle) (sock : Socket) :
  let st := run events initial in
  socket st h = Some sock ->
  readyState sock <> OPEN ->
  received h (run later st) = received h st.
Proof.
  intros st Hs Hr. apply (quiet_when_not_open later st h sock); try assumption.
  apply Inv_reachable.
Qed.

Lemma nothing_is_sent_to_a_socket_that_is_not_open_witness :
  let r0 := fun _ : nat => 0.25%Q in
  let r1 := fun _ : nat => 0.75%Q in
  let st := run [Connection r0; Connection r1; Closing 0] initial in
  let later :=
    [Message 1 (Parsed (VObj [("type", VStr "position");
                              ("position", VArr [num 1; num 2; num 3])]));
     Message 1 (blockChangeMessage (num 2) (num 5) (VStr "stone"));
     Close 1; Connection (fun _ : nat => 0.5%Q)] in
  received 0 st
  = [init (generateUUID r0) (generateColor r0 uuid_draws); announcement r1] /\
  received 0 (run later st) = received 0 st.
Proof.
  intros r0 r1 st later. split; [vm_compute; reflexivity|].
  assert (H1 : socket st 0
               = Some {| readyState := CLOSING; playerId := generateUUID r0;
                         playerData := new_record r0 |})
    by (vm_compute; reflexivity).
  assert (H2 : CLOSING <> OPEN) by discriminate.
  exact (nothing_is_sent_to_a_socket_that_is_not_open
           [Connection r0; Connection r1; Closing 0] later 0 _ H1 H2).
Defined.






(** ** Identity and records *)

Lemma new_socket_fields random :
  playerId (new_socket random) = generateUUID random /\
  id (playerData (new_socket random)) = generateUUID random /\
  color (playerData (new_socket random)) = generateColor random uuid_draws.
Proof.
  unfold new_socket, new_record.
  generalize (generateUUID random), (generateColor random uuid_draws).
  intros u c. repeat split.
Qed.

(** X6: the id and the colour a socket gets when it connects are those of
    its record for good: no later event, and no message of any client,
    changes them. *)
Theorem identity_is_for_life (events later : list Event) (random : nat -> Q) :
  let st := run events initial in
  let ws := List.length (sockets st) in
  let st' := run later (step st (Connection random)) in
  exists sock,
    socket st' ws = Some sock /\
    playerId sock = generateUUID random /\
    id (playerData sock) = generateUUID random /\
    color (playerData sock) = generateColor random uuid_draws.
Proof.
  intros st ws st'.
  assert (Hs : socket (step st (Connection random)) ws = Some (new_socket random)).
  { simpl step. rewrite socket_on_connection. unfold ws. now rewrite Nat.eqb_refl. }
  destruct (run_socket later _ ws _ Hs) as [sock [H1 [H2 [H3 [H4 _]]]]].
  destruct (new_socket_fields random) as [E2 [E3 E4]].
  exists sock. split; [exact H1|]. rewrite H2, H3, H4.
  split; [exact E2|]. split; [exact E3 | exact E4].
Qed.

(** X7: the record of a socket is changed by the messages of that socket
    alone: over any events among which there is no message of socket [h],
    the record of [h] stays as it is. *)
Theorem record_changes_only_by_its_owner (st : Server) (later : list Event)
    (h : Handle) (sock : Socket) :
  socket st h = Some sock ->
  forallb (fun e => negb (is_message_of h e)) later = true ->
  option_map playerData (socket (run later st) h) = Some (playerData sock).
Proof.
  intros Hs Hall.
  destruct (run_socket later st h sock Hs) as [sock' [Hs' [_ [_ [_ [_ Hd]]]]]].
  rewrite Hs'. simpl. now rewrite Hd.
Qed.

Lemma record_changes_only_by_its_owner_witness :
  let r0 := fun _ : nat => 0.25%Q in
  let r1 := fun _ : nat => 0.75%Q in
  let st := run [Connection r0; Connection r1] initial in
  let later :=
    [Message 1 (Parsed (VObj [("type", VStr "position");
                              ("id", VStr "someone else");
                              ("position", VArr [num 1; num 2; num 3])]));
     Closing 0; Connection (fun _ : nat => 0.5%Q); Error 0 "reset"; Close 1] in
  option_map playerData (socket (run later st) 0) = Some (new_record r0).
Proof.
  intros r0 r1 st later.
  assert (H1 : socket st 0 = Some (new_socket r0)) by (vm_compute; reflexivity).
  assert (H2 : forallb (fun e => negb (is_message_of 0 e)) later = true)
    by reflexivity.
  exact (record_changes_only_by_its_owner st later 0 _ H1 H2).
Defined.

(** ** Who hears of a block change and of a new player *)

(** X8: a block change is sent on as one [blockChange] to each other socket
    that is open and whose record carries another id than the sender's;
    nothing of it goes to the sender or to any other socket. *)
Theorem block_change_reaches_the_others (events : list Event) (ws : Handle)
    (sock : Socket) (props : list (string * JSValue)) (key : string) :
  let st := run events initial in
  socket st ws = Some sock ->
  own "type" props = Some (VStr "blockChange") ->
  key_of (property props "face") (property props "layer") = Ok key ->
  let st' := on_message ws (Parsed (VObj props)) st in
  let notice := blockChange (property props "face") (property props "layer")
                  (property props "block") in
  received ws st' = received ws st /\
  forall c,
    received c st'
    = received c st ++
      (if open_and_differs st (Some (playerId sock)) c then [notice] else []).
Proof.
  intros st Hs Htype Hkey st' notice.
  pose proof (Inv_reachable events) as I. fold st in I.
  assert (H : forall c,
    received c st'
    = received c st ++
      (if open_and_differs st (Some (playerId sock)) c then [notice] else [])).
  { intros c. unfold st'.
    rewrite (on_message_blockChange_object ws st sock props Hs Htype), Hkey.
    unfold received at 1. change (sent (with_sent ?l _)) with l.
    now apply received_notice. }
  split; [|assumption].
  rewrite H, (own_id_excluded st ws sock I Hs). apply app_nil_r.
Qed.

Lemma block_change_reaches_the_others_witness :
  let r0 := fun _ : nat => 0.25%Q in
  let events := [Connection r0; Connection (fun _ : nat => 0.5%Q);
                 Connection (fun _ : nat => 0.75%Q); Closing 2] in
  let st := run events initial in
  let props := [("type", VStr "blockChange"); ("face", num 2); ("layer", num 5);
                ("block", VStr "stone")] in
  let st' := on_message 0 (Parsed (VObj props)) st in
  received 0 st' = received 0 st /\
  received 1 st' = received 1 st ++ [blockChange (num 2) (num 5) (VStr "stone")] /\
  received 2 st' = received 2 st.
Proof.
  intros r0 events st props st'.
  assert (H1 : socket st 0 = Some (new_socket r0)) by (vm_compute; reflexivity).
  assert (H2 : own "type" props = Some (VStr "blockChange")) by reflexivity.
  assert (H3 : key_of (property props "face") (property props "layer") = Ok "2_5")
    by reflexivity.
  split; [exact (proj1 (block_change_reaches_the_others events 0 _ props _ H1 H2 H3))|].
  split; vm_compute; reflexivity.
Defined.

(** X9: a new connection is announced by one [playerJoin], with the new id
    and colour and the starting position, to each socket that was there
    before, is open and whose record carries another id; the other sockets
    that were there before get nothing. *)
Theorem join_is_announced_to_the_others (events : list Event) (random : nat -> Q)
    (c : Handle) :
  let st := run events initial in
  let st' := step st (Connection random) in
  let notice :=
    playerJoin (generateUUID random) (generateColor random uuid_draws)
      (VArr [num 0; num 102; num 0]) (VArr [num 0; num 0; num (-1)]) (num 0) in
  c < List.length (sockets st) ->
  received c st'
  = received c st ++
    (if open_and_differs st (Some (generateUUID random)) c then [notice] else []).
Proof.
  intros st st' notice Hlt.
  pose proof (Inv_reachable events) as I. fold st in I.
  unfold st'. simpl step. rewrite received_old_on_connection by assumption.
  now rewrite reached_registered.
Qed.

Lemma join_is_announced_to_the_others_witness :
  let r0 := fun _ : nat => 0.25%Q in
  let r1 := fun _ : nat => 0.75%Q in
  let st := run [Connection r0] initial in
  received 0 (step st (Connection r1))
  = [init (generateUUID r0) (generateColor r0 uuid_draws);
     playerJoin (generateUUID r1) (generateColor r1 uuid_draws)
       (VArr [num 0; num 102; num 0]) (VArr [num 0; num 0; num (-1)]) (num 0)].
Proof.
  intros r0 r1 st.
  assert (H1 : 0 < List.length (sockets st)) by (vm_compute; lia).
  assert (H2 : received 0 st = [init (generateUUID r0) (generateColor r0 uuid_draws)])
    by (vm_compute; reflexivity).
  assert (H3 : open_and_differs st (Some (generateUUID r1)) 0 = true)
    by (vm_compute; reflexivity).
  pose proof (join_is_announced_to_the_others [Connection r0] r1 0 H1) as H.
  cbv zeta in H. fold st in H. rewrite H2, H3 in H. exact H.
Defined.

(** ** What a newcomer is told *)

Lemma forallb_both {A} (f g : A -> bool) l :
  forallb (fun x => f x && g x) l = true ->
  forallb f l = true /\ forallb g l = true.
Proof.
  induction l as [|a l IH]; simpl; [tauto|].
  rewrite !andb_true_iff. tauto.
Qed.

Lemma players_stay later : forall st h,
  Inv st -> In h (players st) ->
  forallb (fun e => negb (is_close_of h e)) later = true ->
  In h (players (run later st)).
Proof.
  induction later as [|e later IH]; intros st h I Hin Hall; simpl; [assumption|].
  simpl in Hall. apply andb_true_iff in Hall. destruct Hall as [He Hall].
  apply IH; [now apply Inv_step | | assumption].
  destruct (step_registry st e I) as [Ep _]. rewrite Ep.
  destruct e as [random|ws message|ws|ws|ws error]; try assumption.
  - apply in_or_app. now left.
  - apply filter_In. split; [assumption|]. simpl in He. now rewrite Nat.eqb_sym.
Qed.

Lemma snapshot_In st h sock :
  Inv st -> In h (players st) -> socket st h = Some sock ->
  In (playerData sock) (snapshot st).
Proof.
  intros I Hin Hs. unfold snapshot. apply in_flat_map. exists h.
  split; [assumption|].
  destruct (Inv_players_get st h I Hin) as [s [Hs' Hget]].
  rewrite Hget. left. congruence.
Qed.

(** X10: a player's last position message is what a newcomer is told of
    that player: as long as the player's socket has not closed, whatever
    the others did in between, the handshake of a new connection holds the
    [playerJoin] with the player's id and colour and the position, forward
    and pitch of that message. *)
Theorem newcomer_sees_the_latest_position (events later : list Event)
    (random : nat -> Q) (h : Handle) (sock : Socket)
    (props : list (string * JSValue)) :
  let st := run events initial in
  socket st h = Some sock ->
  In h (players st) ->
  own "type" props = Some (VStr "position") ->
  forallb (fun e => negb (is_message_of h e) && negb (is_close_of h e)) later = true ->
  let st1 := run later (on_message h (Parsed (VObj props)) st) in
  let ws := List.length (sockets st1) in
  In (playerJoin (playerId sock) (color (playerData sock))
        (property props "position") (property props "forward")
        (or_else (property props "pitch") (num 0)))
     (received ws (step st1 (Connection random))).
Proof.
  intros st Hs Hin Htype Hall st1 ws.
  pose proof (Inv_reachable events) as I. fold st in I.
  apply forallb_both in Hall. destruct Hall as [Hmsg Hclose].
  set (st0 := on_message h (Parsed (VObj props)) st).
  assert (I0 : Inv st0) by now apply Inv_on_message.
  assert (Hs0 : socket st0 h
                = Some {| readyState := readyState sock; playerId := playerId sock;
                          playerData := moved sock (property props "position")
                                          (property props "forward")
                                          (property props "pitch") |}).
  { unfold st0. rewrite (on_message_position_object h st sock props Hs Htype).
    change (socket (with_sent ?l ?s) h) with (socket s h).
    rewrite socket_set_playerData, Nat.eqb_refl, Hs. reflexivity. }
  assert (Hin0 : In h (players st0)).
  { unfold st0. destruct (on_message_registry h (Parsed (VObj props)) st) as [_ [Ep _]].
    now rewrite Ep. }
  destruct (run_socket later st0 h _ Hs0) as [sock1 [Hs1 [_ [_ [_ [_ Hd]]]]]].
  specialize (Hd Hmsg). simpl in Hd.
  assert (I1 : Inv st1) by now apply Inv_run.
  assert (Hin1 : In h (players st1)) by now apply players_stay.
  pose proof (snapshot_In st1 h sock1 I1 Hin1 Hs1) as Hsnap.
  simpl step. unfold ws. rewrite received_on_connection by assumption.
  right. apply in_or_app. left.
  apply in_map_iff. exists (playerData sock1). split; [|assumption].
  rewrite Hd. unfold joinOf, moved. simpl.
  rewrite or_else_idem, (inv_id st I h sock Hs). reflexivity.
Qed.

Lemma newcomer_sees_the_latest_position_witness :
  let r0 := fun _ : nat => 0.25%Q in
  let r1 := fun _ : nat => 0.75%Q in
  let events := [Connection r0; Connection r1] in
  let props := [("type", VStr "position");
                ("position", VArr [num 1; num 2; num 3]);
                ("forward", VArr [num 0; num 0; num 1])] in
  let later := [Message 1 (blockChangeMessage (num 2) (num 5) (VStr "stone"));
                Closing 0; Close 1] in
  let st1 := run later (on_message 0 (Parsed (VObj props)) (run events initial)) in
  In (playerJoin (generateUUID r0) (generateColor r0 uuid_draws)
        (VArr [num 1; num 2; num 3]) (VArr [num 0; num 0; num 1]) (num 0))
     (received 2 (step st1 (Connection (fun _ : nat => 0.5%Q)))).
Proof.
  intros r0 r1 events props later st1.
  assert (H1 : socket (run events initial) 0 = Some (new_socket r0))
    by (vm_compute; reflexivity).
  assert (H2 : In 0 (players (run events initial))) by (vm_compute; auto).
  assert (H3 : own "type" props = Some (VStr "position")) by reflexivity.
  assert (H4 : forallb (fun e => negb (is_message_of 0 e) && negb (is_close_of 0 e))
                 later = true) by reflexivity.
  assert (H5 : List.length (sockets st1) = 2) by (vm_compute; reflexivity).
  pose proof (newcomer_sees_the_latest_position events later
                (fun _ : nat => 0.5%Q) 0 _ props H1 H2 H3 H4) as H.
  cbv zeta in H. fold st1 in H. rewrite H5 in H.
  assert (H6 : playerJoin (playerId (new_socket r0)) (color (playerData (new_socket r0)))
                 (property props "position") (property props "forward")
                 (or_else (property props "pitch") (num 0))
               = playerJoin (generateUUID r0) (generateColor r0 uuid_draws)
                   (VArr [num 1; num 2; num 3]) (VArr [num 0; num 0; num 1]) (num 0))
    by (vm_compute; reflexivity).
  rewrite H6 in H. exact H.
Defined.

Lemma Map_get_has key m :
  In key (map fst m) -> exists value, Map_get key m = Some value.
Proof.
  induction m as [|[k v] m IH]; simpl; [contradiction|].
  intros [E|Hin].
  - subst k. rewrite String.eqb_refl. now exists v.
  - destruct (String.eqb k key); [now exists v | now apply IH].
Qed.

(** X11: a block change that has been stored is told to every newcomer:
    whatever happens afterwards, the handshake of a new connection holds the
    [worldState] with all the entries of the store, among them one for the
    key of that change, with the block the store then holds for it. *)
Theorem newcomer_gets_the_stored_blocks (events later : list Event)
    (random : nat -> Q) (ws : Handle) (sock : Socket)
    (face layer block : JSValue) (key : string) :
  let st := run events initial in
  socket st ws = Some sock ->
  key_of face layer = Ok key ->
  let st1 := run later (on_message ws (blockChangeMessage face layer block) st) in
  let new := List.length (sockets st1) in
  In (worldState (changes (worldChanges st1)))
     (received new (step st1 (Connection random))) /\
  exists value,
    Map_get key (worldChanges st1) = Some value /\
    In (decode (key, value)) (changes (worldChanges st1)) /\
    (later = [] -> value = block).
Proof.
  intros st Hs Hkey st1 new.
  pose proof (Inv_reachable events) as I. fold st in I.
  set (st0 := on_message ws (blockChangeMessage face layer block) st).
  assert (I1 : Inv st1) by (apply Inv_run; now apply Inv_on_message).
  assert (E0 : worldChanges st0 = Map_set key block (worldChanges st)).
  { unfold st0. now apply (worldChanges_blockChange ws st sock). }
  assert (Hin : In key (map fst (worldChanges st1))).
  { unfold st1. apply worldChanges_run. fold st0. rewrite E0. apply Map_set_has. }
  split.
  - simpl step. unfold new. rewrite received_on_connection by assumption.
    right. apply in_or_app. right. unfold world_replay.
    destruct (worldChanges st1); [contradiction | now left].
  - destruct (Map_get_has key _ Hin) as [value Hget]. exists value.
    split; [assumption|]. split.
    + unfold changes. apply in_map. now apply Map_get_In.
    + intros ->. unfold st1 in Hget. simpl in Hget. fold st0 in Hget.
      rewrite E0, Map_get_set in Hget. congruence.
Qed.

Lemma newcomer_gets_the_stored_blocks_witness :
  let r0 := fun _ : nat => 0.25%Q in
  let events := [Connection r0] in
  let later := [Message 0 (blockChangeMessage (num 7) (num 8) (VStr "sand"));
                Close 0] in
  let st1 := run later
               (on_message 0 (blockChangeMessage (num 2) (num 5) (VStr "stone"))
                  (run events initial)) in
  In (worldState
        [{| face := Some (Exactly 2); layer := Some (Exactly 5); block := VStr "stone" |};
         {| face := Some (Exactly 7); layer := Some (Exactly 8); block := VStr "sand" |}])
     (received 1 (step st1 (Connection (fun _ : nat => 0.75%Q)))).
Proof.
  intros r0 events later st1.
  assert (H1 : socket (run events initial) 0 = Some (new_socket r0))
    by (vm_compute; reflexivity).
  assert (H2 : key_of (num 2) (num 5) = Ok "2_5") by reflexivity.
  assert (H3 : List.length (sockets st1) = 1) by (vm_compute; reflexivity).
  assert (H4 : changes (worldChanges st1)
               = [{| face := Some (Exactly 2); layer := Some (Exactly 5);
                     block := VStr "stone" |};
                  {| face := Some (Exactly 7); layer := Some (Exactly 8);
                     block := VStr "sand" |}]) by (vm_compute; reflexivity).
  pose proof (proj1 (newcomer_gets_the_stored_blocks events later
                (fun _ : nat => 0.75%Q) 0 _ (num 2) (num 5) (VStr "stone") _ H1 H2)) as H.
  fold st1 in H. rewrite H3, H4 in H. exact H.
Defined.

(** ** The handshake is not repeated *)

Lemma handshake_has_one_init st :
  forallb (fun m => negb (is_init m)) (map joinOf (snapshot st) ++ world_replay st)
  = true.
Proof.
  apply forallb_forall. intros m Hin. apply in_app_iff in Hin.
  destruct Hin as [Hin|Hin].
  - apply in_map_iff in Hin. destruct Hin as [d [<- _]]. reflexivity.
  - unfold world_replay in Hin. destruct (worldChanges st); [contradiction|].
    destruct Hin as [<-|[]]. reflexivity.
Qed.

Lemma one_init_step st e :
  Inv st ->
  (forall h sock, socket st h = Some sock ->
     exists rest,
       received h st = init (playerId sock) (color (playerData sock)) :: rest /\
       forallb (fun m => negb (is_init m)) rest = true) ->
  forall h sock, socket (step st e) h = Some sock ->
    exists rest,
      received h (step st e) = init (playerId sock) (color (playerData sock)) :: rest /\
      forallb (fun m => negb (is_init m)) rest = true.
Proof.
  intros I IH h sock Hs.
  destruct (Nat.lt_ge_cases h (List.length (sockets st))) as [Hlt|Hge].
  - destruct (nth_error (sockets st) h) as [sock0|] eqn:Hs0.
    2:{ apply nth_error_None in Hs0. lia. }
    destruct (step_socket st e h sock0 Hs0) as [sock' [Hs' [Hp [_ [Hc _]]]]].
    rewrite Hs in Hs'. inversion Hs'; subst sock'.
    destruct (IH h sock0 Hs0) as [rest [Er Hr]].
    destruct (step_received st e h I Hlt) as [l [El [_ Hl]]].
    exists (rest ++ l). rewrite El, Er, Hp, Hc. split; [reflexivity|].
    rewrite forallb_app, Hr. simpl. apply forallb_forall. intros m Hm.
    now rewrite (Hl m Hm).
  - pose proof (socket_bound _ h sock Hs) as Hb.
    destruct (step_registry st e I) as [_ El].
    destruct e as [random|ws message|ws|ws|ws error]; try lia.
    assert (h = List.length (sockets st)) as -> by lia.
    simpl step in *. rewrite socket_on_connection, Nat.eqb_refl in Hs.
    inversion Hs; subst sock.
    destruct (new_socket_fields random) as [E2 [_ E4]]. rewrite E2, E4.
    rewrite received_on_connection by assumption.
    eexists. split; [reflexivity|]. apply handshake_has_one_init.
Qed.


(** X12: every accepted socket has been sent exactly one [init]: it is the
    first message the socket was sent, and it carries the id and the colour
    of the socket's record. *)
Theorem one_init_per_socket (events : list Event) (h : Handle) (sock : Socket) :
  let st := run events initial in
  socket st h = Some sock ->
  exists rest,
    received h st = init (playerId sock) (color (playerData sock)) :: rest /\
    forallb (fun m => negb (is_init m)) rest = true.
Proof.
  intros st. unfold st. clear st. revert h sock.
  apply (reachable_ind (fun st => forall h sock, socket st h = Some sock ->
    exists rest,
      received h st = init (playerId sock) (color (playerData sock)) :: rest /\
      forallb (fun m => negb (is_init m)) rest = true)).
  - intros h sock Hs. destruct h; discriminate.
  - intros st e I IH. now apply one_init_step.
Qed.

Lemma one_init_per_socket_witness :
  let r0 := fun _ : nat => 0.25%Q in
  let r1 := fun _ : nat => 0.75%Q in
  let events :=
    [Connection r0; Connection r1;
     Message 1 (blockChangeMessage (num 2) (num 5) (VStr "stone")); Close 1] in
  received 0 (run events initial)
  = [init (generateUUID r0) (generateColor r0 uuid_draws);
     announcement r1;
     blockChange (num 2) (num 5) (VStr "stone");
     playerLeave (generateUUID r1)] /\
  exists rest,
    received 0 (run events initial)
    = init (generateUUID r0) (generateColor r0 uuid_draws) :: rest /\
    forallb (fun m => negb (is_init m)) rest = true.
Proof.
  intros r0 r1 events. split; [vm_compute; reflexivity|].
  assert (H1 : socket (run events initial) 0 = Some (new_socket r0))
    by (vm_compute; reflexivity).
  destruct (new_socket_fields r0) as [E2 [_ E4]].
  rewrite <- E2, <- E4.
  exact (one_init_per_socket events 0 _ H1).
Defined.

(** ** The console *)

Lemma count_app {A} (f : A -> bool) l l' :
  List.length (filter f (l ++ l')) = List.length (filter f l) + List.length (filter f l').
Proof. now rewrite filter_app, length_app. Qed.

Lemma console_step st e :
  Inv st ->
  List.length (filter is_connected_line (console st)) = List.length (sockets st) /\
  List.length (filter is_connected_line (console st))
  = List.length (filter is_disconnected_line (console st)) + List.length (players st) ->
  List.length (filter is_connected_line (console (step st e)))
  = List.length (sockets (step st e)) /\
  List.length (filter is_connected_line (console (step st e)))
  = List.length (filter is_disconnected_line (console (step st e)))
    + List.length (players (step st e)).
Proof.
  intros I [H1 H2].
  destruct e as [random|ws message|ws|ws|ws error]; simpl step.
  - rewrite on_connection_eq.
    cbn [console sockets players with_sent registered log with_players with_clients
         with_sockets].
    rewrite add_fresh by now apply Inv_new_handle.
    rewrite !count_app, !length_app. simpl. lia.
  - destruct (on_message_outcome ws message st)
      as [|e|sock key fa la bl Hs|sock po fo pi Hs].
    + now split.
    + cbn [console sockets players log]. rewrite !count_app. simpl. lia.
    + rewrite broadcast_sent. now split.
    + rewrite broadcast_sent.
      cbn [console sockets players with_sent].
      destruct (set_playerData_rest ws (moved sock po fo pi) st)
        as [_ [Ep [_ [_ Ec]]]].
      rewrite Ep, Ec, sockets_length_set_playerData. now split.
  - destruct (client_open st ws); [|now split].
    destruct (set_readyState_rest ws CLOSING st) as [_ [Ep [_ [_ Ec]]]].
    rewrite Ep, Ec, sockets_length_set_readyState. now split.
  - destruct (socket st ws) as [sock|] eqn:Hsock; [|now split].
    assert (Hclose : readyState sock <> CLOSED ->
      List.length (filter is_connected_line (console (step st (Close ws))))
      = List.length (sockets (step st (Close ws))) /\
      List.length (filter is_connected_line (console (step st (Close ws))))
      = List.length (filter is_disconnected_line (console (step st (Close ws))))
        + List.length (players (step st (Close ws)))).
    { intros Hr. rewrite (close_event_eq ws st sock I Hsock Hr).
      cbn [console sockets players with_sent with_players log closed_by_transport
           with_clients].
      destruct (set_readyState_rest ws CLOSED st) as [_ [_ [_ [_ Ec]]]].
      rewrite Ec, sockets_length_set_readyState, !count_app. simpl.
      assert (Hin : In ws (players st)).
      { apply (inv_live st I). now exists sock. }
      pose proof (delete_length ws (players st) (inv_nodup st I) Hin). lia. }
    simpl step in Hclose. rewrite Hsock in Hclose.
    destruct (readyState sock); try (apply Hclose; discriminate).
    now split.
  - unfold on_error. destruct (socket st ws); [|now split].
    cbn [console sockets players log]. rewrite !count_app. simpl. lia.
Qed.

(** X13: the console keeps count: it holds one "connected" line for each
    socket ever accepted, and the "connected" lines are as many as the
    "disconnected" lines and the registered players together. *)
Theorem console_counts_the_players (events : list Event) :
  let st := run events initial in
  let connected := List.length (filter is_connected_line (console st)) in
  let disconnected := List.length (filter is_disconnected_line (console st)) in
  connected = List.length (sockets st) /\
  connected = disconnected + List.length (players st).
Proof.
  cbv zeta.
  apply (reachable_ind (fun st =>
    List.length (filter is_connected_line (console st)) = List.length (sockets st) /\
    List.length (filter is_connected_line (console st))
    = List.length (filter is_disconnected_line (console st))
      + List.length (players st))).
  - now split.
  - intros st e I IH. now apply console_step.
Qed.

(** ** Colliding ids *)

(** X14: a socket whose id is the id of another socket hears nothing of
    what that other socket sends: no position and no block change of the one
    is sent on to the other. *)
Theorem same_id_hears_nothing (events : list Event) (ws c : Handle)
    (sock sock' : Socket) (message : Payload) :
  let st := run events initial in
  socket st ws = Some sock ->
  socket st c = Some sock' ->
  playerId sock' = playerId sock ->
  received c (on_message ws message st) = received c st.
Proof.
  intros st Hs Hc Hid.
  pose proof (Inv_reachable events) as I. fold st in I.
  assert (Hr : reached st (Some (playerId sock)) c = false).
  { rewrite reached_registered by assumption.
    rewrite <- Hid. now apply own_id_excluded. }
  destruct (on_message_outcome ws message st)
    as [|e|sock0 key fa la bl Hs0|sock0 po fo pi Hs0]; try reflexivity.
  - rewrite Hs in Hs0. inversion Hs0; subst sock0.
    rewrite received_broadcast;
      [| exact (inv_clients st I)
       | simpl; rewrite (inv_clients st I); exact (inv_nodup st I)].
    change (reached (with_worldChanges ?m st) ?ex c) with (reached st ex c).
    rewrite Hr. apply app_nil_r.
  - rewrite Hs in Hs0. inversion Hs0; subst sock0.
    destruct (set_playerData_rest ws (moved sock po fo pi) st)
      as [Ec [Ep [_ [Es _]]]].
    rewrite received_broadcast;
      [| now rewrite Ec, Ep; exact (inv_clients st I)
       | rewrite Ec, (inv_clients st I); exact (inv_nodup st I)].
    rewrite reached_moved by assumption. rewrite Hr, app_nil_r.
    unfold received. now rewrite Es.
Qed.

Lemma same_id_hears_nothing_witness :
  let random := fun _ : nat => (3 # 4)%Q in
  let random' := fun i : nat => (if Nat.eqb i 15 then 1 # 4 else 49 # 64)%Q in
  let st := run [Connection random; Connection random'] initial in
  let message := Parsed (VObj [("type", VStr "position");
                               ("position", VArr [num 1; num 2; num 3])]) in
  generateColor random uuid_draws <> generateColor random' uuid_draws /\
  received 1 (on_message 0 message st) = received 1 st.
Proof.
  intros random random' st message.
  split; [vm_compute; congruence|].
  assert (H1 : socket st 0 = Some (new_socket random)) by (vm_compute; reflexivity).
  assert (H2 : socket st 1 = Some (new_socket random')) by (vm_compute; reflexivity).
  assert (H3 : playerId (new_socket random') = playerId (new_socket random))
    by (vm_compute; reflexivity).
  exact (same_id_hears_nothing [Connection random; Connection random'] 0 1 _ _
           message H1 H2 H3).
Defined.

(** ** Distinct ids *)

Lemma map_replace_nth {A B} (f : A -> B) n x l y :
  nth_error l n = Some y -> f x = f y -> map f (replace_nth n x l) = map f l.
Proof.
  revert n. induction l as [|a l IH]; intros n Hn Hf;
    [destruct n; discriminate|].
  destruct n as [|n]; simpl in *.
  - inversion Hn; subst. now rewrite Hf.
  - f_equal. now apply IH.
Qed.

Lemma playerIds_set_playerData ws d st :
  map playerId (sockets (set_playerData ws d st)) = map playerId (sockets st).
Proof.
  unfold set_playerData. destruct (socket st ws) as [sock|] eqn:Hs; [|reflexivity].
  simpl. now apply (map_replace_nth playerId ws _ _ sock).
Qed.

Lemma playerIds_set_readyState ws s st :
  map playerId (sockets (set_readyState ws s st)) = map playerId (sockets st).
Proof.
  unfold set_readyState. destruct (socket st ws) as [sock|] eqn:Hs; [|reflexivity].
  simpl. now apply (map_replace_nth playerId ws _ _ sock).
Qed.

Lemma playerIds_step st e :
  map playerId (sockets (step st e))
  = map playerId (sockets st)
    ++ match e with
       | Connection random => [generateUUID random]
       | _ => []
       end.
Proof.
  destruct e as [random|ws message|ws|ws|ws error]; simpl step;
    rewrite ?app_nil_r.
  - destruct (on_connection_fields random st) as [Es _]. rewrite Es, map_app.
    apply (f_equal (app _)). cbn [map].
    now destruct (new_socket_fields random) as [-> _].
  - destruct (on_message_outcome ws message st)
      as [|e|sock key fa la bl Hs|sock po fo pi Hs]; try reflexivity.
    + rewrite broadcast_sent. reflexivity.
    + rewrite broadcast_sent. apply playerIds_set_playerData.
  - destruct (client_open st ws); [apply playerIds_set_readyState | reflexivity].
  - destruct (socket st ws) as [sock|] eqn:Hsock; [|reflexivity].
    assert (Hclose : map playerId (sockets (on_close ws (closed_by_transport ws st)))
                     = map playerId (sockets st)).
    { rewrite (on_close_eq ws st sock Hsock). apply playerIds_set_readyState. }
    destruct (readyState sock); try exact Hclose. reflexivity.
  - unfold on_error. destruct (socket st ws); reflexivity.
Qed.

Lemma playerIds_run events : forall st,
  map playerId (sockets (run events st))
  = map playerId (sockets st) ++ map generateUUID (draws events).
Proof.
  induction events as [|e events IH]; intros st; simpl run.
  - simpl. now rewrite app_nil_r.
  - rewrite IH, playerIds_step, <- app_assoc. f_equal.
    destruct e; reflexivity.
Qed.

Lemma NoDup_map_by {A B C} (f : A -> B) (g : A -> C) l :
  (forall x y, In x l -> In y l -> f x = f y -> g x = g y) ->
  NoDup (map g l) -> NoDup (map f l).
Proof.
  induction l as [|a l IH]; intros H Hn; simpl; [constructor|].
  simpl in Hn. inversion Hn as [|? ? Hnot Hn']; subst.
  constructor.
  - intros Hin. apply Hnot. apply in_map_iff in Hin.
    destruct Hin as [x [E Hx]]. apply in_map_iff. exists x.
    split; [|assumption]. apply H; simpl; auto.
  - apply IH; [|assumption]. intros x y Hx Hy. apply H; simpl; auto.
Qed.

(** X15: when the draws of the connections are in [0, 1) and no two
    connections drew the same 31 digits, no two sockets have the same id,
    and then a position message of one socket is sent on to every other
    socket that is open. *)
Theorem distinct_digits_reach_everyone (events : list Event) :
  let st := run events initial in
  (forall random i, In random (draws events) -> unit_draw (random i)) ->
  NoDup (map (fun random => uuid_digits template random 0) (draws events)) ->
  NoDup (map playerId (sockets st)) /\
  forall ws sock props c,
    socket st ws = Some sock ->
    own "type" props = Some (VStr "position") ->
    c <> ws -> client_open st c = true ->
    received c (on_message ws (Parsed (VObj props)) st)
    = received c st ++
      [playerMove (playerId sock) (property props "position")
         (property props "forward") (or_else (property props "pitch") (num 0))].
Proof.
  intros st Hdraws Hdigits.
  pose proof (Inv_reachable events) as I. fold st in I.
  assert (Hids : NoDup (map playerId (sockets st))).
  { unfold st. rewrite playerIds_run. simpl.
    apply (NoDup_map_by generateUUID
             (fun random => uuid_digits template random 0)); [|assumption].
    intros x y Hx Hy E.
    apply (generateUUID_same_digits x y); try assumption;
      intros i; now apply Hdraws. }
  split; [assumption|].
  intros ws sock props c Hs Htype Hne Hopen.
  rewrite (on_message_position_object ws st sock props Hs Htype).
  unfold received at 1. change (sent (with_sent ?l _)) with l.
  destruct (set_playerData_rest ws
              (moved sock (property props "position") (property props "forward")
                 (property props "pitch")) st) as [_ [_ [_ [Es _]]]].
  rewrite received_notice by assumption. f_equal.
  assert (Hd : open_and_differs st (Some (playerId sock)) c = true).
  { unfold open_and_differs. unfold client_open in Hopen.
    destruct (socket st c) as [sock'|] eqn:Hc; [|discriminate].
    rewrite Hopen. simpl. apply negb_true_iff, String.eqb_neq.
    rewrite (inv_id st I c sock' Hc). intros E. apply Hne.
    apply (proj1 (NoDup_nth_error (map playerId (sockets st))) Hids).
    - rewrite length_map. now apply (socket_bound st c sock').
    - rewrite !nth_error_map. unfold socket in Hc, Hs. rewrite Hc, Hs. simpl. now rewrite E. }
  now rewrite Hd.
Qed.

Lemma distinct_digits_reach_everyone_witness :
  let r0 := fun _ : nat => 0.25%Q in
  let r1 := fun _ : nat => 0.75%Q in
  let events := [Connection r0; Connection r1; Connection (fun _ : nat => 0.5%Q)] in
  let st := run events initial in
  let props := [("type", VStr "position");
                ("position", VArr [num 1; num 2; num 3]);
                ("forward", VArr [num 0; num 0; num 1]);
                ("pitch", num 7)] in
  received 2 (on_message 0 (Parsed (VObj props)) st)
  = received 2 st ++
    [playerMove (playerId (new_socket r0)) (property props "position")
       (property props "forward") (or_else (property props "pitch") (num 0))].
Proof.
  intros r0 r1 events st props.
  assert (H1 : forall (random : nat -> Q) (i : nat),
             In random (draws events) -> unit_draw (random i)).
  { intros random i [<-|[<-|[<-|[]]]]; repeat split; vm_compute; congruence. }
  assert (H2 : NoDup (map (fun random => uuid_digits template random 0)
                        (draws events))).
  { vm_compute. repeat constructor; simpl; intuition discriminate. }
  assert (H3 : socket st 0 = Some (new_socket r0)) by (vm_compute; reflexivity).
  assert (H4 : own "type" props = Some (VStr "position")) by reflexivity.
  assert (H5 : 2 <> 0) by discriminate.
  assert (H6 : client_open st 2 = true) by (vm_compute; reflexivity).
  exact (proj2 (distinct_digits_reach_everyone events H1 H2) 0 _ props 2 H3 H4 H5 H6).
Defined.

(** ** Registration, with the generator *)

(** The ids of the sockets are those made from the draws of the
    connections. *)
Lemma id_from_draws events h d :
  players_get (run events initial) h = Some d ->
  exists random, In random (draws events) /\ id d = generateUUID random.
Proof.
  intros Hget. pose proof (Inv_reachable events) as I.
  unfold players_get in Hget.
  destruct (has h (players (run events initial))); [|discriminate].
  destruct (socket (run events initial) h) as [sock|] eqn:Hs; [|discriminate].
  simpl in Hget. inversion Hget; subst d.
  rewrite (inv_id _ I h sock Hs).
  assert (Hin : In (playerId sock) (map playerId (sockets (run events initial)))).
  { apply in_map. unfold socket in Hs. eapply nth_error_In; eassumption. }
  rewrite playerIds_run in Hin. simpl in Hin.
  apply in_map_iff in Hin. destruct Hin as [random [E Hin]].
  exists random. split; [assumption | now symmetry].
Qed.

(** C8 (as the code has it): the connection handler builds, for the new
    socket, a record with a newly generated id and colour, position
    (0, 102, 0), forward (0, 0, -1) and pitch 0, stores it in [players]
    under the socket (a key that was not there before), keeps it as the
    [playerData] of the socket's handlers, and leaves every other entry as
    it was.  With draws in [0, 1) the id has the 36 characters of the
    template, and it is the id made from other draws exactly when those give
    the same 31 digits: the id is compared with no id in use, and it is the
    id of no record of the registry when no connection before drew its
    digits.  Each channel of the colour lies from 0.3 up to, but not
    including, 1. *)
Theorem C8_register_creates_default_record (random : nat -> Q) (events : list Event) :
  let st := run events initial in
  let ws := List.length (sockets st) in
  let st' := step st (Connection random) in
  let record :=
    {| id := generateUUID random;
       color := generateColor random uuid_draws;
       position := VArr [num 0; num 102; num 0];
       forward := VArr [num 0; num 0; num (-1)];
       pitch := num 0 |} in
  (~ In ws (players st) /\
   players st' = players st ++ [ws] /\
   players_get st' ws = Some record /\
   option_map playerData (socket st' ws) = Some record /\
   (forall h, h <> ws -> players_get st' h = players_get st h)) /\
  ((forall i, unit_draw (random i)) ->
   (String.length (generateUUID random) = 36 /\
    forall n c, String.get n template = Some c ->
      if Ascii.eqb c "x" then
        exists v, (0 <= v < 16)%Z /\
          String.get n (generateUUID random) = Some (hex_digit v)
      else if Ascii.eqb c "y" then
        exists v, (8 <= v <= 11)%Z /\
          String.get n (generateUUID random) = Some (hex_digit v)
      else String.get n (generateUUID random) = Some c) /\
   (forall random', (forall i, unit_draw (random' i)) ->
      (generateUUID random = generateUUID random' <->
       uuid_digits template random 0 = uuid_digits template random' 0)) /\
   ((forall random' i, In random' (draws events) -> unit_draw (random' i)) ->
    ~ In (uuid_digits template random 0)
         (map (fun random' => uuid_digits template random' 0) (draws events)) ->
    forall h d, players_get st h = Some d -> id d <> generateUUID random) /\
   let c := generateColor random uuid_draws in
   ((double 0.3 <= r c)%Q /\ (r c < 1)%Q) /\
   ((double 0.3 <= g c)%Q /\ (g c < 1)%Q) /\
   ((double 0.3 <= b c)%Q /\ (b c < 1)%Q)).
Proof.
  intros st ws st' record.
  pose proof (Inv_reachable events) as I. fold st in I.
  pose proof (Inv_new_handle st I) as Hnew. fold ws in Hnew.
  destruct (on_connection_fields random st) as [Hs [Hc [Hp Hw]]].
  assert (Hsock : socket st' ws = Some (new_socket random)).
  { unfold st'. simpl step. rewrite socket_on_connection.
    unfold ws. now rewrite Nat.eqb_refl. }
  split.
  { split; [assumption|]. split.
    { unfold st'. simpl step. rewrite Hp. now apply add_fresh. }
    split; [apply players_get_on_connection|].
    split.
    { now rewrite Hsock. }
    intros h Hne. unfold players_get, st'. simpl step.
    rewrite Hp, socket_on_connection. fold ws.
    rewrite has_add_other by assumption.
    destruct (Nat.eqb_spec h ws); [contradiction | reflexivity]. }
  intros Hdraws. split.
  { split.
    - unfold generateUUID. now rewrite replace_xy_length.
    - intros n c Hc'. unfold generateUUID. now apply replace_xy_get. }
  split.
  { intros random' Hdraws'. now apply generateUUID_same_digits. }
  split.
  { intros Hall Hfresh h d Hget E.
    destruct (id_from_draws events h d Hget) as [random' [Hin Eid]].
    apply Hfresh. apply in_map_iff. exists random'. split; [|assumption].
    symmetry. apply (generateUUID_same_digits random random');
      [assumption | intros i; now apply Hall | congruence]. }
  intros c.
  destruct (Hdraws uuid_draws) as [D0 [L0 U0]].
  destruct (Hdraws (uuid_draws + 1)) as [D1 [L1 U1]].
  destruct (Hdraws (uuid_draws + 2)) as [D2 [L2 U2]].
  repeat split; now apply channel_bounds.
Qed.

Lemma C8_register_creates_default_record_witness :
  let random := fun _ : nat => (3 # 4)%Q in
  let events := [Connection (fun _ : nat => 0.25%Q)] in
  String.length (generateUUID random) = 36 /\
  (forall h d, players_get (run events initial) h = Some d ->
     id d <> generateUUID random) /\
  (double 0.3 <= r (generateColor random uuid_draws))%Q.
Proof.
  intros random events.
  assert (H : forall i : nat, unit_draw (random i)).
  { intros i. repeat split; vm_compute; congruence. }
  assert (H1 : forall (random' : nat -> Q) (i : nat),
             In random' (draws events) -> unit_draw (random' i)).
  { intros random' i [<-|[]]. repeat split; vm_compute; congruence. }
  assert (H2 : ~ In (uuid_digits template random 0)
                 (map (fun random' => uuid_digits template random' 0) (draws events))).
  { vm_compute. intros [E|[]]. discriminate E. }
  destruct (proj2 (C8_register_creates_default_record random events) H)
    as [[Hlen _] [_ [Hfresh [[Hr _] _]]]].
  split; [exact Hlen|]. split; [exact (Hfresh H1 H2) | exact Hr].
Defined.

(** Against C8 as stated: the id of a new record is not always new.  Two
    connections whose draws, all in [0, 1), give the same digits get the
    same id, and both records are in the registry. *)
Lemma C8_identity_can_repeat :
  let random := fun _ : nat => (3 # 4)%Q in
  let random' := fun i : nat => (if Nat.eqb i 15 then 1 # 4 else 49 # 64)%Q in
  let st := run [Connection random] initial in
  let st' := step st (Connection random') in
  ((forall i, unit_draw (random i)) /\ (forall i, unit_draw (random' i))) /\
  players st' = [0; 1] /\
  option_map id (players_get st 0) = Some "cccccccc-cccc-4ccc-8ccc-cccccccccccc" /\
  option_map id (players_get st' 0) = Some "cccccccc-cccc-4ccc-8ccc-cccccccccccc" /\
  option_map id (players_get st' 1) = Some "cccccccc-cccc-4ccc-8ccc-cccccccccccc".
Proof.
  intros random random' st st'. split.
  - split; intros i; unfold random'; try destruct (Nat.eqb i 15);
      repeat split; vm_compute; congruence.
  - vm_compute. repeat split.
Qed.

(** ** The console is written and never read *)

Lemma same_session_refl st : same_session st st.
Proof. repeat split. Qed.

Lemma same_session_sym st st' : same_session st st' -> same_session st' st.
Proof. intros [? [? [? [? ?]]]]. repeat split; auto. Qed.

Lemma same_session_trans st st' st'' :
  same_session st st' -> same_session st' st'' -> same_session st st''.
Proof.
  intros [? [? [? [? ?]]]] [? [? [? [? ?]]]]. repeat split; congruence.
Qed.

Lemma same_session_console st st' :
  same_session st st' -> st' = with_console (console st') st.
Proof.
  destruct st, st'. unfold same_session. simpl.
  intros [-> [-> [-> [-> ->]]]]. reflexivity.
Qed.

Lemma broadcast_with_console l message excludeId st :
  broadcast message excludeId (with_console l st)
  = with_console l (broadcast message excludeId st).
Proof. rewrite !broadcast_sent. reflexivity. Qed.

Lemma set_playerData_with_console l ws d st :
  set_playerData ws d (with_console l st)
  = with_console l (set_playerData ws d st).
Proof.
  unfold set_playerData.
  change (socket (with_console l st) ws) with (socket st ws).
  destruct (socket st ws); reflexivity.
Qed.

Lemma set_readyState_with_console l ws s st :
  set_readyState ws s (with_console l st)
  = with_console l (set_readyState ws s st).
Proof.
  unfold set_readyState.
  change (socket (with_console l st) ws) with (socket st ws).
  destruct (socket st ws); reflexivity.
Qed.

Lemma on_connection_with_console l random st :
  same_session (on_connection random (with_console l st)) (on_connection random st).
Proof. rewrite !on_connection_eq. repeat split. Qed.

Lemma on_message_with_console l ws message st :
  same_session (on_message ws message (with_console l st)) (on_message ws message st).
Proof.
  unfold on_message.
  change (socket (with_console l st) ws) with (socket st ws).
  destruct (socket st ws) as [sock|]; [|repeat split].
  destruct (JSON_parse message) as [data|e]; simpl; [|repeat split].
  destruct (Get data "type") as [type|e]; simpl; [|repeat split].
  destruct (strict_eq_string type "blockChange").
  - destruct (Get data "face") as [face|e]; simpl; [|repeat split].
    destruct (Get data "layer") as [layer|e]; simpl; [|repeat split].
    destruct (key_of face layer) as [key|e]; simpl; [|repeat split].
    destruct (Get data "block") as [block|e]; simpl; [|repeat split].
    change (with_worldChanges ?m (with_console l st))
      with (with_console l (with_worldChanges m st)).
    rewrite broadcast_with_console. repeat split.
  - destruct (strict_eq_string type "position"); [|repeat split].
    destruct (Get data "position") as [position|e]; simpl; [|repeat split].
    destruct (Get data "forward") as [forward|e]; simpl; [|repeat split].
    destruct (Get data "pitch") as [pitch|e]; simpl; [|repeat split].
    rewrite set_playerData_with_console, broadcast_with_console. repeat split.
Qed.

Lemma step_with_console l st e :
  same_session (step (with_console l st) e) (step st e).
Proof.
  destruct e as [random|ws message|ws|ws|ws error]; simpl step.
  - apply on_connection_with_console.
  - apply on_message_with_console.
  - change (client_open (with_console l st) ws) with (client_open st ws).
    destruct (client_open st ws); [|repeat split].
    rewrite set_readyState_with_console. repeat split.
  - change (socket (with_console l st) ws) with (socket st ws).
    destruct (socket st ws) as [sock|] eqn:Hsock; [|repeat split].
    assert (Hclose :
      same_session
        (on_close ws (with_clients (delete ws (clients (with_console l st)))
                        (set_readyState ws CLOSED (with_console l st))))
        (on_close ws (with_clients (delete ws (clients st))
                        (set_readyState ws CLOSED st)))).
    { rewrite set_readyState_with_console.
      change (with_clients ?c (with_console l ?s))
        with (with_console l (with_clients c s)).
      unfold on_close.
      change (socket (with_console l ?s) ws) with (socket s ws).
      change (clients (with_console l st)) with (clients st).
      destruct (socket (with_clients (delete ws (clients st))
                          (set_readyState ws CLOSED st)) ws);
        [|repeat split].
      rewrite !broadcast_sent. repeat split. }
    destruct (readyState sock); try exact Hclose. repeat split.
  - unfold on_error.
    change (socket (with_console l st) ws) with (socket st ws).
    destruct (socket st ws); repeat split.
Qed.

Lemma step_same_session st st' e :
  same_session st st' -> same_session (step st e) (step st' e).
Proof.
  intros H. rewrite (same_session_console st st' H).
  apply same_session_sym, step_with_console.
Qed.

Lemma noise_same_session st e :
  is_noise e = true -> same_session (step st e) st.
Proof.
  destruct e as [random|ws message|ws|ws|ws error]; try discriminate; simpl.
  - destruct message; [|discriminate]. intros _.
    unfold on_message. destruct (socket st ws); repeat split.
  - intros _. unfold on_error. destruct (socket st ws); repeat split.
Qed.

Lemma run_without_noise events : forall st st',
  same_session st st' ->
  same_session (run events st) (run (filter (fun e => negb (is_noise e)) events) st').
Proof.
  induction events as [|e events IH]; intros st st' H; simpl; [assumption|].
  destruct (is_noise e) eqn:En; simpl.
  - apply IH. eapply same_session_trans; [|exact H]. now apply noise_same_session.
  - apply IH. now apply step_same_session.
Qed.

(** X16: nothing the server does depends on its console, and the ['error']
    of a socket and a message that does not parse end in a line of the
    console and nothing else: with those events left out, the sockets, the
    registry, the store and all that was sent are the same. *)
Theorem noise_changes_only_the_console (events : list Event) :
  let st := run events initial in
  let st' := run (filter (fun e => negb (is_noise e)) events) initial in
  sockets st = sockets st' /\ clients st = clients st' /\
  players st = players st' /\ worldChanges st = worldChanges st' /\
  sent st = sent st'.
Proof.
  intros st st'. apply (run_without_noise events initial initial).
  apply same_session_refl.
Qed.
